(** * svgService: the vector text-layout and style-composition engine

    A shallow embedding of [services/svgService.ts]: the style resolver
    ([getTextStyleSvg], [getTextStyleDefs]), XML escaping ([escapeXml]), the
    font resolver ([fetchAndEncodeFont]), the text layout engine
    ([getTextElements]), the three SVG composers ([generateTextOnlySvg],
    [generateCombinedSvg], [generateEngravingSvg]) and the PNG of the text
    design ([generateTextOnlyPng]); and of the download handlers of
    [App.tsx] that call them.

    - A JavaScript string is a list of characters.  Characters are 8-bit
      ([ascii]), so the model covers strings over Latin-1; the white space
      of [trim] and of the regular expression class \s is then the set
      TAB, LF, VT, FF, CR, SPACE, NBSP.
    - A JavaScript number is a rational extended with the two infinities
      and NaN.  Every arithmetic operation rounds its exact result with
      [rnd]; binary64 arithmetic is the instance [round53] (53-bit
      significand, round to nearest, ties to even, exponent range not
      bounded), exact arithmetic is the instance [fun q => q].  The sign of
      zero is not modelled.
    - An awaited promise is its settlement: [Resolved v] or [Rejected e].
      The browser (image decoding, [fetch], [FileReader]) is a record of
      functions, [World], giving the outcome of each request; its canvas
      side is the record [Canvas], and the object URLs that are live are
      passed along as a list. *)

From Stdlib Require Import List Ascii String Bool Arith PeanoNat ZArith NArith.
From Stdlib Require Import QArith Qcanon Qround Qabs Qcabs Qpower Lia Lra Lqa DecimalString.
From Stdlib Require Floats.
Import ListNotations.
Close Scope Qc_scope.

(* ================================================================== *)
(** * Strings *)

Module JsString.

Definition jsstring := list ascii.

(** The double quote character. *)
Definition dq : ascii := ascii_of_nat 34.

(** String literals of the model.  Inside a literal the backquote stands
    for the double quote, so a template of the source can be copied as it
    is: [lit "fill=`none`"] is the JavaScript string [fill="none"]. *)
Definition unquote (c : ascii) : ascii :=
  if Ascii.eqb c "`"%char then dq else c.

Definition lit (s : string) : jsstring :=
  map unquote (list_ascii_of_string s).

(** White space, as [String.prototype.trim] and the class \s see it. *)
Definition is_space (c : ascii) : bool :=
  let n := nat_of_ascii c in
  ((9 <=? n) && (n <=? 13)) || (n =? 32) || (n =? 160).

Fixpoint dropWhile (p : ascii -> bool) (s : jsstring) : jsstring :=
  match s with
  | [] => []
  | c :: s' => if p c then dropWhile p s' else s
  end.

Fixpoint takeWhile (p : ascii -> bool) (s : jsstring) : jsstring :=
  match s with
  | [] => []
  | c :: s' => if p c then c :: takeWhile p s' else []
  end.

(** [s.trim()] *)
Definition trim (s : jsstring) : jsstring :=
  rev (dropWhile is_space (rev (dropWhile is_space s))).

(** Truthiness of a string: the empty string is falsy. *)
Definition truthy (s : jsstring) : bool :=
  match s with [] => false | _ :: _ => true end.

Fixpoint starts_with (p s : jsstring) : bool :=
  match p, s with
  | [], _ => true
  | _ :: _, [] => false
  | a :: p', b :: s' => Ascii.eqb a b && starts_with p' s'
  end.

Definition ends_with (p s : jsstring) : bool :=
  starts_with (rev p) (rev s).

(** [a === b] on strings. *)
Fixpoint string_eqb (a b : jsstring) : bool :=
  match a, b with
  | [], [] => true
  | x :: a', y :: b' => Ascii.eqb x y && string_eqb a' b'
  | _, _ => false
  end.

(** [s.split(/\s+/)]: the pieces of [s] between maximal runs of white
    space.  A string that starts (ends) with white space has an empty first
    (last) piece, and the empty string splits into one empty piece. *)
Fixpoint split_ws (s : jsstring) : list jsstring :=
  match s with
  | [] => [[]]
  | c :: s' =>
      if is_space c then
        match s' with
        | c' :: _ => if is_space c' then split_ws s' else [] :: split_ws s'
        | [] => [[]; []]
        end
      else
        match split_ws s' with
        | w :: ws => (c :: w) :: ws
        | [] => [[c]]
        end
  end.

(** [xs.join(sep)] *)
Fixpoint join (sep : jsstring) (xs : list jsstring) : jsstring :=
  match xs with
  | [] => []
  | [x] => x
  | x :: rest => x ++ sep ++ join sep rest
  end.

(** [xs.slice(from, to)] and [xs.slice(from)] for indices within
    [0 .. xs.length]. *)
Definition slice {A} (xs : list A) (from to : nat) : list A :=
  firstn (to - from) (skipn from xs).

Definition slice_from {A} (xs : list A) (from : nat) : list A :=
  skipn from xs.

(** [s.replace(/c/g, r)] for a regular expression that is one character. *)
Definition replace_all_char (c : ascii) (r : jsstring) (s : jsstring) : jsstring :=
  flat_map (fun x => if Ascii.eqb x c then r else [x]) s.

(** [s.indexOf(p)]: the first position where [p] occurs, -1 if none. *)
Fixpoint index_from (p s : jsstring) (i : Z) : Z :=
  if starts_with p s then i
  else match s with
       | [] => (-1)%Z
       | _ :: s' => index_from p s' (i + 1)
       end.

Definition indexOf (p s : jsstring) : Z := index_from p s 0.

(** [s.substring(start)]: a negative start counts as 0, one past the end
    as the end. *)
Definition substring (s : jsstring) (start : Z) : jsstring :=
  skipn (Z.to_nat (Z.max 0 start)) s.

(** [s.replace(p, r)] for a string pattern: the first occurrence only. *)
Fixpoint replace_first (p r s : jsstring) : jsstring :=
  if starts_with p s then r ++ skipn (List.length p) s
  else match s with
       | [] => []
       | c :: s' => c :: replace_first p r s'
       end.

(** [xs.map((x, i) => f(x, i))] *)
Fixpoint mapi_from {A B} (f : A -> nat -> B) (i : nat) (xs : list A) : list B :=
  match xs with
  | [] => []
  | x :: rest => f x i :: mapi_from f (S i) rest
  end.

Definition mapi {A B} (f : A -> nat -> B) (xs : list A) : list B :=
  mapi_from f 0 xs.

End JsString.
Export JsString.
Arguments lit s%_string.

(* ================================================================== *)
(** * Numbers *)

Module JsNumber.

(** A number value: a finite rational, an infinity with its sign, or NaN. *)
Inductive number : Type :=
| Fin (q : Qc)
| Inf (negative : bool)
| NaN.

Definition Qc_of_Z (z : Z) : Qc := Q2Qc (inject_Z z).
Definition num_of_Z (z : Z) : number := Fin (Qc_of_Z z).
Definition num_of_nat (n : nat) : number := num_of_Z (Z.of_nat n).
Definition num_of_N (n : N) : number := num_of_Z (Z.of_N n).

Definition Qc_eqb (x y : Qc) : bool :=
  match (x ?= y)%Qc with Eq => true | _ => false end.
Definition Qc_ltb (x y : Qc) : bool :=
  match (x ?= y)%Qc with Lt => true | _ => false end.
Definition Qc_leb (x y : Qc) : bool :=
  match (x ?= y)%Qc with Gt => false | _ => true end.

Definition is_negative (q : Qc) : bool := Qc_ltb q 0.

Section Arithmetic.

(** Rounding of an exact result to a representable number. *)
Variable rnd : Qc -> Qc.

Definition num_neg (a : number) : number :=
  match a with
  | Fin x => Fin (- x)
  | Inf s => Inf (negb s)
  | NaN => NaN
  end.

(** [a + b] *)
Definition num_add (a b : number) : number :=
  match a, b with
  | NaN, _ | _, NaN => NaN
  | Fin x, Fin y => Fin (rnd (x + y))
  | Fin _, Inf s => Inf s
  | Inf s, Fin _ => Inf s
  | Inf s, Inf t => if Bool.eqb s t then Inf s else NaN
  end.

(** [a - b] *)
Definition num_sub (a b : number) : number := num_add a (num_neg b).

(** [a * b] *)
Definition num_mul (a b : number) : number :=
  match a, b with
  | NaN, _ | _, NaN => NaN
  | Fin x, Fin y => Fin (rnd (x * y))
  | Fin x, Inf s | Inf s, Fin x =>
      if Qc_eqb x 0 then NaN else Inf (xorb s (is_negative x))
  | Inf s, Inf t => Inf (xorb s t)
  end.

(** [a / b]: a finite non-zero number over zero is an infinity, zero over
    zero is NaN. *)
Definition num_div (a b : number) : number :=
  match a, b with
  | NaN, _ | _, NaN => NaN
  | Fin x, Fin y =>
      if Qc_eqb y 0
      then (if Qc_eqb x 0 then NaN else Inf (is_negative x))
      else Fin (rnd (x / y))
  | Fin _, Inf _ => Fin 0
  | Inf s, Fin y => Inf (xorb s (is_negative y))
  | Inf _, Inf _ => NaN
  end.

(** [a < b]; false when either is NaN. *)
Definition num_ltb (a b : number) : bool :=
  match a, b with
  | NaN, _ | _, NaN => false
  | Fin x, Fin y => Qc_ltb x y
  | Fin _, Inf s => negb s
  | Inf s, Fin _ => s
  | Inf s, Inf t => s && negb t
  end.

(** [Math.min(a, b)] and [Math.max(a, b)]: NaN when either is NaN. *)
Definition Math_min2 (a b : number) : number :=
  match a, b with
  | NaN, _ | _, NaN => NaN
  | _, _ => if num_ltb b a then b else a
  end.

Definition Math_max (a b : number) : number :=
  match a, b with
  | NaN, _ | _, NaN => NaN
  | _, _ => if num_ltb a b then b else a
  end.

(** [Math.min(a, b, c)] *)
Definition Math_min (a b c : number) : number :=
  Math_min2 (Math_min2 a b) c.

End Arithmetic.

(** [Math.ceil(n / 2)] for an array length [n]; halving a length is exact
    in binary floating point, so no rounding takes part. *)
Definition ceil_half (n : nat) : nat :=
  Z.to_nat (Qceiling (inject_Z (Z.of_nat n) / 2)).

(** ** Number to string

    An integer of magnitude at most 2^53 prints as its decimal digits,
    with a minus sign when negative: each is a binary64 whose neighbours
    are at least 1 away, so no shorter decimal reads back as it.  For the
    other finite values JavaScript prints the shortest decimal that reads
    back as the same binary64 (the integer 2^60 + 512 prints as
    1152921504606847500); that part is the parameter [frac]. *)
Definition decimal (z : Z) : jsstring :=
  list_ascii_of_string (NilZero.string_of_int (Z.to_int z)).

Definition is_small_integer (q : Qc) : bool :=
  (Pos.eqb (Qden q) 1) && (Z.abs (Qnum q) <=? 2 ^ 53)%Z.

Definition numberToString (frac : Qc -> jsstring) (a : number) : jsstring :=
  match a with
  | NaN => lit "NaN"
  | Inf false => lit "Infinity"
  | Inf true => lit "-Infinity"
  | Fin q => if is_small_integer q then decimal (Qnum q) else frac q
  end.

(** ** Binary64 rounding

    [round53 q] is the number with a 53-bit significand nearest to [q],
    ties going to the even significand.  The exponent is not bounded, so
    overflow and subnormal numbers are not modelled. *)

(** [floor (log2 (n / d))] for positive [n], [d]. *)
Definition log2_floor (n d : positive) : Z :=
  let e := (Z.log2 (Zpos n) - Z.log2 (Zpos d))%Z in
  if (0 <=? e)%Z
  then (if (Zpos n <? Zpos d * 2 ^ e)%Z then e - 1 else e)%Z
  else (if (Zpos n * 2 ^ (- e) <? Zpos d)%Z then e - 1 else e)%Z.

(** Nearest integer to [n / d], ties to even. *)
Definition round_half_even (n : Z) (d : positive) : Z :=
  let q := (n / Zpos d)%Z in
  let r := (n mod Zpos d)%Z in
  match (2 * r ?= Zpos d)%Z with
  | Lt => q
  | Gt => (q + 1)%Z
  | Eq => if Z.even q then q else (q + 1)%Z
  end.

Definition round53_pos (n d : positive) : Q :=
  let e := (log2_floor n d - 52)%Z in
  if (0 <=? e)%Z
  then inject_Z (round_half_even (Zpos n) (d * Z.to_pos (2 ^ e)) * 2 ^ e)
  else Qmake (round_half_even (Zpos n * 2 ^ (- e)) d) (Z.to_pos (2 ^ (- e))).

Definition round53 (q : Qc) : Qc :=
  match Qnum q with
  | Z0 => q
  | Zpos n => Q2Qc (round53_pos n (Qden q))
  | Zneg n => Q2Qc (- round53_pos n (Qden q))
  end.

End JsNumber.
Export JsNumber.

Declare Scope num_scope.
Delimit Scope num_scope with num.
Bind Scope num_scope with number.

(* ================================================================== *)
(** * Promises and the browser *)

Module Platform.

(** What a rejected promise carries. *)
Inductive Thrown : Type :=
| Error (message : jsstring)   (* [new Error(message)] *)
| NetworkFailure               (* [fetch] rejected *)
| BodyFailure                  (* reading a response body rejected *)
| ProgressEvent.               (* the error event of a [FileReader] *)

(** The state a promise ends in: fulfilled, rejected, or never settled. *)
Inductive Promise (A : Type) : Type :=
| Resolved (value : A)
| Rejected (reason : Thrown)
| Pending.

Arguments Resolved {A} value.
Arguments Rejected {A} reason.
Arguments Pending {A}.

(** [const x = await p; k(x)] *)
Definition await {A B} (p : Promise A) (k : A -> Promise B) : Promise B :=
  match p with
  | Resolved x => k x
  | Rejected e => Rejected e
  | Pending => Pending
  end.

(** [try { body } catch (error) { handler }] as the body of an async
    function.  [body] is the outcome of running the block up to its
    [return]: the operand of the [return] (itself a promise when the block
    returns one without awaiting it), or the exception of a [throw] or of
    an awaited promise that rejected, and then the handler runs.  The
    promise of the async function follows what is returned. *)
Definition try_catch {A} (body : Promise (Promise A)) (handler : Thrown -> Promise A)
  : Promise A :=
  match body with
  | Resolved returned => returned
  | Rejected e => handler e
  | Pending => Pending
  end.

Record LogoDimensions : Type := { img_width : N; img_height : N }.

(** Reading the body of a response, [response.text()] or
    [response.blob()]. *)
Inductive Body : Type :=
| BodyError
| BodyOk (content : jsstring).

Inductive FetchResult : Type :=
| FetchError
| Response (ok : bool) (statusText : jsstring) (body : Body).

(** [reader.readAsDataURL(blob)]: the read succeeds with a data URI, or
    fails. *)
Inductive ReadResult : Type :=
| ReadOk (dataUri : jsstring)
| ReadError.

Record World : Type := {
  (** [img.src = url]: [onload] with the natural size, or [onerror]. *)
  load_image : jsstring -> option LogoDimensions;
  (** [fetch(url)] *)
  fetch : jsstring -> FetchResult;
  (** [FileReader.readAsDataURL(blob)] *)
  read_as_data_url : jsstring -> ReadResult
}.

(** ** A promise built with [new Promise((resolve, reject) => ...)]

    The executor installs handlers on an event target; each event that
    fires may call [resolve] or [reject], and only the first call settles
    the promise. *)
Definition settle {A} (state : Promise A) (call : option (Promise A)) : Promise A :=
  match state, call with
  | Pending, Some s => s
  | _, _ => state
  end.

Definition new_Promise {A E} (handler : E -> option (Promise A)) (events : list E)
  : Promise A :=
  fold_left (fun st ev => settle st (handler ev)) events Pending.

(** The events a [FileReader] fires for a read: [load] or [error], and
    then [loadend] in both cases. *)
Inductive ReaderEvent : Type := ev_load | ev_error | ev_loadend.

Definition reader_events (r : ReadResult) : list ReaderEvent :=
  match r with
  | ReadOk _ => [ev_load; ev_loadend]
  | ReadError => [ev_error; ev_loadend]
  end.

(** [reader.result]: the data URI after a successful read, [null]
    (modelled as the empty string, falsy like it) after a failed one. *)
Definition reader_result (r : ReadResult) : jsstring :=
  match r with
  | ReadOk uri => uri
  | ReadError => []
  end.

End Platform.
Export Platform.

(* ================================================================== *)
(** * The service *)

Module Types.

(** [TextStyle]: the visual styles the service distinguishes; ['none'] takes
    the default branch of both style switches. *)
Inductive TextStyle : Type :=
| ts_none | ts_outline | ts_shadow | ts_glow | ts_neon | ts_3d
| ts_metallic | ts_chrome | ts_gradient | ts_varsity.

(** [DesignStyle]: the layouts [getTextElements] distinguishes; every other
    value of the union (['distressed_vintage'], ...) takes its default
    branch. *)
Inductive DesignStyle : Type :=
| st_classic | st_lower_half_circle | st_upper_half_circle
| st_upper_oval | st_lower_oval | st_full_circle | st_split | st_stacked_text
| st_other (name : jsstring).

(** The fields of [DesignOptions] the service reads.  [logo] is a data URL,
    or [null]. *)
Record DesignOptions : Type := {
  logo : option jsstring;
  text : jsstring;
  font : jsstring;
  style : DesignStyle;
  textStyle : TextStyle;
  textColor : jsstring;
  gradientStartColor : jsstring;
  gradientEndColor : jsstring
}.

(** [{ ...design, textColor: c, textStyle: s }] *)
Definition with_text_style (design : DesignOptions) (c : jsstring) (s : TextStyle)
  : DesignOptions :=
  {| logo := logo design; text := text design; font := font design;
     style := style design; textStyle := s; textColor := c;
     gradientStartColor := gradientStartColor design;
     gradientEndColor := gradientEndColor design |}.

(** An entry of the font catalogue [TSHIRT_FONTS]. *)
Record Font : Type := { font_id : jsstring; font_name : jsstring }.

(** [{ width, height }] *)
Record Box : Type := { width : number; height : number }.
(** [{ x, y }] *)
Record Point : Type := { px : number; py : number }.

(** [{ dataUri, format }] *)
Record FontData : Type := { dataUri : jsstring; format : jsstring }.

End Types.
Export Types.

Module SvgService.

Section Service.

(** Rounding of the arithmetic, and the printing of numbers that are not
    small integers (see [numberToString]). *)
Variable rnd : Qc -> Qc.
Variable frac : Qc -> jsstring.

(** The font catalogue of [constants.ts], which is not among the sources. *)
Variable TSHIRT_FONTS : list Font.

(** The browser. *)
Variable W : World.

Local Notation "a + b" := (num_add rnd a b) : num_scope.
Local Notation "a - b" := (num_sub rnd a b) : num_scope.
Local Notation "a * b" := (num_mul rnd a b) : num_scope.
Local Notation "a / b" := (num_div rnd a b) : num_scope.
Local Notation "# z" := (num_of_Z z) (at level 5, z constr at level 0) : num_scope.
Local Notation "$ a" := (numberToString frac a) (at level 5, a constr at level 0).

(** [getLogoDimensions] *)
Definition getLogoDimensions (logoDataUrl : jsstring) : Promise LogoDimensions :=
  new_Promise
    (fun ev : option LogoDimensions =>
       match ev with
       | Some img => Some (Resolved img)
       | None => Some (Rejected (Error (lit "Failed to load logo image to determine dimensions.")))
       end)
    [load_image W logoDataUrl].

(** [getTextStyleSvg] *)
Definition getTextStyleSvg (style : TextStyle) (textColor id : jsstring) : jsstring :=
  match style with
  | ts_outline => lit "stroke=`black` stroke-width=`2` fill=`" ++ textColor ++ lit "`"
  | ts_shadow => lit "fill=`" ++ textColor ++ lit "` filter=`url(#shadow-" ++ id ++ lit ")`"
  | ts_glow => lit "fill=`white` filter=`url(#glow-" ++ id ++ lit ")`"
  | ts_neon => lit "fill=`" ++ textColor ++ lit "` filter=`url(#neon-" ++ id ++ lit ")`"
  | ts_3d => lit "fill=`" ++ textColor ++ lit "` filter=`url(#three-d-" ++ id ++ lit ")`"
  | ts_metallic => lit "fill=`url(#metallic-" ++ id ++ lit ")`"
  | ts_chrome => lit "fill=`url(#chrome-" ++ id ++ lit ")` stroke=`#4B5563` stroke-width=`0.5`"
  | ts_gradient => lit "fill=`url(#gradient-" ++ id ++ lit ")`"
  | ts_varsity => lit "stroke=`black` stroke-width=`4` stroke-linejoin=`round` fill=`" ++ textColor ++ lit "`"
  | ts_none => lit "fill=`" ++ textColor ++ lit "`"
  end.

(** [getTextStyleDefs] *)
Definition getTextStyleDefs (style : TextStyle)
  (textColor gradientStart gradientEnd id : jsstring) : jsstring :=
  match style with
  | ts_shadow => lit "
        <filter id=`shadow-" ++ id ++ lit "` x=`-20%` y=`-20%` width=`140%` height=`140%`>
          <feDropShadow dx=`3` dy=`3` stdDeviation=`3` flood-color=`rgba(0,0,0,0.5)` />
        </filter>"
  | ts_glow => lit "
        <filter id=`glow-" ++ id ++ lit "` x=`-50%` y=`-50%` width=`200%` height=`200%`>
          <feGaussianBlur in=`SourceGraphic` stdDeviation=`4` result=`blur` />
          <feMerge>
            <feMergeNode in=`blur` />
            <feMergeNode in=`SourceGraphic` />
          </feMerge>
        </filter>"
  | ts_neon => lit "
        <filter id=`neon-" ++ id ++ lit "` x=`-50%` y=`-50%` width=`200%` height=`200%`>
            <feFlood result=`flood` flood-color=`" ++ textColor ++ lit "` flood-opacity=`0.7`/>
            <feComposite in=`flood` in2=`SourceGraphic` operator=`in` result=`color-out`/>
            <feGaussianBlur in=`color-out` stdDeviation=`4` result=`blur-out`/>
            <feMerge>
                <feMergeNode in=`blur-out` />
                <feMergeNode in=`SourceGraphic`/>
            </feMerge>
        </filter>"
  | ts_3d => lit "
        <filter id=`three-d-" ++ id ++ lit "` x=`-20%` y=`-20%` width=`140%` height=`140%`>
            <feDropShadow dx=`3` dy=`3` stdDeviation=`0` flood-color=`#4B5563` />
        </filter>"
  | ts_metallic => lit "
        <linearGradient id=`metallic-" ++ id ++ lit "` x1=`0%` y1=`0%` x2=`0%` y2=`100%`>
            <stop offset=`0%` stop-color=`#E5E7EB` />
            <stop offset=`50%` stop-color=`#9CA3AF` />
            <stop offset=`100%` stop-color=`#E5E7EB` />
        </linearGradient>"
  | ts_chrome => lit "
        <linearGradient id=`chrome-" ++ id ++ lit "` x1=`0%` y1=`0%` x2=`0%` y2=`100%`>
            <stop offset=`0%` stop-color=`#6B7280` /><stop offset=`30%` stop-color=`#D1D5DB` />
            <stop offset=`50%` stop-color=`#F9FAFB` /><stop offset=`70%` stop-color=`#D1D5DB` />
            <stop offset=`100%` stop-color=`#6B7280` />
        </linearGradient>"
  | ts_gradient => lit "
        <linearGradient id=`gradient-" ++ id ++ lit "` x1=`0%` y1=`0%` x2=`100%` y2=`100%`>
            <stop offset=`0%` stop-color=`" ++ gradientStart ++ lit "` />
            <stop offset=`100%` stop-color=`" ++ gradientEnd ++ lit "` />
        </linearGradient>"
  | ts_none | ts_outline | ts_varsity => []
  end.

(** [escapeXml] *)
Definition escapeXml (unsafe : jsstring) : jsstring :=
  flat_map
    (fun c : ascii =>
       if Ascii.eqb c "<" then lit "&lt;"
       else if Ascii.eqb c ">" then lit "&gt;"
       else if Ascii.eqb c "&" then lit "&amp;"
       else if Ascii.eqb c "'" then lit "&apos;"
       else if Ascii.eqb c dq then lit "&quot;"
       else [c])
    unsafe.

(** The match of [/url\((https:\/\/[^)]+\.woff2)\)/] that starts at the
    head of [s], as its first group: after [url(https://] the class
    [[^)]+] stops before the first [)], so the group is the text up to
    there and has to end in [.woff2] after at least one other character. *)
Definition woff2_url_here (s : jsstring) : option jsstring :=
  let head := lit "url(https://" in
  if starts_with head s then
    let rest := skipn (List.length head) s in
    let body := takeWhile (fun c => negb (Ascii.eqb c ")")) rest in
    if (List.length body <? List.length rest)
       && ends_with (lit ".woff2") body
       && (List.length (lit ".woff2") <? List.length body)
    then Some (lit "https://" ++ body)
    else None
  else None.

(** [cssText.match(/url\((https:\/\/[^)]+\.woff2)\)/)?.[1]]: the first
    group of the leftmost match. *)
Fixpoint match_woff2_url (cssText : jsstring) : option jsstring :=
  match woff2_url_here cssText with
  | Some url => Some url
  | None =>
      match cssText with
      | [] => None
      | _ :: rest => match_woff2_url rest
      end
  end.

Definition empty_font : FontData := {| dataUri := []; format := [] |}.

(** [await fetch(url)] followed by the [if (!response.ok) throw ...]. *)
Definition fetch_ok (url what : jsstring) : Promise Body :=
  match fetch W url with
  | FetchError => Rejected NetworkFailure
  | Response ok statusText body =>
      if ok then Resolved body
      else Rejected (Error (what ++ statusText))
  end.

(** [await response.text()] and [await response.blob()] *)
Definition read_body (b : Body) : Promise jsstring :=
  match b with
  | BodyOk content => Resolved content
  | BodyError => Rejected BodyFailure
  end.

(** The promise the [try] block of [fetchAndEncodeFont] returns:
    [onloadend] resolves it, [onerror] rejects it. *)
Definition read_font (fontBlob : jsstring) : Promise FontData :=
  let r := read_as_data_url W fontBlob in
  new_Promise
    (fun ev =>
       match ev with
       | ev_loadend => Some (Resolved {| dataUri := reader_result r; format := lit "woff2" |})
       | ev_error => Some (Rejected ProgressEvent)
       | ev_load => None
       end)
    (reader_events r).

(** [fetchAndEncodeFont].  The [User-Agent] header of the first request is
    left out: the outcome of a request is the world's. *)
Definition fetchAndEncodeFont (fontUrl : jsstring) : Promise FontData :=
  try_catch
    (await (fetch_ok fontUrl (lit "Failed to fetch font CSS: ")) (fun cssResponse =>
     await (read_body cssResponse) (fun cssText =>
     match match_woff2_url cssText with
     | None => Resolved (Resolved empty_font)
     | Some fontFileUrl =>
         await (fetch_ok fontFileUrl (lit "Failed to fetch font file: ")) (fun fontFileResponse =>
         await (read_body fontFileResponse) (fun fontBlob =>
         Resolved (read_font fontBlob)))
     end)))
    (fun error => Resolved empty_font).

(** [TSHIRT_FONTS.find(f => f.id === font)?.name || 'Impact'] *)
Definition fontName_of (font : jsstring) : jsstring :=
  match find (fun f => string_eqb (font_id f) font) TSHIRT_FONTS with
  | Some f => if truthy (font_name f) then font_name f else lit "Impact"
  | None => lit "Impact"
  end.

(** The two halves of a text, as the [full_circle] and [split] layouts
    compute them (as [topText], [bottomText] and as [leftText],
    [rightText]):
    [words = text.split(/\s+/)], [midPoint = Math.ceil(words.length / 2)],
    [words.slice(0, midPoint).join(' ')] and [words.slice(midPoint).join(' ')]. *)
Definition split_halves (text : jsstring) : jsstring * jsstring :=
  let words := split_ws text in
  let midPoint := ceil_half (List.length words) in
  (join (lit " ") (slice words 0 midPoint),
   join (lit " ") (slice_from words midPoint)).

(** The text element on an arc, as the four arc layouts write it. *)
Definition arc_text (pathId pathD commonTextProps text : jsstring) : jsstring :=
  lit "<defs><path id=`" ++ pathId ++ lit "` d=`" ++ pathD ++ lit "` fill=`none`/></defs><text><textPath href=`#" ++ pathId ++ lit "` startOffset=`50%` text-anchor=`middle` " ++ commonTextProps ++ lit ">" ++ escapeXml text ++ lit "</textPath></text>".

(** [getTextElements] *)
Definition getTextElements (design : DesignOptions) (scaledLogo : Box) (center : Point)
  : jsstring :=
  let fontName := fontName_of (font design) in
  let textId := lit "text-element" in
  let textStyleAttributes := getTextStyleSvg (textStyle design) (textColor design) textId in
  let commonTextProps :=
    textStyleAttributes ++ lit " font-family=`'" ++ fontName ++ lit "', sans-serif` font-size=`50px`" in
  let text := text design in
  (match style design with
   | st_classic | st_lower_half_circle =>
       let radius := width scaledLogo / #2 + #30 in
       let pathId := lit "text-path-lower" in
       let pathD := lit "M " ++ $(px center - radius) ++ lit "," ++ $(py center + height scaledLogo / #2 + #20) ++ lit " A " ++ $radius ++ lit "," ++ $radius ++ lit " 0 0 1 " ++ $(px center + radius) ++ lit "," ++ $(py center + height scaledLogo / #2 + #20) in
       arc_text pathId pathD commonTextProps text
   | st_upper_half_circle =>
       let radius := width scaledLogo / #2 + #30 in
       let pathId := lit "text-path-upper" in
       let pathD := lit "M " ++ $(px center + radius) ++ lit "," ++ $(py center - height scaledLogo / #2 - #20) ++ lit " A " ++ $radius ++ lit "," ++ $radius ++ lit " 0 0 0 " ++ $(px center - radius) ++ lit "," ++ $(py center - height scaledLogo / #2 - #20) in
       arc_text pathId pathD commonTextProps text
   | st_upper_oval =>
       let rx := width scaledLogo / #2 + #80 in
       let ry := #60 in
       let pathId := lit "text-path-upper-oval" in
       let pathD := lit "M " ++ $(px center + rx) ++ lit "," ++ $(py center - height scaledLogo / #2 - #20) ++ lit " A " ++ $rx ++ lit "," ++ $ry ++ lit " 0 0 0 " ++ $(px center - rx) ++ lit "," ++ $(py center - height scaledLogo / #2 - #20) in
       arc_text pathId pathD commonTextProps text
   | st_lower_oval =>
       let rx := width scaledLogo / #2 + #80 in
       let ry := #60 in
       let pathId := lit "text-path-lower-oval" in
       let pathD := lit "M " ++ $(px center - rx) ++ lit "," ++ $(py center + height scaledLogo / #2 + #20) ++ lit " A " ++ $rx ++ lit "," ++ $ry ++ lit " 0 0 1 " ++ $(px center + rx) ++ lit "," ++ $(py center + height scaledLogo / #2 + #20) in
       arc_text pathId pathD commonTextProps text
   | st_full_circle =>
       let topText := fst (split_halves text) in
       let bottomText := snd (split_halves text) in
       let radius := Math_max (width scaledLogo) (height scaledLogo) / #2 + #50 in
       let pathTopId := lit "text-path-top" in
       let pathTopD := lit "M " ++ $(px center + radius) ++ lit "," ++ $(py center) ++ lit " A " ++ $radius ++ lit "," ++ $radius ++ lit " 0 0 0 " ++ $(px center - radius) ++ lit "," ++ $(py center) in
       let pathBottomId := lit "text-path-bottom" in
       let pathBottomD := lit "M " ++ $(px center - radius) ++ lit "," ++ $(py center) ++ lit " A " ++ $radius ++ lit "," ++ $radius ++ lit " 0 0 1 " ++ $(px center + radius) ++ lit "," ++ $(py center) in
       lit "<defs><path id=`" ++ pathTopId ++ lit "` d=`" ++ pathTopD ++ lit "`/><path id=`" ++ pathBottomId ++ lit "` d=`" ++ pathBottomD ++ lit "`/></defs>
                <text><textPath href=`#" ++ pathTopId ++ lit "` startOffset=`50%` text-anchor=`middle` " ++ commonTextProps ++ lit ">" ++ escapeXml topText ++ lit "</textPath></text>
                <text><textPath href=`#" ++ pathBottomId ++ lit "` startOffset=`50%` text-anchor=`middle` " ++ commonTextProps ++ lit ">" ++ escapeXml bottomText ++ lit "</textPath></text>"
   | st_split =>
       let leftText := fst (split_halves text) in
       let rightText := snd (split_halves text) in
       lit "<text x=`" ++ $(px center - width scaledLogo / #2 - #20) ++ lit "` y=`" ++ $(py center) ++ lit "` text-anchor=`end` dominant-baseline=`middle` " ++ commonTextProps ++ lit ">" ++ escapeXml leftText ++ lit "</text>
                <text x=`" ++ $(px center + width scaledLogo / #2 + #20) ++ lit "` y=`" ++ $(py center) ++ lit "` text-anchor=`start` dominant-baseline=`middle` " ++ commonTextProps ++ lit ">" ++ escapeXml rightText ++ lit "</text>"
   | st_stacked_text =>
       let words := split_ws text in
       join []
         (mapi (fun word i =>
            lit "<text x=`" ++ $(px center) ++ lit "` y=`" ++ $(py center + height scaledLogo / #2 + #30 + (num_of_nat i * #60)) ++ lit "` text-anchor=`middle` " ++ commonTextProps ++ lit ">" ++ escapeXml word ++ lit "</text>")
          words)
   | st_other _ =>
       lit "<text x=`" ++ $(px center) ++ lit "` y=`" ++ $(py center + height scaledLogo / #2 + #60) ++ lit "` text-anchor=`middle` " ++ commonTextProps ++ lit ">" ++ escapeXml text ++ lit "</text>"
   end)%num.

(** The canvas and the largest side a logo is drawn with. *)
Definition VIEWBOX_SIZE : number := num_of_Z 1000.
Definition maxLogoDim : number := num_of_Z 400.

Definition canvas_center : Point :=
  {| px := VIEWBOX_SIZE / #2; py := VIEWBOX_SIZE / #2 |}%num.

(** The scaling step, which the three composers repeat word for word:
    [ratio = Math.min(maxLogoDim / logoDims.width, maxLogoDim / logoDims.height, 1)]
    and [scaledLogo = { width: logoDims.width * ratio, height: logoDims.height * ratio }]. *)
Definition scale_ratio (logoDims : LogoDimensions) : number :=
  (Math_min (maxLogoDim / num_of_N (img_width logoDims))
            (maxLogoDim / num_of_N (img_height logoDims))
            #1)%num.

Definition scaleToFit (logoDims : LogoDimensions) : Box :=
  let ratio := scale_ratio logoDims in
  {| width := num_of_N (img_width logoDims) * ratio;
     height := num_of_N (img_height logoDims) * ratio |}%num.

(** [!logo] is false for a non-empty string only. *)
Definition logo_given (l : option jsstring) : bool :=
  match l with
  | Some url => truthy url
  | None => false
  end.

Definition logo_url (l : option jsstring) : jsstring :=
  match l with
  | Some url => url
  | None => []
  end.

(** The Google Fonts stylesheet of a font name. *)
Definition fontUrl_of (fontName : jsstring) : jsstring :=
  lit "https://fonts.googleapis.com/css2?family=" ++ replace_all_char " " (lit "+") fontName ++ lit ":wght@400;700&display=swap".

Definition import_style (fontUrl : jsstring) : jsstring :=
  lit "<style>@import url('" ++ replace_all_char "&" (lit "&amp;") fontUrl ++ lit "');</style>".

Definition empty_canvas : jsstring :=
  lit "<svg xmlns=`http://www.w3.org/2000/svg` width=`1000` height=`1000`></svg>".

(** The [@font-face] style block of an embedded font. *)
Definition font_face_style (fontName : jsstring) (fontData : FontData) : jsstring :=
  lit "
            <style>
                @font-face {
                    font-family: '" ++ fontName ++ lit "';
                    src: url(" ++ dataUri fontData ++ lit ") format('" ++ format fontData ++ lit "');
                }
            </style>".

(** The document [generateTextOnlySvg] returns. *)
Definition text_only_document (fontStyleDef textStyleDefs textElements : jsstring)
  : jsstring :=
  lit "
<svg width=`" ++ $VIEWBOX_SIZE ++ lit "` height=`" ++ $VIEWBOX_SIZE ++ lit "` viewBox=`0 0 " ++ $VIEWBOX_SIZE ++ lit " " ++ $VIEWBOX_SIZE ++ lit "` xmlns=`http://www.w3.org/2000/svg`>
  <defs>
    " ++ fontStyleDef ++ lit "
    " ++ textStyleDefs ++ lit "
  </defs>
  " ++ textElements ++ lit "
</svg>".

(** [generateTextOnlySvg] *)
Definition generateTextOnlySvg (design : DesignOptions) (embedFont : bool)
  : Promise jsstring :=
  if negb (logo_given (logo design)) then Rejected (Error (lit "Logo is required for layout."))
  else if negb (truthy (trim (text design))) then Resolved empty_canvas
  else
    await (getLogoDimensions (logo_url (logo design))) (fun logoDims =>
    let center := canvas_center in
    let scaledLogo := scaleToFit logoDims in
    let fontName := fontName_of (font design) in
    let fontUrl := fontUrl_of fontName in
    await
      (if embedFont then
         await (fetchAndEncodeFont fontUrl) (fun fontData =>
         if truthy (dataUri fontData) then Resolved (font_face_style fontName fontData)
         else Resolved (import_style fontUrl))
       else Resolved (import_style fontUrl))
      (fun fontStyleDef =>
    let textId := lit "text-element" in
    let textStyleDefs :=
      getTextStyleDefs (textStyle design) (textColor design)
        (gradientStartColor design) (gradientEndColor design) textId in
    let textElements := getTextElements design scaledLogo center in
    Resolved (text_only_document fontStyleDef textStyleDefs textElements))).

(** The document [generateCombinedSvg] returns. *)
Definition combined_document (fontStyleDef textStyleDefs logo : jsstring)
  (logoX logoY : number) (scaledLogo : Box) (textElements : jsstring) : jsstring :=
  lit "
<svg width=`" ++ $VIEWBOX_SIZE ++ lit "` height=`" ++ $VIEWBOX_SIZE ++ lit "` viewBox=`0 0 " ++ $VIEWBOX_SIZE ++ lit " " ++ $VIEWBOX_SIZE ++ lit "` xmlns=`http://www.w3.org/2000/svg` xmlns:xlink=`http://www.w3.org/1999/xlink`>
  <defs>
    " ++ fontStyleDef ++ lit "
    " ++ textStyleDefs ++ lit "
  </defs>
  <image 
    href=`" ++ logo ++ lit "` 
    x=`" ++ $logoX ++ lit "` y=`" ++ $logoY ++ lit "` 
    width=`" ++ $(width scaledLogo) ++ lit "` height=`" ++ $(height scaledLogo) ++ lit "` 
    preserveAspectRatio=`xMidYMid meet`
  />
  " ++ textElements ++ lit "
</svg>".

(** [generateCombinedSvg] *)
Definition generateCombinedSvg (design : DesignOptions) : Promise jsstring :=
  if negb (logo_given (logo design))
  then Rejected (Error (lit "Logo is required to generate the design SVG."))
  else
    let logo := logo_url (logo design) in
    await (getLogoDimensions logo) (fun logoDims =>
    let center := canvas_center in
    let scaledLogo := scaleToFit logoDims in
    let logoX := (px center - width scaledLogo / #2)%num in
    let logoY := (py center - height scaledLogo / #2)%num in
    let fontName := fontName_of (font design) in
    let fontUrl := replace_all_char "&" (lit "&amp;") (fontUrl_of fontName) in
    let fontStyleDef := lit "<style>@import url('" ++ fontUrl ++ lit "');</style>" in
    let textId := lit "design-element" in
    let textStyleDefs :=
      getTextStyleDefs (textStyle design) (textColor design)
        (gradientStartColor design) (gradientEndColor design) textId in
    let textElements :=
      if truthy (trim (text design)) then getTextElements design scaledLogo center else [] in
    Resolved (combined_document fontStyleDef textStyleDefs logo logoX logoY scaledLogo
                textElements)).

(** [textSvg.substring(textSvg.indexOf('<defs>')).replace('</svg>', '')] *)
Definition strip_envelope (textSvg : jsstring) : jsstring :=
  replace_first (lit "</svg>") [] (substring textSvg (indexOf (lit "<defs>") textSvg)).

(** The document [generateEngravingSvg] returns. *)
Definition engraving_document (textSvgContent logo : jsstring)
  (logoX logoY : number) (scaledLogo : Box) : jsstring :=
  lit "
<svg width=`" ++ $VIEWBOX_SIZE ++ lit "` height=`" ++ $VIEWBOX_SIZE ++ lit "` viewBox=`0 0 " ++ $VIEWBOX_SIZE ++ lit " " ++ $VIEWBOX_SIZE ++ lit "` xmlns=`http://www.w3.org/2000/svg` xmlns:xlink=`http://www.w3.org/1999/xlink`>
  <defs>
    <filter id=`monochrome`>
      <feColorMatrix type=`saturate` values=`0` />
    </filter>
  </defs>
  " ++ textSvgContent ++ lit "
  <image 
    href=`" ++ logo ++ lit "` 
    x=`" ++ $logoX ++ lit "` y=`" ++ $logoY ++ lit "` 
    width=`" ++ $(width scaledLogo) ++ lit "` height=`" ++ $(height scaledLogo) ++ lit "` 
    preserveAspectRatio=`xMidYMid meet`
    filter=`url(#monochrome)` 
  />
</svg>".

(** [generateEngravingSvg] *)
Definition generateEngravingSvg (design : DesignOptions) : Promise jsstring :=
  if negb (logo_given (logo design)) then Rejected (Error (lit "Logo is required for layout."))
  else
    let logo := logo_url (logo design) in
    await (getLogoDimensions logo) (fun logoDims =>
    let center := canvas_center in
    let scaledLogo := scaleToFit logoDims in
    await (generateTextOnlySvg (with_text_style design (lit "#000000") ts_none) false)
      (fun textSvg =>
    let textSvgContent := strip_envelope textSvg in
    let logoX := (px center - width scaledLogo / #2)%num in
    let logoY := (py center - height scaledLogo / #2)%num in
    Resolved (engraving_document textSvgContent logo logoX logoY scaledLogo))).

End Service.
End SvgService.
Export SvgService.

(* ================================================================== *)
(** * Reading markup back

    The vocabulary the properties of the composed documents are stated
    in: the tags, attributes and character data of a piece of markup, the
    ids it defines and refers to, the decoding of character references,
    and the number of occurrences of a substring. *)

Module Markup.

Inductive token : Type :=
| TOpen (tag : jsstring)                  (* a start tag [<tag ...] *)
| TAttr (tag name value : jsstring)       (* [name="value"] inside a start tag *)
| TClose (tag : jsstring)                 (* an end tag [</tag>] *)
| TText (after content : jsstring).       (* character data: the start tag it
                                             follows ([[]] after an end tag or a
                                             self-closed tag) and its text *)

(** Where the reader is: in character data, in the name of a start tag
    (right after [<]), in the name of an end tag (after [</]), inside a
    start tag reading an attribute name, or inside a quoted attribute
    value. *)
Inductive mode : Type :=
| Content (after acc : jsstring)
| TagName (acc : jsstring)
| CloseName (acc : jsstring)
| InTag (tag attr : jsstring)
| InValue (tag attr val : jsstring).

Definition step (m : mode) (c : ascii) : mode * list token :=
  match m with
  | Content after acc =>
      if Ascii.eqb c "<" then (TagName [], [TText after acc])
      else (Content after (acc ++ [c]), [])
  | TagName acc =>
      if Ascii.eqb c "/" then
        match acc with
        | [] => (CloseName [], [])
        | _ :: _ => (InTag [] [], [TOpen acc])
        end
      else if Ascii.eqb c ">" then (Content acc [], [TOpen acc])
      else if is_space c then (InTag acc [], [TOpen acc])
      else (TagName (acc ++ [c]), [])
  | CloseName acc =>
      if Ascii.eqb c ">" then (Content [] [], [TClose acc])
      else (CloseName (acc ++ [c]), [])
  | InTag tag attr =>
      if Ascii.eqb c ">" then (Content tag [], [])
      else if Ascii.eqb c dq then (InValue tag attr [], [])
      else if Ascii.eqb c "=" then (InTag tag attr, [])
      else if Ascii.eqb c "/" then (InTag [] [], [])
      else if is_space c then (InTag tag [], [])
      else (InTag tag (attr ++ [c]), [])
  | InValue tag attr val =>
      if Ascii.eqb c dq then (InTag tag [], [TAttr tag attr val])
      else (InValue tag attr (val ++ [c]), [])
  end.

Fixpoint tokens_from (m : mode) (s : jsstring) : list token :=
  match s with
  | [] => []
  | c :: s' => snd (step m c) ++ tokens_from (fst (step m c)) s'
  end.

(** The mode the reader is in after [s]. *)
Definition final (m : mode) (s : jsstring) : mode :=
  fold_left (fun m c => fst (step m c)) s m.

Definition tokens (s : jsstring) : list token := tokens_from (Content [] []) s.

(** The elements of a document, by the names of its start tags. *)
Definition elements (s : jsstring) : list jsstring :=
  flat_map (fun t => match t with TOpen tag => [tag] | _ => [] end) (tokens s).

Definition end_tags (s : jsstring) : list jsstring :=
  flat_map (fun t => match t with TClose tag => [tag] | _ => [] end) (tokens s).

(** The ids a token defines: the value of an [id] attribute. *)
Definition id_of (t : token) : list jsstring :=
  match t with
  | TAttr _ name value => if string_eqb name (lit "id") then [value] else []
  | _ => []
  end.

(** [url(#name)] as an attribute value refers to [name]. *)
Definition url_ref (value : jsstring) : option jsstring :=
  if starts_with (lit "url(#") value && ends_with (lit ")") value
  then Some (removelast (skipn 5 value))
  else None.

(** The ids a token refers to: [url(#name)] in any attribute, and
    [href="#name"]. *)
Definition ref_of (t : token) : list jsstring :=
  match t with
  | TAttr _ name value =>
      match url_ref value with
      | Some r => [r]
      | None =>
          if string_eqb name (lit "href") && starts_with (lit "#") value
          then [skipn 1 value] else []
      end
  | _ => []
  end.

Definition ids (s : jsstring) : list jsstring := flat_map id_of (tokens s).
Definition refs (s : jsstring) : list jsstring := flat_map ref_of (tokens s).

(** The attributes of the elements named [tag]. *)
Definition attrs_of (tag : jsstring) (s : jsstring) : list (jsstring * jsstring) :=
  flat_map
    (fun t => match t with
              | TAttr tg name value => if string_eqb tg tag then [(name, value)] else []
              | _ => []
              end)
    (tokens s).

(** The character data that directly follows a start tag [<tag ...>]. *)
Definition text_of (tag : jsstring) (s : jsstring) : list jsstring :=
  flat_map
    (fun t => match t with
              | TText after content => if string_eqb after tag then [content] else []
              | _ => []
              end)
    (tokens s).

(** All the character data that is not white space only. *)
Definition text_nodes (s : jsstring) : list jsstring :=
  flat_map
    (fun t => match t with
              | TText _ content => if truthy (trim content) then [content] else []
              | _ => []
              end)
    (tokens s).

(** Decoding of the five predefined character references, as an XML
    parser does on character data and attribute values.  [skip] counts the
    characters of a reference still to be passed over. *)
Fixpoint unescape_from (skip : nat) (s : jsstring) : jsstring :=
  match s with
  | [] => []
  | c :: rest =>
      match skip with
      | S k => unescape_from k rest
      | O =>
          if starts_with (lit "&lt;") s then "<"%char :: unescape_from 3 rest
          else if starts_with (lit "&gt;") s then ">"%char :: unescape_from 3 rest
          else if starts_with (lit "&amp;") s then "&"%char :: unescape_from 4 rest
          else if starts_with (lit "&apos;") s then "'"%char :: unescape_from 5 rest
          else if starts_with (lit "&quot;") s then dq :: unescape_from 5 rest
          else c :: unescape_from 0 rest
      end
  end.

Definition unescapeXml (s : jsstring) : jsstring := unescape_from 0 s.

(** The number of positions of [s] where [p] occurs. *)
Fixpoint count_occ_sub (p s : jsstring) : nat :=
  match s with
  | [] => 0
  | _ :: s' => (if starts_with p s then 1 else 0) + count_occ_sub p s'
  end.

(** ** The skeleton of a document

    What the properties below look at: the start and end tags, the
    attributes that define an id, refer to one or paint an element, and
    the character data of the [text] and [textPath] elements.  Positions,
    sizes, path data and fonts are left out. *)

Definition relevant_names : list jsstring :=
  [lit "id"; lit "href"; lit "fill"; lit "filter"; lit "stroke";
   lit "stroke-width"; lit "stroke-linejoin"; lit "type"; lit "values"].

Definition relevant (t : token) : bool :=
  match t with
  | TOpen _ | TClose _ => true
  | TAttr _ name _ => existsb (string_eqb name) relevant_names
  | TText after _ => string_eqb after (lit "text") || string_eqb after (lit "textPath")
  end.

Definition skeleton_from (m : mode) (s : jsstring) : list token :=
  filter relevant (tokens_from m s).

Definition skeleton (s : jsstring) : list token := filter relevant (tokens s).

(** A string without the character [c]. *)
Definition lacks (c : ascii) (s : jsstring) : Prop :=
  forallb (fun x => negb (Ascii.eqb x c)) s = true.

(** A string that can stand inside a quoted attribute value without ending
    it and without being a reference: no double quote, and not of the form
    [url(#...)]. *)
Definition attr_text (v : jsstring) : Prop :=
  lacks dq v /\ url_ref v = None.

(** ** The structure the composers are meant to write *)

Definition attr (tag : jsstring) (name : string) (value : jsstring) : token :=
  TAttr tag (lit name) value.
Arguments attr tag name%_string value.

(** The paint attributes of a text element, by visual style. *)
Definition style_attrs (tag : jsstring) (ts : TextStyle) (color : jsstring) : list token :=
  match ts with
  | ts_outline => [attr tag "stroke" (lit "black"); attr tag "stroke-width" (lit "2"); attr tag "fill" color]
  | ts_shadow => [attr tag "fill" color; attr tag "filter" (lit "url(#shadow-text-element)")]
  | ts_glow => [attr tag "fill" (lit "white"); attr tag "filter" (lit "url(#glow-text-element)")]
  | ts_neon => [attr tag "fill" color; attr tag "filter" (lit "url(#neon-text-element)")]
  | ts_3d => [attr tag "fill" color; attr tag "filter" (lit "url(#three-d-text-element)")]
  | ts_metallic => [attr tag "fill" (lit "url(#metallic-text-element)")]
  | ts_chrome => [attr tag "fill" (lit "url(#chrome-text-element)"); attr tag "stroke" (lit "#4B5563");
                  attr tag "stroke-width" (lit "0.5")]
  | ts_gradient => [attr tag "fill" (lit "url(#gradient-text-element)")]
  | ts_varsity => [attr tag "stroke" (lit "black"); attr tag "stroke-width" (lit "4");
                   attr tag "stroke-linejoin" (lit "round"); attr tag "fill" color]
  | ts_none => [attr tag "fill" color]
  end.

(** The filter or gradient a visual style defines, under the id
    [<style>-<ns>]. *)
Definition gradient_def (name ns : jsstring) (stops : nat) : list token :=
  [TOpen (lit "linearGradient"); TAttr (lit "linearGradient") (lit "id") (name ++ ns)]
    ++ repeat (TOpen (lit "stop")) stops ++ [TClose (lit "linearGradient")].

Definition style_defs (ts : TextStyle) (ns : jsstring) : list token :=
  match ts with
  | ts_shadow =>
      [TOpen (lit "filter"); TAttr (lit "filter") (lit "id") (lit "shadow-" ++ ns);
       TOpen (lit "feDropShadow"); TClose (lit "filter")]
  | ts_glow =>
      [TOpen (lit "filter"); TAttr (lit "filter") (lit "id") (lit "glow-" ++ ns);
       TOpen (lit "feGaussianBlur"); TOpen (lit "feMerge"); TOpen (lit "feMergeNode");
       TOpen (lit "feMergeNode"); TClose (lit "feMerge"); TClose (lit "filter")]
  | ts_neon =>
      [TOpen (lit "filter"); TAttr (lit "filter") (lit "id") (lit "neon-" ++ ns);
       TOpen (lit "feFlood"); TOpen (lit "feComposite"); TOpen (lit "feGaussianBlur");
       TOpen (lit "feMerge"); TOpen (lit "feMergeNode"); TOpen (lit "feMergeNode");
       TClose (lit "feMerge"); TClose (lit "filter")]
  | ts_3d =>
      [TOpen (lit "filter"); TAttr (lit "filter") (lit "id") (lit "three-d-" ++ ns);
       TOpen (lit "feDropShadow"); TClose (lit "filter")]
  | ts_metallic => gradient_def (lit "metallic-") ns 3
  | ts_chrome => gradient_def (lit "chrome-") ns 5
  | ts_gradient => gradient_def (lit "gradient-") ns 2
  | ts_none | ts_outline | ts_varsity => []
  end.

(** One [text] element with its character data. *)
Definition text_element (ts : TextStyle) (color content : jsstring) : list token :=
  [TOpen (lit "text")] ++ style_attrs (lit "text") ts color
    ++ [TText (lit "text") content; TClose (lit "text")].

(** One [text] element whose [textPath] follows the path [pathId]. *)
Definition text_on_path (pathId : jsstring) (ts : TextStyle) (color content : jsstring)
  : list token :=
  [TOpen (lit "text"); TText (lit "text") []; TOpen (lit "textPath");
   TAttr (lit "textPath") (lit "href") (lit "#" ++ pathId)]
    ++ style_attrs (lit "textPath") ts color
    ++ [TText (lit "textPath") content; TClose (lit "textPath"); TClose (lit "text")].

(** A path definition and the text on it, as the arc layouts write them. *)
Definition arc (pathId : jsstring) (ts : TextStyle) (color content : jsstring)
  : list token :=
  [TOpen (lit "defs"); TOpen (lit "path"); TAttr (lit "path") (lit "id") pathId;
   TAttr (lit "path") (lit "fill") (lit "none"); TClose (lit "defs")]
    ++ text_on_path pathId ts color content.

(** The text elements of a layout: the text itself is escaped, whole, in
    two halves or word by word. *)
Definition layout (st : DesignStyle) (ts : TextStyle) (color text : jsstring)
  : list token :=
  match st with
  | st_classic | st_lower_half_circle =>
      arc (lit "text-path-lower") ts color (escapeXml text)
  | st_upper_half_circle => arc (lit "text-path-upper") ts color (escapeXml text)
  | st_upper_oval => arc (lit "text-path-upper-oval") ts color (escapeXml text)
  | st_lower_oval => arc (lit "text-path-lower-oval") ts color (escapeXml text)
  | st_full_circle =>
      [TOpen (lit "defs");
       TOpen (lit "path"); TAttr (lit "path") (lit "id") (lit "text-path-top");
       TOpen (lit "path"); TAttr (lit "path") (lit "id") (lit "text-path-bottom");
       TClose (lit "defs")]
        ++ text_on_path (lit "text-path-top") ts color
             (escapeXml (fst (split_halves text)))
        ++ text_on_path (lit "text-path-bottom") ts color
             (escapeXml (snd (split_halves text)))
  | st_split =>
      text_element ts color (escapeXml (fst (split_halves text)))
        ++ text_element ts color (escapeXml (snd (split_halves text)))
  | st_stacked_text =>
      flat_map (fun word => text_element ts color (escapeXml word)) (split_ws text)
  | st_other _ => text_element ts color (escapeXml text)
  end.

End Markup.
Export Markup.

(* ================================================================== *)
(** * Vocabulary of the arithmetic properties *)

(** What the scaling properties ask of the rounding: it is monotone, it
    leaves the integers up to 2^53 in magnitude as they are, and its
    relative error is at most the unit roundoff [u], with [0 <= u < 1]
    ([u = 2^-53] in binary64, [u = 0] in exact arithmetic). *)
Definition faithful_rounding (rnd : Qc -> Qc) (u : Qc) : Prop :=
  (0 <= u /\ u < 1)%Qc
  /\ (forall a b : Qc, a <= b -> rnd a <= rnd b)%Qc
  /\ (forall z : Z, (Z.abs z <= 2 ^ 53)%Z -> rnd (Qc_of_Z z) = Qc_of_Z z)
  /\ (forall a : Qc, Qcabs (rnd a - a) <= u * Qcabs a)%Qc.

(** What binary64 rounding does, on the rationals: [nearest R m] says that
    the integer [R] is within one half of [m]. *)
Definition nearest (R : Z) (m : Q) : Prop :=
  (- (1 # 2) <= inject_Z R - m)%Q /\ (inject_Z R - m <= 1 # 2)%Q.

(** [x] lies in the binade of exponent [E], and [y] is [x] rounded to 53
    bits there. *)
Definition in_binade (x : Q) (E : Z) : Prop :=
  (2 ^ E <= x)%Q /\ (x < 2 ^ (E + 1))%Q.

Definition rounded (x : Q) (E : Z) (y : Q) : Prop :=
  exists R : Z,
    nearest R (x * 2 ^ (- (E - 52))) /\ (y == inject_Z R * 2 ^ (E - 52))%Q.

(** The unit roundoff of binary64. *)
Definition u53 : Q := 1 # 9007199254740992.

(** [y] is the binary64 rounding of [x]: zero is kept, and a number of
    either sign is rounded in its binade. *)
Definition near53 (x y : Q) : Prop :=
  ((x == 0)%Q /\ (y == 0)%Q)
  \/ ((0 < x)%Q /\ exists E : Z, in_binade x E /\ rounded x E y)
  \/ ((x < 0)%Q /\ exists E : Z, in_binade (- x) E /\ rounded (- x) E (- y)).

(** The side of a box that belongs to the larger side of a [w] x [h]
    logo. *)
Definition larger (b : Box) (w h : N) : number :=
  if (h <=? w)%N then width b else height b.

(** A number that is at least 1: positive infinity counts. *)
Definition at_least_one (a : number) : Prop :=
  match a with
  | Fin q => (1 <= q)%Qc
  | Inf negative => negative = false
  | NaN => False
  end.

Definition num_eqb (a b : number) : bool :=
  match a, b with
  | Fin p, Fin q => Qc_eqb p q
  | Inf s, Inf t => Bool.eqb s t
  | NaN, NaN => true
  | _, _ => false
  end.

Definition is_resolved {A} (p : Promise A) : bool :=
  match p with Resolved _ => true | _ => false end.

(** The same scaling of a 530 x 1 logo with the binary64 numbers of the
    kernel, as significand and exponent. *)
Module Binary64.
Import Floats.
Definition ratio_530 : float := 400 / 530.
Definition width_530 : float := 530 * ratio_530.
Definition significand_exponent (f : float) : option (positive * Z) :=
  match Prim2SF f with
  | S754_finite false m e => Some (m, e)
  | _ => None
  end.
End Binary64.

(* ================================================================== *)
(** * Vocabulary of the markup properties *)

(** A word of a text: not empty and without white space; a separator: a
    non-empty run of white space. *)
Definition is_word (w : jsstring) : Prop :=
  w <> [] /\ forallb (fun c => negb (is_space c)) w = true.

Definition is_separator (s : jsstring) : Prop :=
  s <> [] /\ forallb is_space s = true.

(** A first word followed by separator-word pairs, written out. *)
Definition words_text (w0 : jsstring) (rest : list (jsstring * jsstring)) : jsstring :=
  w0 ++ flat_map (fun sw => fst sw ++ snd sw) rest.

(** The characters of a printed integer. *)
Definition num_char (c : ascii) : bool :=
  (Ascii.eqb c "-") || ((48 <=? nat_of_ascii c)%nat && (nat_of_ascii c <=? 57)%nat).

(** The part of a string before the first [c], and the part after it. *)
Definition before (c : ascii) (s : jsstring) : jsstring :=
  takeWhile (fun x => negb (Ascii.eqb x c)) s.

Fixpoint beyond (c : ascii) (s : jsstring) : option jsstring :=
  match s with
  | [] => None
  | x :: s' => if Ascii.eqb x c then Some s' else beyond c s'
  end.

(** [reads m s m' out]: read from mode [m], the string [s] leaves the
    reader in mode [m'] and gives the tokens [out]. *)
Definition reads (m : mode) (s : jsstring) (m' : mode) (out : list token) : Prop :=
  final m s = m' /\ tokens_from m s = out.

(** The pieces of its text a layout writes, each in an element of its
    own: the whole text, its two halves, or its words; and the element
    that holds them. *)
Definition pieces (st : DesignStyle) (text : jsstring) : list jsstring :=
  match st with
  | st_full_circle | st_split => [fst (split_halves text); snd (split_halves text)]
  | st_stacked_text => split_ws text
  | _ => [text]
  end.

Definition text_tag (st : DesignStyle) : jsstring :=
  match st with
  | st_split | st_stacked_text | st_other _ => lit "text"
  | _ => lit "textPath"
  end.

(** The four characters [escapeXml] leaves no trace of; the ampersand
    stays, as the first character of every replacement. *)
Definition markup_free (s : jsstring) : Prop :=
  lacks "<" s /\ lacks ">" s /\ lacks "'" s /\ lacks dq s.

(** A tag whose character data the skeleton leaves out. *)
Definition plain_tag (t : jsstring) : Prop :=
  string_eqb t (lit "text") || string_eqb t (lit "textPath") = false.

(** [writes s sk]: wherever [s] stands in character data outside the
    [text] and [textPath] elements, it is read as whole tags and
    attributes, the reader is in such character data again after it, and
    its skeleton is [sk]. *)
Definition writes (s : jsstring) (sk : list token) : Prop :=
  forall t acc, plain_tag t ->
  exists t' acc' out,
    reads (Content t acc) s (Content t' acc') out
    /\ plain_tag t'
    /\ filter relevant out = sk.

(** The skeletons of the three documents. *)
Definition text_only_skeleton (st : DesignStyle) (ts : TextStyle) (color text : jsstring)
  : list token :=
  [TOpen (lit "svg"); TOpen (lit "defs"); TOpen (lit "style"); TClose (lit "style")]
    ++ style_defs ts (lit "text-element")
    ++ [TClose (lit "defs")]
    ++ layout st ts color text
    ++ [TClose (lit "svg")].

Definition combined_skeleton (st : DesignStyle) (ts : TextStyle)
  (color text logo : jsstring) : list token :=
  [TOpen (lit "svg"); TOpen (lit "defs"); TOpen (lit "style"); TClose (lit "style")]
    ++ style_defs ts (lit "design-element")
    ++ [TClose (lit "defs"); TOpen (lit "image"); attr (lit "image") "href" logo]
    ++ (if truthy (trim text) then layout st ts color text else [])
    ++ [TClose (lit "svg")].

Definition engraving_skeleton (content : list token) (logo : jsstring) : list token :=
  [TOpen (lit "svg"); TOpen (lit "defs");
   TOpen (lit "filter"); attr (lit "filter") "id" (lit "monochrome");
   TOpen (lit "feColorMatrix"); attr (lit "feColorMatrix") "type" (lit "saturate");
   attr (lit "feColorMatrix") "values" (lit "0");
   TClose (lit "filter"); TClose (lit "defs")]
    ++ content
    ++ [TOpen (lit "image"); attr (lit "image") "href" logo;
        attr (lit "image") "filter" (lit "url(#monochrome)"); TClose (lit "svg")].

(** [free_of p s]: no occurrence of [p] starts inside [s], whatever
    follows [s]; the first occurrence of [p] in [s ++ r] is then the first
    one in [r]. *)
Definition free_of (p s : jsstring) : Prop :=
  forall r, replace_first p [] (s ++ r) = s ++ replace_first p [] r.

(** The check of [free_of] for a given string: at no position of [s]
    does [p] start, and no end of [s] is a beginning of [p]. *)
Fixpoint no_start (p s : jsstring) : bool :=
  match s with
  | [] => true
  | _ :: s' => negb (starts_with p s) && negb (starts_with s p) && no_start p s'
  end.

(** The paint attributes of the elements named [tag], among the tokens
    [sk]. *)
Definition paint_names : list jsstring :=
  [lit "fill"; lit "filter"; lit "stroke"; lit "stroke-width"; lit "stroke-linejoin"].

Definition paint_of (tag : jsstring) (sk : list token) : list (jsstring * jsstring) :=
  flat_map
    (fun t => match t with
              | TAttr tg name value =>
                  if string_eqb tg tag && existsb (string_eqb name) paint_names
                  then [(name, value)] else []
              | _ => []
              end)
    sk.

(** What the engraving shows of a text: the font style block and the
    layout in black, without visual style. *)
Definition engraved_text (st : DesignStyle) (text : jsstring) : list token :=
  [TOpen (lit "defs"); TOpen (lit "style"); TClose (lit "style"); TClose (lit "defs")]
    ++ layout st ts_none (lit "#000000") text.

(** The ids a text element refers to, in the attributes the skeleton
    keeps ([href], [fill], [filter], [stroke]). *)
Definition text_ref_of (t : token) : list jsstring :=
  match t with
  | TAttr tag _ _ =>
      if string_eqb tag (lit "text") || string_eqb tag (lit "textPath")
      then ref_of t else []
  | _ => []
  end.

Definition text_refs (s : jsstring) : list jsstring :=
  flat_map text_ref_of (skeleton s).

(** The ids of the paths a layout defines ([pathId], [pathTopId] and
    [pathBottomId] in [getTextElements]). *)
Definition path_ids (st : DesignStyle) : list jsstring :=
  match st with
  | st_classic | st_lower_half_circle => [lit "text-path-lower"]
  | st_upper_half_circle => [lit "text-path-upper"]
  | st_upper_oval => [lit "text-path-upper-oval"]
  | st_lower_oval => [lit "text-path-lower-oval"]
  | st_full_circle => [lit "text-path-top"; lit "text-path-bottom"]
  | _ => []
  end.

(** The ids of the filter or gradient a visual style defines under the
    name space [ns]. *)
Definition style_ids (ts : TextStyle) (ns : jsstring) : list jsstring :=
  flat_map id_of (style_defs ts ns).

(** The names of the start tags and of the end tags among some tokens. *)
Definition opens (sk : list token) : list jsstring :=
  flat_map (fun t => match t with TOpen tag => [tag] | _ => [] end) sk.

Definition closes (sk : list token) : list jsstring :=
  flat_map (fun t => match t with TClose tag => [tag] | _ => [] end) sk.

(** The occurrences of the name [tag] in a list of names. *)
Definition named (tag : jsstring) (names : list jsstring) : list jsstring :=
  filter (string_eqb tag) names.

(** The paint attributes of a text element for a visual style whose
    filter or gradient is defined under the name space [ns]. *)
Definition style_attrs_in (ns : jsstring) (tag : jsstring) (ts : TextStyle)
  (color : jsstring) : list token :=
  let ref name := lit "url(#" ++ (name ++ ns) ++ lit ")" in
  match ts with
  | ts_outline => [attr tag "stroke" (lit "black"); attr tag "stroke-width" (lit "2");
                   attr tag "fill" color]
  | ts_shadow => [attr tag "fill" color; attr tag "filter" (ref (lit "shadow-"))]
  | ts_glow => [attr tag "fill" (lit "white"); attr tag "filter" (ref (lit "glow-"))]
  | ts_neon => [attr tag "fill" color; attr tag "filter" (ref (lit "neon-"))]
  | ts_3d => [attr tag "fill" color; attr tag "filter" (ref (lit "three-d-"))]
  | ts_metallic => [attr tag "fill" (ref (lit "metallic-"))]
  | ts_chrome => [attr tag "fill" (ref (lit "chrome-")); attr tag "stroke" (lit "#4B5563");
                  attr tag "stroke-width" (lit "0.5")]
  | ts_gradient => [attr tag "fill" (ref (lit "gradient-"))]
  | ts_varsity => [attr tag "stroke" (lit "black"); attr tag "stroke-width" (lit "4");
                   attr tag "stroke-linejoin" (lit "round"); attr tag "fill" color]
  | ts_none => [attr tag "fill" color]
  end.

(* ================================================================== *)
(** * The PNG of the text design ([generateTextOnlyPng])

    The canvas side of the browser, and the object URLs that are live:
    [URL.createObjectURL] adds one, [URL.revokeObjectURL] takes it away. *)

Module PngService.

Record Canvas : Type := {
  (** [URL.createObjectURL(blob)] for a blob with this content *)
  createObjectURL : jsstring -> jsstring;
  (** [img.src = url] for the object URL of this document: [onload]
      ([true]) or [onerror] *)
  load_svg : jsstring -> bool;
  (** [canvas.getContext('2d')] is not [null] *)
  has_context : bool;
  (** [canvas.toDataURL('image/png')] once the image of this document is
      drawn over a canvas of this width and height *)
  toDataURL : jsstring -> N -> N -> jsstring
}.

Definition Urls : Type := list jsstring.

Definition revokeObjectURL (url : jsstring) (live : Urls) : Urls :=
  filter (fun u => negb (string_eqb u url)) live.

Inductive ImageEvent : Type := img_onload | img_onerror.

Section Png.

Variables (rnd : Qc -> Qc) (frac : Qc -> jsstring) (fonts : list Font) (W : World).
Variable C : Canvas.

(** The handlers the executor installs on the image: what each settles
    the promise with, and the live URLs it leaves. *)
Definition image_handler (svgString url : jsstring) (ev : ImageEvent) (live : Urls)
  : Promise jsstring * Urls :=
  match ev with
  | img_onload =>
      let scale := 2%N in
      let width := (1000 * scale)%N in
      let height := (1000 * scale)%N in
      if has_context C then
        (Resolved (toDataURL C svgString width height), revokeObjectURL url live)
      else
        (Rejected (Error (lit "Could not get canvas context for PNG generation.")),
         revokeObjectURL url live)
  | img_onerror =>
      (Rejected (Error (lit "Failed to load SVG image for PNG conversion. It may contain unsupported features.")),
       revokeObjectURL url live)
  end.

(** [generateTextOnlyPng]: the promise it returns and the object URLs
    that are live afterwards. *)
Definition generateTextOnlyPng (design : DesignOptions) (live : Urls)
  : Promise jsstring * Urls :=
  match generateTextOnlySvg rnd frac fonts W design true with
  | Resolved svgString =>
      let url := createObjectURL C svgString in
      let ev := if load_svg C svgString then img_onload else img_onerror in
      image_handler svgString url ev (url :: live)
  | Rejected e => (Rejected e, live)
  | Pending => (Pending, live)
  end.

End Png.
End PngService.
Export PngService.

(* ================================================================== *)
(** * The download handlers of [App.tsx]

    What a handler does with the design it is run on: it sets the error
    message, or it downloads a file, or it waits for a promise that never
    settles. *)

Module App.

(** The address handed to [downloadFile]: the object URL of a blob with
    this content, or a data URL. *)
Inductive Href : Type :=
| BlobUrl (content : jsstring)
| DataUrl (url : jsstring).

Inductive Outcome : Type :=
| SetError (message : option jsstring)      (* [setError(message)]; [None] is [undefined] *)
| Download (href : Href) (filename : jsstring)
| Waiting.

Section Handlers.

Variables (rnd : Qc -> Qc) (frac : Qc -> jsstring) (fonts : list Font) (W : World).
Variable C : Canvas.

(** [t(key)], the message of a key in the language of the user. *)
Variable t : jsstring -> jsstring.

(** [e.message] for what the browser itself throws. *)
Variable native_message : Thrown -> option jsstring.

Definition message_of (e : Thrown) : option jsstring :=
  match e with
  | Error message => Some message
  | _ => native_message e
  end.

(** [try { const x = await p; ... downloadFile(...) } catch (e) { setError(e.message) }] *)
Definition download_or_report {A} (p : Promise A) (href : A -> Href) (filename : jsstring)
  : Outcome :=
  match p with
  | Resolved x => Download (href x) filename
  | Rejected e => SetError (message_of e)
  | Pending => Waiting
  end.

(** [onDownloadLogoPng] *)
Definition onDownloadLogoPng (design : DesignOptions) : Outcome :=
  if negb (logo_given (logo design)) then SetError (Some (t (lit "errorNoLogoToDownload")))
  else Download (DataUrl (logo_url (logo design))) (lit "logo.png").

(** [onDownloadTextSvg] *)
Definition onDownloadTextSvg (design : DesignOptions) : Outcome :=
  if negb (truthy (trim (text design))) then SetError (Some (t (lit "errorNoTextForSvg")))
  else if negb (logo_given (logo design))
  then SetError (Some (t (lit "errorNoLogoForLayout")))
  else download_or_report (generateTextOnlySvg rnd frac fonts W design false)
         BlobUrl (lit "text_design.svg").

(** [onDownloadTextPng] *)
Definition onDownloadTextPng (design : DesignOptions) : Outcome :=
  if negb (truthy (trim (text design))) then SetError (Some (t (lit "errorNoTextForSvg")))
  else if negb (logo_given (logo design))
  then SetError (Some (t (lit "errorNoLogoForLayout")))
  else download_or_report (fst (generateTextOnlyPng rnd frac fonts W C design []))
         DataUrl (lit "text_design.png").

(** [onDownloadCombinedSvg] *)
Definition onDownloadCombinedSvg (design : DesignOptions) : Outcome :=
  if negb (logo_given (logo design)) then SetError (Some (t (lit "errorNoLogo")))
  else download_or_report (generateCombinedSvg rnd frac fonts W design)
         BlobUrl (lit "combined_design.svg").

(** [onDownloadEngravingSvg] *)
Definition onDownloadEngravingSvg (design : DesignOptions) : Outcome :=
  if negb (logo_given (logo design)) then SetError (Some (t (lit "errorNoLogo")))
  else download_or_report (generateEngravingSvg rnd frac fonts W design)
         BlobUrl (lit "engraving_design.svg").

End Handlers.
End App.
Export App.

(* ================================================================== *)
(** * Sample inputs *)

Module Samples.

Definition sample_fonts : list Font :=
  [ {| font_id := lit "creepster"; font_name := lit "Creepster" |};
    {| font_id := lit "bebas"; font_name := lit "Bebas Neue" |} ].

(** The examples print integers only. *)
Definition no_frac (q : Qc) : jsstring := [].

(** A browser that decodes every logo as a [w] x [h] image and has no
    network. *)
Definition offline (w h : N) : World :=
  {| load_image := fun _ => Some {| img_width := w; img_height := h |};
     fetch := fun _ => FetchError;
     read_as_data_url := fun _ => ReadError |}.

Definition sample_css : jsstring :=
  lit "@font-face { font-family: 'Creepster'; src: url(https://fonts.gstatic.com/s/creepster/v13/a.woff2) format('woff2'); }".

(** A browser whose two requests succeed and whose [FileReader] fails to
    read the font blob. *)
Definition reader_fails : World :=
  {| load_image := fun _ => Some {| img_width := 100; img_height := 200 |};
     fetch := fun url =>
       if starts_with (lit "https://fonts.googleapis.com/") url
       then Response true (lit "OK") (BodyOk sample_css)
       else Response true (lit "OK") (BodyOk (lit "wOF2 font bytes"));
     read_as_data_url := fun _ => ReadError |}.

Definition sample_design : DesignOptions :=
  {| logo := Some (lit "data:image/png;base64,iVBORw0KGgo=");
     text := lit "A B C";
     font := lit "creepster";
     style := st_classic;
     textStyle := ts_shadow;
     textColor := lit "#A78BFA";
     gradientStartColor := lit "#2563EB";
     gradientEndColor := lit "#B91C1C" |}.

Definition with_logo (d : DesignOptions) (l : option jsstring) : DesignOptions :=
  {| logo := l; text := text d; font := font d; style := style d;
     textStyle := textStyle d; textColor := textColor d;
     gradientStartColor := gradientStartColor d;
     gradientEndColor := gradientEndColor d |}.

Definition with_text (d : DesignOptions) (t : jsstring) : DesignOptions :=
  {| logo := logo d; text := t; font := font d; style := style d;
     textStyle := textStyle d; textColor := textColor d;
     gradientStartColor := gradientStartColor d;
     gradientEndColor := gradientEndColor d |}.

Definition with_style (d : DesignOptions) (s : DesignStyle) : DesignOptions :=
  {| logo := logo d; text := text d; font := font d; style := s;
     textStyle := textStyle d; textColor := textColor d;
     gradientStartColor := gradientStartColor d;
     gradientEndColor := gradientEndColor d |}.

(** A browser that decodes no image and has no network. *)
Definition no_decoder : World :=
  {| load_image := fun _ => None;
     fetch := fun _ => FetchError;
     read_as_data_url := fun _ => ReadError |}.


(** A browser whose two requests succeed and whose [FileReader] reads the
    font blob. *)
Definition font_ready : World :=
  {| load_image := fun _ => Some {| img_width := 100; img_height := 200 |};
     fetch := fun url =>
       if starts_with (lit "https://fonts.googleapis.com/") url
       then Response true (lit "OK") (BodyOk sample_css)
       else Response true (lit "OK") (BodyOk (lit "wOF2 font bytes"));
     read_as_data_url := fun _ => ReadOk (lit "data:font/woff2;base64,d09GMg==") |}.


(** A canvas that draws every document. *)
Definition sample_canvas : Canvas :=
  {| createObjectURL := fun _ => lit "blob:https://app.example/4f1c";
     load_svg := fun _ => true;
     has_context := true;
     toDataURL := fun _ _ _ => lit "data:image/png;base64,iVBORw0KGgo=" |}.


Definition with_gradient (d : DesignOptions) (g1 g2 : jsstring) : DesignOptions :=
  {| logo := logo d; text := text d; font := font d; style := style d;
     textStyle := textStyle d; textColor := textColor d;
     gradientStartColor := g1; gradientEndColor := g2 |}.

End Samples.
Export Samples.

(* ================================================================== *)
(** * Properties *)

(** ** Strings *)

Lemma dropWhile_all (p : ascii -> bool) (s : jsstring) :
  forallb p s = true -> dropWhile p s = [].
Proof.
  induction s as [|c s IH]; simpl; [reflexivity|].
  destruct (p c); simpl; [exact IH | discriminate].
Qed.

Lemma trim_blank (s : jsstring) : forallb is_space s = true -> trim s = [].
Proof.
  intros H. unfold trim. rewrite (dropWhile_all _ _ H). reflexivity.
Qed.

(** ** A missing logo *)

Section MissingLogo.

Variables (rnd : Qc -> Qc) (frac : Qc -> jsstring) (fonts : list Font) (W : World).

(** C7.  A design without a logo ([null], or the empty string) makes each
    of the three composers reject with its "Logo is required" error,
    whatever the other options and the browser are. *)
Theorem missing_logo_rejects (d : DesignOptions) (embedFont : bool) :
  logo_given (logo d) = false ->
  generateTextOnlySvg rnd frac fonts W d embedFont
    = Rejected (Error (lit "Logo is required for layout."))
  /\ generateCombinedSvg rnd frac fonts W d
    = Rejected (Error (lit "Logo is required to generate the design SVG."))
  /\ generateEngravingSvg rnd frac fonts W d
    = Rejected (Error (lit "Logo is required for layout.")).
Proof.
  intros H.
  unfold generateTextOnlySvg, generateCombinedSvg, generateEngravingSvg.
  rewrite H. simpl. repeat split; reflexivity.
Qed.

End MissingLogo.

Lemma missing_logo_rejects_witness :
  generateTextOnlySvg round53 no_frac sample_fonts (offline 100 200)
      (with_logo sample_design None) true
    = Rejected (Error (lit "Logo is required for layout."))
  /\ generateCombinedSvg round53 no_frac sample_fonts (offline 100 200)
      (with_logo sample_design None)
    = Rejected (Error (lit "Logo is required to generate the design SVG."))
  /\ generateEngravingSvg round53 no_frac sample_fonts (offline 100 200)
      (with_logo sample_design None)
    = Rejected (Error (lit "Logo is required for layout.")).
Proof.
  apply (missing_logo_rejects round53 no_frac sample_fonts (offline 100 200)
           (with_logo sample_design None) true).
  reflexivity.
Defined.

(** ** Blank text *)

Section BlankText.

Variables (rnd : Qc -> Qc) (frac : Qc -> jsstring) (fonts : list Font) (W : World).

(** C9, as amended.  For a design that has a logo and whose text is empty
    or white space only, [generateTextOnlySvg] resolves, in both font
    modes and without asking the browser for anything, with the empty
    1000 x 1000 canvas: one [svg] element with no child element and no
    character data. *)
Theorem blank_text_gives_empty_canvas (d : DesignOptions) (embedFont : bool) :
  logo_given (logo d) = true ->
  forallb is_space (text d) = true ->
  generateTextOnlySvg rnd frac fonts W d embedFont = Resolved empty_canvas
  /\ elements empty_canvas = [lit "svg"]
  /\ attrs_of (lit "svg") empty_canvas
     = [(lit "xmlns", lit "http://www.w3.org/2000/svg");
        (lit "width", lit "1000"); (lit "height", lit "1000")]
  /\ text_nodes empty_canvas = [].
Proof.
  intros Hlogo Hblank.
  unfold generateTextOnlySvg.
  rewrite Hlogo, (trim_blank _ Hblank). simpl.
  repeat split; reflexivity.
Qed.

End BlankText.

Lemma blank_text_gives_empty_canvas_witness :
  generateTextOnlySvg round53 no_frac sample_fonts (offline 100 200)
      (with_text sample_design (lit "   ")) true = Resolved empty_canvas
  /\ elements empty_canvas = [lit "svg"]
  /\ attrs_of (lit "svg") empty_canvas
     = [(lit "xmlns", lit "http://www.w3.org/2000/svg");
        (lit "width", lit "1000"); (lit "height", lit "1000")]
  /\ text_nodes empty_canvas = [].
Proof.
  apply (blank_text_gives_empty_canvas round53 no_frac sample_fonts (offline 100 200)
           (with_text sample_design (lit "   ")) true); reflexivity.
Defined.

(** C9, as stated, fails on a design with blank text and no logo: the logo
    check comes first and rejects. *)
Lemma blank_text_without_logo_rejects :
  generateTextOnlySvg round53 no_frac sample_fonts (offline 100 200)
      (with_logo (with_text sample_design []) None) false
    = Rejected (Error (lit "Logo is required for layout.")).
Proof. reflexivity. Qed.

(** ** The font resolver *)

Section FontResolver.

Variable W : World.

(** The promise returned from inside the [try] block settles as the
    reader's events dictate: [error] fires before [loadend], so a failed
    read rejects it. *)
Lemma read_font_outcome (fontBlob : jsstring) :
  read_font W fontBlob =
  match read_as_data_url W fontBlob with
  | ReadOk uri => Resolved {| dataUri := uri; format := lit "woff2" |}
  | ReadError => Rejected ProgressEvent
  end.
Proof.
  unfold read_font. destruct (read_as_data_url W fontBlob); reflexivity.
Qed.

(** Every failure before the read is caught and gives the empty asset; a
    run that reaches the read ends as the read does. *)
Lemma fetchAndEncodeFont_outcome (fontUrl : jsstring) :
  fetchAndEncodeFont W fontUrl = Resolved empty_font
  \/ exists fontBlob, fetchAndEncodeFont W fontUrl = read_font W fontBlob.
Proof.
  unfold fetchAndEncodeFont, fetch_ok.
  destruct (fetch W fontUrl) as [|ok st body]; [left; reflexivity|].
  destruct ok; [|left; reflexivity].
  destruct body as [|cssText]; [left; reflexivity|]. simpl.
  destruct (match_woff2_url cssText) as [fontFileUrl|]; [|left; reflexivity].
  destruct (fetch W fontFileUrl) as [|ok st' body']; [left; reflexivity|].
  destruct ok; [|left; reflexivity].
  destruct body' as [|fontBlob]; [left; reflexivity|].
  right. exists fontBlob. reflexivity.
Qed.

(** The resolver never stays pending, and it rejects only with the
    reader's error event. *)
Lemma fetchAndEncodeFont_rejection (fontUrl : jsstring) (e : Thrown) :
  fetchAndEncodeFont W fontUrl = Rejected e -> e = ProgressEvent.
Proof.
  destruct (fetchAndEncodeFont_outcome fontUrl) as [H | [blob H]];
    rewrite H; [discriminate|].
  rewrite read_font_outcome.
  destruct (read_as_data_url W blob); [discriminate|].
  intros E. injection E as E. symmetry. exact E.
Qed.

End FontResolver.

(** C2 fails on the code.  When both requests succeed and the
    [FileReader] then fails on the font blob, [fetchAndEncodeFont] rejects
    with the reader's error event: the promise is returned from the [try]
    block without being awaited, so the [catch] never sees its rejection.
    [generateTextOnlySvg] with [embedFont = true] rejects with it. *)
Theorem font_read_failure_rejects :
  match_woff2_url sample_css
    = Some (lit "https://fonts.gstatic.com/s/creepster/v13/a.woff2")
  /\ fetchAndEncodeFont reader_fails
       (lit "https://fonts.googleapis.com/css2?family=Creepster:wght@400;700&display=swap")
     = Rejected ProgressEvent
  /\ generateTextOnlySvg round53 no_frac sample_fonts reader_fails sample_design true
     = Rejected ProgressEvent
  /\ exists doc,
       generateTextOnlySvg round53 no_frac sample_fonts reader_fails sample_design false
       = Resolved doc.
Proof.
  repeat split; try reflexivity.
  eexists. vm_compute. reflexivity.
Qed.

(** ** Arithmetic on canonical rationals *)

Lemma Qc_mult_Q (x y : Qc) : (this (x * y)%Qc == this x * this y)%Q.
Proof. apply Qred_correct. Qed.
Lemma Qc_plus_Q (x y : Qc) : (this (x + y)%Qc == this x + this y)%Q.
Proof. apply Qred_correct. Qed.
Lemma Qc_opp_Q (x : Qc) : (this (- x)%Qc == - this x)%Q.
Proof. apply Qred_correct. Qed.
Lemma Qc_minus_Q (x y : Qc) : (this (x - y)%Qc == this x - this y)%Q.
Proof. unfold Qcminus. rewrite Qc_plus_Q, Qc_opp_Q. reflexivity. Qed.
Lemma Qc_inv_Q (x : Qc) : (this (/ x)%Qc == / this x)%Q.
Proof. apply Qred_correct. Qed.
Lemma Qc_div_Q (x y : Qc) : (this (x / y)%Qc == this x / this y)%Q.
Proof. unfold Qcdiv. rewrite Qc_mult_Q, Qc_inv_Q. reflexivity. Qed.
Lemma Qc_of_Z_Q (z : Z) : (this (Qc_of_Z z) == inject_Z z)%Q.
Proof. apply Qred_correct. Qed.

Lemma Qc_of_Z_le a b : (a <= b)%Z -> (Qc_of_Z a <= Qc_of_Z b)%Qc.
Proof. intros H. unfold Qcle. rewrite !Qc_of_Z_Q, <- Zle_Qle. exact H. Qed.

Lemma Qc_of_Z_lt a b : (a < b)%Z -> (Qc_of_Z a < Qc_of_Z b)%Qc.
Proof. intros H. unfold Qclt. rewrite !Qc_of_Z_Q, <- Zlt_Qlt. exact H. Qed.

Lemma Qc_of_Z_eqb_0 z : Qc_eqb (Qc_of_Z z) 0 = (z =? 0)%Z.
Proof.
  unfold Qc_eqb. destruct (Z.eqb_spec z 0) as [->|Hz]; [reflexivity|].
  destruct (Qccompare (Qc_of_Z z) 0) eqn:E; try reflexivity.
  apply Qceq_alt in E. apply (f_equal this) in E.
  assert (Q : (inject_Z z == 0)%Q) by (rewrite <- Qc_of_Z_Q, E; reflexivity).
  unfold Qeq in Q. simpl in Q. lia.
Qed.

Lemma Qc_ltb_lt x y : Qc_ltb x y = true <-> (x < y)%Qc.
Proof.
  unfold Qc_ltb. rewrite Qclt_alt. destruct (x ?= y)%Qc; split; congruence.
Qed.

Lemma Qc_ltb_ge x y : Qc_ltb x y = false <-> (y <= x)%Qc.
Proof.
  split; intros H.
  - apply Qcnot_lt_le. intros L. apply Qc_ltb_lt in L. congruence.
  - destruct (Qc_ltb x y) eqn:E; [|reflexivity].
    apply Qc_ltb_lt in E. exfalso. exact (Qcle_not_lt _ _ H E).
Qed.

(** the exact quotient *)
Lemma quot_ge_1 (w : Z) : (0 < w <= 400)%Z -> (1 <= Qc_of_Z 400 / Qc_of_Z w)%Qc.
Proof.
  intros [H0 H]. unfold Qcle. rewrite Qc_div_Q, !Qc_of_Z_Q.
  change (this 1%Qc) with 1%Q.
  apply Qle_shift_div_l.
  - change 0%Q with (inject_Z 0). rewrite <- Zlt_Qlt. exact H0.
  - rewrite Qmult_1_l, <- Zle_Qle. exact H.
Qed.

Lemma quot_le_1 (w : Z) : (400 <= w)%Z -> (Qc_of_Z 400 / Qc_of_Z w <= 1)%Qc.
Proof.
  intros H. unfold Qcle. rewrite Qc_div_Q, !Qc_of_Z_Q.
  change (this 1%Qc) with 1%Q.
  apply Qle_shift_div_r.
  - change 0%Q with (inject_Z 0). rewrite <- Zlt_Qlt. lia.
  - rewrite Qmult_1_l, <- Zle_Qle. exact H.
Qed.

Lemma quot_antitone (a b : Z) :
  (0 < a <= b)%Z -> (Qc_of_Z 400 / Qc_of_Z b <= Qc_of_Z 400 / Qc_of_Z a)%Qc.
Proof.
  intros [H0 H]. unfold Qcle. rewrite !Qc_div_Q, !Qc_of_Z_Q.
  assert (A : (0 < inject_Z a)%Q) by (change 0%Q with (inject_Z 0); rewrite <- Zlt_Qlt; lia).
  assert (B : (0 < inject_Z b)%Q) by (change 0%Q with (inject_Z 0); rewrite <- Zlt_Qlt; lia).
  assert (AB : (inject_Z a <= inject_Z b)%Q) by (rewrite <- Zle_Qle; lia).
  apply Qle_shift_div_l; [exact A|].
  unfold Qdiv. rewrite <- Qmult_assoc, (Qmult_comm (/ _)), Qmult_assoc.
  apply Qle_shift_div_r; [exact B|].
  change (inject_Z 400) with 400%Q. nra.
Qed.

Ltac qc2q_in H :=
  repeat (rewrite Qc_minus_Q in H || rewrite Qc_div_Q in H || rewrite Qc_plus_Q in H
          || rewrite Qc_mult_Q in H || rewrite Qc_opp_Q in H || rewrite Qc_of_Z_Q in H).
Ltac qc2q :=
  repeat (rewrite Qc_minus_Q || rewrite Qc_div_Q || rewrite Qc_plus_Q
          || rewrite Qc_mult_Q || rewrite Qc_opp_Q || rewrite Qc_of_Z_Q).

Lemma scaled_side_bound_Q (m A R P RP U : Q) :
  (0 < m)%Q -> (A * m == 400)%Q -> (0 <= U)%Q -> (U < 1)%Q ->
  (- (U * A) <= R - A)%Q -> (R - A <= U * A)%Q ->
  (P == m * R)%Q ->
  (- (U * P) <= RP - P)%Q -> (RP - P <= U * P)%Q ->
  (- (400 * (2 * U + U * U)) <= RP - 400)%Q
  /\ (RP - 400 <= 400 * (2 * U + U * U))%Q
  /\ (0 < R)%Q.
Proof.
  intros Hm HA HU0 HU1 L1 L2 HP L3 L4.
  assert (A0 : (0 < A)%Q) by nra.
  assert (R0 : (0 < R)%Q) by nra.
  assert (B1 : (400 - 400 * U <= m * R)%Q) by nra.
  assert (B2 : (m * R <= 400 + 400 * U)%Q) by nra.
  repeat split; [nra | nra | exact R0].
Qed.

(** ** Scaling *)



Section Scaling.

Variables (rnd : Qc -> Qc) (u : Qc).
Hypothesis rounding : faithful_rounding rnd u.

Let quot (w : N) : Qc := rnd (Qc_of_Z 400 / Qc_of_Z (Z.of_N w)).

Lemma rnd_one : rnd 1 = 1%Qc.
Proof. destruct rounding as (_ & _ & Hint & _). apply (Hint 1%Z). simpl. lia. Qed.

Lemma div_maxLogoDim (w : N) :
  num_div rnd maxLogoDim (num_of_N w)
  = if (w =? 0)%N then Inf false else Fin (quot w).
Proof.
  unfold num_div, maxLogoDim, num_of_N, num_of_Z, quot.
  rewrite Qc_of_Z_eqb_0.
  destruct (N.eqb_spec w 0) as [->|Hw]; [reflexivity|].
  destruct (Z.eqb_spec (Z.of_N w) 0); [lia | reflexivity].
Qed.

Lemma quot_small (w : N) : (0 < w <= 400)%N -> (1 <= quot w)%Qc.
Proof.
  intros H. unfold quot. rewrite <- rnd_one.
  destruct rounding as (_ & Hmono & _). apply Hmono, quot_ge_1. lia.
Qed.

Lemma quot_large (w : N) : (400 <= w)%N -> (quot w <= 1)%Qc.
Proof.
  intros H. unfold quot. rewrite <- rnd_one.
  destruct rounding as (_ & Hmono & _). apply Hmono, quot_le_1. lia.
Qed.

Lemma quot_anti (a b : N) : (0 < a <= b)%N -> (quot b <= quot a)%Qc.
Proof.
  intros H. unfold quot.
  destruct rounding as (_ & Hmono & _). apply Hmono, quot_antitone. lia.
Qed.


Lemma min2_at_least_one (a b : number) :
  at_least_one a -> at_least_one b -> at_least_one (Math_min2 a b).
Proof.
  destruct a as [p|[]|], b as [q|[]|]; simpl; try easy.
  - destruct (Qc_ltb q p); easy.
Qed.

Lemma min2_one (a : number) : at_least_one a -> Math_min2 a (Fin 1) = Fin 1.
Proof.
  destruct a as [p|[]|]; simpl; try easy.
  intros H. destruct (Qc_ltb 1 p) eqn:E; [reflexivity|].
  apply Qc_ltb_ge in E. f_equal. apply Qcle_antisym; assumption.
Qed.

Lemma div_at_least_one (w : N) :
  (w <= 400)%N -> at_least_one (num_div rnd maxLogoDim (num_of_N w)).
Proof.
  intros H. rewrite div_maxLogoDim.
  destruct (N.eqb_spec w 0); [reflexivity|].
  apply quot_small. lia.
Qed.

Lemma mul_one_exact (w : N) :
  (w <= 400)%N -> num_mul rnd (num_of_N w) (Fin 1) = num_of_N w.
Proof.
  intros H. unfold num_mul, num_of_N, num_of_Z. rewrite Qcmult_1_r. f_equal.
  destruct rounding as (_ & _ & Hint & _). apply Hint.
  change (2 ^ 53)%Z with 9007199254740992%Z. lia.
Qed.

(** A logo that fits is left as it is. *)
Lemma scale_small (w h : N) :
  (w <= 400)%N -> (h <= 400)%N ->
  scale_ratio rnd {| img_width := w; img_height := h |} = Fin 1
  /\ scaleToFit rnd {| img_width := w; img_height := h |}
     = {| width := num_of_N w; height := num_of_N h |}.
Proof.
  intros Hw Hh.
  assert (R : scale_ratio rnd {| img_width := w; img_height := h |} = Fin 1).
  { unfold scale_ratio, Math_min. simpl.
    apply min2_one, min2_at_least_one; apply div_at_least_one; assumption. }
  split; [exact R|].
  unfold scaleToFit. rewrite R. cbn [img_width img_height].
  rewrite !mul_one_exact by assumption. reflexivity.
Qed.

Lemma min2_fin (a b : Qc) :
  Math_min2 (Fin a) (Fin b) = Fin (if Qc_ltb b a then b else a).
Proof. simpl. destruct (Qc_ltb b a); reflexivity. Qed.

Lemma min2_fin_le (a b : Qc) : (a <= b)%Qc -> Math_min2 (Fin a) (Fin b) = Fin a.
Proof. intros H. rewrite min2_fin. apply Qc_ltb_ge in H. rewrite H. reflexivity. Qed.

Lemma min2_fin_ge (a b : Qc) : (b <= a)%Qc -> Math_min2 (Fin a) (Fin b) = Fin b.
Proof.
  intros H. rewrite min2_fin. destruct (Qc_ltb b a) eqn:E; [reflexivity|].
  apply Qc_ltb_ge in E. f_equal. apply Qcle_antisym; assumption.
Qed.

(** The ratio of a logo that does not fit is the rounded quotient of 400
    by its larger side. *)
Lemma scale_ratio_large (w h : N) :
  (400 < w \/ 400 < h)%N ->
  scale_ratio rnd {| img_width := w; img_height := h |} = Fin (quot (N.max w h)).
Proof.
  intros H. unfold scale_ratio, Math_min. cbn [img_width img_height].
  rewrite !div_maxLogoDim.
  destruct (N.le_ge_cases h w) as [L|L].
  - rewrite (N.max_l _ _ L). assert (Hw : (400 < w)%N) by lia.
    destruct (N.eqb_spec w 0); [lia|].
    assert (Q1 : (quot w <= 1)%Qc) by (apply quot_large; lia).
    destruct (N.eqb_spec h 0).
    + change (Math_min2 (Fin (quot w)) (Inf false)) with (Fin (quot w)).
      apply min2_fin_le, Q1.
    + rewrite (min2_fin_le (quot w) (quot h)) by (apply quot_anti; lia).
      apply min2_fin_le, Q1.
  - rewrite (N.max_r _ _ L). assert (Hh : (400 < h)%N) by lia.
    destruct (N.eqb_spec h 0); [lia|].
    assert (Q1 : (quot h <= 1)%Qc) by (apply quot_large; lia).
    destruct (N.eqb_spec w 0).
    + change (Math_min2 (Inf false) (Fin (quot h))) with (Fin (quot h)).
      apply min2_fin_le, Q1.
    + rewrite (min2_fin_ge (quot w) (quot h)) by (apply quot_anti; lia).
      apply min2_fin_le, Q1.
Qed.

Lemma scaled_larger_bound (M : N) :
  (400 < M)%N ->
  (0 < quot M)%Qc
  /\ (Qcabs (rnd (Qc_of_Z (Z.of_N M) * quot M) - Qc_of_Z 400)
      <= Qc_of_Z 400 * (Qc_of_Z 2 * u + u * u))%Qc.
Proof.
  intros HM.
  destruct rounding as ((Hu0 & Hu1) & _ & _ & Herr).
  assert (Hm : (0 < inject_Z (Z.of_N M))%Q).
  { change 0%Q with (inject_Z 0). rewrite <- Zlt_Qlt. lia. }
  assert (E1 := Herr (Qc_of_Z 400 / Qc_of_Z (Z.of_N M))%Qc).
  assert (E3 := Herr (Qc_of_Z (Z.of_N M) * quot M)%Qc).
  unfold quot in *.
  generalize dependent (rnd (Qc_of_Z (Z.of_N M) * rnd (Qc_of_Z 400 / Qc_of_Z (Z.of_N M))))%Qc.
  generalize dependent (rnd (Qc_of_Z 400 / Qc_of_Z (Z.of_N M)))%Qc.
  assert (Ha : (this (Qc_of_Z 400 / Qc_of_Z (Z.of_N M))%Qc * inject_Z (Z.of_N M) == 400)%Q).
  { rewrite Qc_div_Q, !Qc_of_Z_Q. change (inject_Z 400) with 400%Q.
    field. intros E. rewrite E in Hm. exact (Qlt_irrefl _ Hm). }
  generalize dependent (Qc_of_Z 400 / Qc_of_Z (Z.of_N M))%Qc.
  intros a Ha r E1 rp E3.
  unfold Qcle, Qclt in Hu0, Hu1.
  change (this 0%Qc) with 0%Q in Hu0. change (this 1%Qc) with 1%Q in Hu1.
  assert (A0 : (0 < this a)%Q) by nra.
  assert (Ha0 : (0 <= a)%Qc).
  { unfold Qcle. change (this 0%Qc) with 0%Q. nra. }
  rewrite (Qcabs_pos a Ha0) in E1. apply Qcabs_Qcle_condition in E1.
  destruct E1 as [E1 E2]. unfold Qcle in E1, E2.
  qc2q_in E1. qc2q_in E2.
  assert (Hr0 : (0 < this r)%Q) by nra.
  remember (Qc_of_Z (Z.of_N M) * r)%Qc as p eqn:Ep.
  assert (Hp : (this p == inject_Z (Z.of_N M) * this r)%Q).
  { rewrite Ep, Qc_mult_Q, Qc_of_Z_Q. reflexivity. }
  clear Ep.
  assert (Hp0 : (0 <= p)%Qc).
  { unfold Qcle. change (this 0%Qc) with 0%Q. rewrite Hp. nra. }
  rewrite (Qcabs_pos p Hp0) in E3.
  apply Qcabs_Qcle_condition in E3. destruct E3 as [E3 E4].
  unfold Qcle in E3, E4. qc2q_in E3. qc2q_in E4.
  destruct (scaled_side_bound_Q _ _ _ _ _ _ Hm Ha Hu0 Hu1 E1 E2 Hp E3 E4)
    as (B1 & B2 & B3).
  split; [exact B3|].
  apply Qcabs_Qcle_condition. unfold Qcle.
  qc2q.
  change (inject_Z 400) with 400%Q. change (inject_Z 2) with 2%Q.
  split; assumption.
Qed.

Lemma mul_zero (r : Qc) : num_mul rnd (num_of_N 0) (Fin r) = num_of_N 0.
Proof.
  unfold num_mul, num_of_N, num_of_Z. rewrite Qcmult_0_l. f_equal.
  destruct rounding as (_ & _ & Hint & _). apply (Hint 0%Z). simpl. lia.
Qed.

(** The ratio is always a finite number in (0, 1]. *)
Lemma scale_ratio_finite (w h : N) :
  exists r : Qc,
    scale_ratio rnd {| img_width := w; img_height := h |} = Fin r
    /\ (0 < r)%Qc /\ (r <= 1)%Qc.
Proof.
  destruct (N.le_gt_cases w 400) as [Hw|Hw];
    [destruct (N.le_gt_cases h 400) as [Hh|Hh]|].
  - exists 1%Qc. split; [apply scale_small; assumption|]. split; easy.
  - exists (quot (N.max w h)). split; [apply scale_ratio_large; lia|].
    split; [apply scaled_larger_bound | apply quot_large]; lia.
  - exists (quot (N.max w h)). split; [apply scale_ratio_large; lia|].
    split; [apply scaled_larger_bound | apply quot_large]; lia.
Qed.

(** C5, as amended.  The scaled box is the logo's dimensions times
    [ratio = Math.min(400 / width, 400 / height, 1)], each product rounded.
    A logo with both sides at most 400 is returned unchanged, with ratio 1.
    For a logo with a side above 400, the ratio is a finite number in
    (0, 1] and the larger side of the scaled box is 400 up to the rounding
    of the quotient and of the product: it differs from 400 by at most
    [400 * (2u + u^2)], where [u] is the unit roundoff. *)
Theorem scaleToFit_spec (w h : N) :
  let logoDims := {| img_width := w; img_height := h |} in
  let ratio := scale_ratio rnd logoDims in
  ratio = Math_min (num_div rnd (num_of_Z 400) (num_of_N w))
                   (num_div rnd (num_of_Z 400) (num_of_N h)) (num_of_Z 1)
  /\ scaleToFit rnd logoDims
     = {| width := num_mul rnd (num_of_N w) ratio;
          height := num_mul rnd (num_of_N h) ratio |}
  /\ ((w <= 400)%N -> (h <= 400)%N ->
      ratio = Fin 1
      /\ scaleToFit rnd logoDims = {| width := num_of_N w; height := num_of_N h |})
  /\ ((400 < w \/ 400 < h)%N ->
      exists r side : Qc,
        ratio = Fin r /\ (0 < r)%Qc /\ (r <= 1)%Qc
        /\ larger (scaleToFit rnd logoDims) w h = Fin side
        /\ (Qcabs (side - Qc_of_Z 400)
            <= Qc_of_Z 400 * (Qc_of_Z 2 * u + u * u))%Qc).
Proof.
  intros logoDims ratio. split; [reflexivity|]. split; [reflexivity|].
  split; [intros Hw Hh; apply scale_small; assumption|].
  intros H.
  assert (R := scale_ratio_large w h H).
  assert (HM : (400 < N.max w h)%N) by lia.
  destruct (scaled_larger_bound _ HM) as [R0 B].
  exists (quot (N.max w h)), (rnd (Qc_of_Z (Z.of_N (N.max w h)) * quot (N.max w h)))%Qc.
  split; [exact R|]. split; [exact R0|]. split; [apply quot_large; lia|].
  split; [|exact B].
  unfold larger, scaleToFit. subst ratio logoDims. rewrite R.
  cbn [width height img_width img_height].
  destruct (N.leb_spec h w) as [L|L].
  - rewrite (N.max_l _ _ L). reflexivity.
  - rewrite (N.max_r w h) by lia. reflexivity.
Qed.

(** The larger side of a logo with a side above 400, once scaled. *)
Lemma larger_side_bound (w h : N) :
  (400 < w \/ 400 < h)%N ->
  exists side : Qc,
    larger (scaleToFit rnd {| img_width := w; img_height := h |}) w h = Fin side
    /\ (Qcabs (side - Qc_of_Z 400)
        <= Qc_of_Z 400 * (Qc_of_Z 2 * u + u * u))%Qc.
Proof.
  intros H.
  assert (R := scale_ratio_large w h H).
  assert (HM : (400 < N.max w h)%N) by lia.
  destruct (scaled_larger_bound _ HM) as [_ B].
  exists (rnd (Qc_of_Z (Z.of_N (N.max w h)) * quot (N.max w h)))%Qc.
  split; [|exact B].
  unfold larger, scaleToFit. rewrite R.
  cbn [width height img_width img_height].
  destruct (N.leb_spec h w) as [L|L].
  - rewrite (N.max_l _ _ L). reflexivity.
  - rewrite (N.max_r w h) by lia. reflexivity.
Qed.

End Scaling.

(** ** Binary64 rounding is faithful *)

Lemma pow2_pos (e : Z) : (0 < 2 ^ e)%Q.
Proof. apply Qpower_0_lt. reflexivity. Qed.

Lemma pow2_add (a b : Z) : (2 ^ (a + b) == 2 ^ a * 2 ^ b)%Q.
Proof. apply Qpower_plus. discriminate. Qed.

Lemma pow2_succ (a : Z) : (2 ^ (a + 1) == 2 * 2 ^ a)%Q.
Proof. rewrite pow2_add. change (2 ^ 1)%Q with 2%Q. ring. Qed.

Lemma pow2_Z (k : Z) : (0 <= k)%Z -> (inject_Z (2 ^ k) == 2 ^ k)%Q.
Proof. intros H. exact (Zpower_Qpower 2 k H). Qed.

Lemma pow2_inv (e : Z) : (2 ^ (- e) * 2 ^ e == 1)%Q.
Proof. rewrite <- pow2_add. replace (- e + e)%Z with 0%Z by lia. reflexivity. Qed.

Lemma Qmake_div (N : Z) (D : positive) :
  (N # D == inject_Z N / inject_Z (Zpos D))%Q.
Proof. apply Qmake_Qdiv. Qed.

Lemma round_half_even_near (N : Z) (D : positive) :
  (- Zpos D <= 2 * (round_half_even N D * Zpos D - N) <= Zpos D)%Z.
Proof.
  unfold round_half_even.
  pose proof (Z.div_mod N (Zpos D) ltac:(lia)) as E.
  pose proof (Z.mod_pos_bound N (Zpos D) ltac:(lia)) as B.
  destruct (Z.compare_spec (2 * (N mod Zpos D)) (Zpos D)) as [C|C|C];
    [destruct (Z.even (N / Zpos D))| |]; nia.
Qed.

Ltac push_inject H :=
  repeat (rewrite inject_Z_mult in H || rewrite inject_Z_plus in H
          || rewrite inject_Z_opp in H).

Lemma round_half_even_nearest (N : Z) (D : positive) :
  nearest (round_half_even N D) (N # D).
Proof.
  pose proof (round_half_even_near N D) as [L U].
  set (R := round_half_even N D) in *.
  rewrite Zle_Qle in L, U.
  unfold Z.sub in L, U. push_inject L. push_inject U.
  assert (Dp : (0 < inject_Z (Zpos D))%Q) by (change 0%Q with (inject_Z 0); rewrite <- Zlt_Qlt; lia).
  assert (T : ((N # D) * inject_Z (Zpos D) == inject_Z N)%Q).
  { rewrite Qmake_div. field. intros H. rewrite H in Dp. exact (Qlt_irrefl _ Dp). }
  change (inject_Z 2) with 2%Q in L, U.
  change (inject_Z (- Z.pos D)) with (- inject_Z (Z.pos D))%Q in L.
  unfold nearest. revert L U T Dp.
  generalize (N # D) (inject_Z (Z.pos D)) (inject_Z N) (inject_Z R).
  intros t d n r L U T Dp.
  split; nra.
Qed.

Lemma nearest_ge_int (R : Z) (m : Q) (k : Z) :
  nearest R m -> (inject_Z k <= m)%Q -> (k <= R)%Z.
Proof.
  intros [L _] H.
  assert (Q1 : (inject_Z k < inject_Z R + 1)%Q) by lra.
  change 1%Q with (inject_Z 1) in Q1. rewrite <- inject_Z_plus, <- Zlt_Qlt in Q1. lia.
Qed.

Lemma nearest_le_int (R : Z) (m : Q) (k : Z) :
  nearest R m -> (m <= inject_Z k)%Q -> (R <= k)%Z.
Proof.
  intros [_ U] H.
  assert (Q1 : (inject_Z R < inject_Z k + 1)%Q) by lra.
  change 1%Q with (inject_Z 1) in Q1. rewrite <- inject_Z_plus, <- Zlt_Qlt in Q1. lia.
Qed.

Lemma nearest_int (R k : Z) (m : Q) : nearest R m -> (m == inject_Z k)%Q -> R = k.
Proof.
  intros N E. apply Z.le_antisymm.
  - apply (nearest_le_int R m k N). rewrite E. apply Qle_refl.
  - apply (nearest_ge_int R m k N). rewrite E. apply Qle_refl.
Qed.

Lemma nearest_mono (R1 R2 : Z) (m1 m2 : Q) :
  nearest R1 m1 -> nearest R2 m2 -> (m1 < m2)%Q -> (R1 <= R2)%Z.
Proof.
  intros [_ U1] [L2 _] H.
  assert (Q1 : (inject_Z R1 < inject_Z R2 + 1)%Q) by lra.
  change 1%Q with (inject_Z 1) in Q1. rewrite <- inject_Z_plus, <- Zlt_Qlt in Q1. lia.
Qed.

Lemma binade_scaled (x : Q) (E : Z) :
  in_binade x E ->
  (inject_Z (2 ^ 52) <= x * 2 ^ (- (E - 52)))%Q
  /\ (x * 2 ^ (- (E - 52)) < inject_Z (2 ^ 53))%Q.
Proof.
  intros [L U].
  assert (P := pow2_pos (- (E - 52))).
  assert (A : (2 ^ E * 2 ^ (- (E - 52)) == inject_Z (2 ^ 52))%Q).
  { rewrite <- pow2_add, pow2_Z by lia. replace (E + - (E - 52))%Z with 52%Z by lia.
    reflexivity. }
  assert (B : (2 ^ (E + 1) * 2 ^ (- (E - 52)) == inject_Z (2 ^ 53))%Q).
  { rewrite <- pow2_add, pow2_Z by lia. replace (E + 1 + - (E - 52))%Z with 53%Z by lia.
    reflexivity. }
  revert L U P A B.
  generalize (2 ^ E)%Q (2 ^ (E + 1))%Q (2 ^ (- (E - 52)))%Q
    (inject_Z (2 ^ 52)) (inject_Z (2 ^ 53)).
  intros a b p c d L U P A B. split; nra.
Qed.

Lemma rounded_range (x : Q) (E : Z) (y : Q) :
  in_binade x E -> rounded x E y -> (2 ^ E <= y)%Q /\ (y <= 2 ^ (E + 1))%Q.
Proof.
  intros B (R & N & ->).
  destruct (binade_scaled x E B) as [L U].
  pose proof (nearest_ge_int R _ _ N L) as RL.
  pose proof (nearest_le_int R _ _ N (Qlt_le_weak _ _ U)) as RU.
  rewrite Zle_Qle in RL, RU.
  assert (P := pow2_pos (E - 52)).
  assert (A : (2 ^ E == inject_Z (2 ^ 52) * 2 ^ (E - 52))%Q).
  { rewrite pow2_Z, <- pow2_add by lia. replace (52 + (E - 52))%Z with E by lia.
    reflexivity. }
  assert (C : (2 ^ (E + 1) == inject_Z (2 ^ 53) * 2 ^ (E - 52))%Q).
  { rewrite pow2_Z, <- pow2_add by lia. replace (53 + (E - 52))%Z with (E + 1)%Z by lia.
    reflexivity. }
  rewrite A, C. revert RL RU P.
  generalize (inject_Z R) (2 ^ (E - 52))%Q (inject_Z (2 ^ 52)) (inject_Z (2 ^ 53)).
  intros r p c d RL RU P. split; nra.
Qed.

Lemma rounded_error (x : Q) (E : Z) (y : Q) :
  in_binade x E -> rounded x E y ->
  (- (u53 * x) <= y - x)%Q /\ (y - x <= u53 * x)%Q.
Proof.
  intros [L _] (R & [NL NU] & ->).
  assert (P := pow2_pos (E - 52)).
  assert (I := pow2_inv (E - 52)).
  assert (A : (2 ^ E == 4503599627370496 * 2 ^ (E - 52))%Q).
  { change 4503599627370496%Q with (2 ^ 52)%Q. rewrite <- pow2_add.
    replace (52 + (E - 52))%Z with E by lia. reflexivity. }
  unfold u53. revert L NL NU P I A.
  generalize (inject_Z R) (2 ^ (E - 52))%Q (2 ^ (- (E - 52)))%Q (2 ^ E)%Q.
  intros r p q a L NL NU P I A.
  assert (X : (x == x * q * p)%Q) by (rewrite <- Qmult_assoc, I; ring).
  split; nra.
Qed.

Lemma binade_order (x1 x2 : Q) (E1 E2 : Z) :
  in_binade x1 E1 -> in_binade x2 E2 -> (x1 < x2)%Q -> (E1 <= E2)%Z.
Proof.
  intros [L1 _] [_ U2] H.
  assert (Q1 : (2 ^ E1 < 2 ^ (E2 + 1))%Q) by lra.
  apply Qpower_lt_compat_l_inv in Q1; [lia | reflexivity].
Qed.

Lemma rounded_mono (x1 x2 : Q) (E1 E2 : Z) (y1 y2 : Q) :
  in_binade x1 E1 -> in_binade x2 E2 ->
  rounded x1 E1 y1 -> rounded x2 E2 y2 ->
  (x1 < x2)%Q -> (y1 <= y2)%Q.
Proof.
  intros B1 B2 R1 R2 H.
  pose proof (binade_order _ _ _ _ B1 B2 H) as HE.
  destruct (Z.eq_dec E1 E2) as [<- | Hne].
  - destruct R1 as (r1 & N1 & ->), R2 as (r2 & N2 & ->).
    assert (P := pow2_pos (E1 - 52)). assert (P' := pow2_pos (- (E1 - 52))).
    assert (M : (x1 * 2 ^ (- (E1 - 52)) < x2 * 2 ^ (- (E1 - 52)))%Q) by nra.
    pose proof (nearest_mono _ _ _ _ N1 N2 M) as L. rewrite Zle_Qle in L.
    nra.
  - destruct (rounded_range _ _ _ B1 R1) as [_ U1].
    destruct (rounded_range _ _ _ B2 R2) as [L2 _].
    assert (Q1 : (2 ^ (E1 + 1) <= 2 ^ E2)%Q)
      by (apply Qpower_le_compat_l; [lia | discriminate]).
    lra.
Qed.

Lemma rounded_int (x : Q) (E : Z) (y : Q) (z : Z) :
  (x == inject_Z z)%Q -> (0 < z <= 2 ^ 53)%Z ->
  in_binade x E -> rounded x E y -> (y == x)%Q.
Proof.
  intros Hx Hz [L U] (R & N & ->).
  assert (HE : (E < 54)%Z).
  { assert (Q1 : (2 ^ E < 2 ^ 54)%Q).
    { apply Qle_lt_trans with x; [exact L|]. rewrite Hx.
      rewrite <- (pow2_Z 54) by lia. rewrite <- Zlt_Qlt. lia. }
    apply Qpower_lt_compat_l_inv in Q1; [exact Q1 | reflexivity]. }
  assert (I := pow2_inv (E - 52)).
  assert (K : exists k : Z, (x * 2 ^ (- (E - 52)) == inject_Z k)%Q).
  { destruct (Z_le_gt_dec E 52) as [H52 | H52].
    - exists (z * 2 ^ (- (E - 52)))%Z.
      rewrite inject_Z_mult, pow2_Z, Hx by lia. reflexivity.
    - assert (E = 53)%Z by lia. subst E.
      assert (z = 2 ^ 53)%Z.
      { apply Z.le_antisymm; [lia|]. rewrite Zle_Qle, <- Hx.
        rewrite pow2_Z by lia. exact L. }
      subst z. exists (2 ^ 52)%Z. rewrite Hx. reflexivity. }
  destruct K as (k & Hk).
  rewrite (nearest_int R k _ N Hk), <- Hk, <- Qmult_assoc, I. ring.
Qed.

(** [log2_floor] gives the binade. *)
Lemma log2_floor_binade (n d : positive) : in_binade (Zpos n # d) (log2_floor n d).
Proof.
  set (x := (Zpos n # d)%Q).
  set (ln := Z.log2 (Zpos n)). set (ld := Z.log2 (Zpos d)).
  assert (Hln : (0 <= ln)%Z) by apply Z.log2_nonneg.
  assert (Hld : (0 <= ld)%Z) by apply Z.log2_nonneg.
  destruct (Z.log2_spec (Zpos n) ltac:(lia)) as [N1 N2].
  destruct (Z.log2_spec (Zpos d) ltac:(lia)) as [D1 D2].
  fold ln in N1, N2. fold ld in D1, D2.
  rewrite Zle_Qle in N1, D1. rewrite Zlt_Qlt in N2, D2.
  rewrite pow2_Z in N1, N2, D1, D2 by lia.
  replace (Z.succ ln) with (ln + 1)%Z in N2 by lia.
  replace (Z.succ ld) with (ld + 1)%Z in D2 by lia.
  rewrite pow2_succ in N2, D2.
  assert (Dp : (0 < inject_Z (Zpos d))%Q)
    by (change 0%Q with (inject_Z 0); rewrite <- Zlt_Qlt; lia).
  assert (T : (x * inject_Z (Zpos d) == inject_Z (Zpos n))%Q).
  { unfold x. rewrite Qmake_div. field. intros H. rewrite H in Dp.
    exact (Qlt_irrefl _ Dp). }
  set (e0 := (ln - ld)%Z).
  assert (S0 : (2 ^ ln == 2 ^ e0 * 2 ^ ld)%Q).
  { rewrite <- pow2_add. replace (e0 + ld)%Z with ln by (unfold e0; lia). reflexivity. }
  assert (Ps := pow2_pos e0). assert (Pd := pow2_pos ld).
  (* the test compares [x] with [2 ^ e0] *)
  assert (Test : exists b : bool,
             log2_floor n d = (if b then e0 - 1 else e0)%Z
             /\ (if b then x < 2 ^ e0 else 2 ^ e0 <= x)%Q).
  { unfold log2_floor. fold ln ld e0. cbv zeta.
    destruct (Z.leb_spec 0 e0) as [He | He].
    - exists (Zpos n <? Zpos d * 2 ^ e0)%Z. split; [reflexivity|].
      destruct (Z.ltb_spec (Zpos n) (Zpos d * 2 ^ e0)) as [C | C];
        [rewrite Zlt_Qlt in C | rewrite Zle_Qle in C];
        rewrite inject_Z_mult, pow2_Z in C by lia;
        revert C T Dp Ps; generalize (inject_Z (Zpos n)) (inject_Z (Zpos d)) (2 ^ e0)%Q;
        intros a b s C T Dp Ps; nra.
    - exists (Zpos n * 2 ^ (- e0) <? Zpos d)%Z. split; [reflexivity|].
      assert (I := pow2_inv e0). assert (Pi := pow2_pos (- e0)).
      destruct (Z.ltb_spec (Zpos n * 2 ^ (- e0)) (Zpos d)) as [C | C];
        [rewrite Zlt_Qlt in C | rewrite Zle_Qle in C];
        rewrite inject_Z_mult, pow2_Z in C by lia;
        revert C T Dp Ps I Pi;
        generalize (inject_Z (Zpos n)) (inject_Z (Zpos d)) (2 ^ e0)%Q (2 ^ (- e0))%Q;
        intros a b s i C T Dp Ps I Pi.
      + assert (x * i < 1)%Q by nra. nra.
      + assert (1 <= x * i)%Q by nra. nra. }
  destruct Test as (b & -> & Hb).
  assert (Up : (x < 2 * 2 ^ e0)%Q).
  { revert N2 D1 S0 T Dp Ps Pd.
    generalize (inject_Z (Zpos n)) (inject_Z (Zpos d)) (2 ^ e0)%Q (2 ^ ln)%Q (2 ^ ld)%Q.
    intros a b' s pn pd N2 D1 S0 T Dp Ps Pd. nra. }
  assert (Lo : (2 ^ e0 <= 2 * x)%Q).
  { revert N1 D2 S0 T Dp Ps Pd.
    generalize (inject_Z (Zpos n)) (inject_Z (Zpos d)) (2 ^ e0)%Q (2 ^ ln)%Q (2 ^ ld)%Q.
    intros a b' s pn pd N1 D2 S0 T Dp Ps Pd. nra. }
  unfold in_binade. destruct b.
  - replace (e0 - 1 + 1)%Z with e0 by lia. split; [|exact Hb].
    assert (S1 : (2 ^ e0 == 2 * 2 ^ (e0 - 1))%Q).
    { rewrite <- pow2_succ. replace (e0 - 1 + 1)%Z with e0 by lia. reflexivity. }
    lra.
  - split; [exact Hb|]. rewrite pow2_succ. exact Up.
Qed.

Lemma pow2_to_pos (k : Z) : (0 <= k)%Z -> (inject_Z (Zpos (Z.to_pos (2 ^ k))) == 2 ^ k)%Q.
Proof.
  intros H. rewrite Z2Pos.id by (apply Z.pow_pos_nonneg; lia). apply pow2_Z, H.
Qed.

Lemma nearest_ext (R : Z) (m m' : Q) : (m == m')%Q -> nearest R m -> nearest R m'.
Proof. unfold nearest. intros E [L U]. split; lra. Qed.

Lemma round53_pos_rounded (n d : positive) :
  rounded (Zpos n # d) (log2_floor n d) (round53_pos n d).
Proof.
  unfold rounded, round53_pos. set (e := (log2_floor n d - 52)%Z). cbv zeta.
  assert (Dp : (0 < inject_Z (Zpos d))%Q)
    by (change 0%Q with (inject_Z 0); rewrite <- Zlt_Qlt; lia).
  assert (Dn : ~ (inject_Z (Zpos d) == 0)%Q) by lra.
  assert (I := pow2_inv e). assert (P := pow2_pos e). assert (Pi := pow2_pos (- e)).
  destruct (Z.leb_spec 0 e) as [He | He].
  - exists (round_half_even (Zpos n) (d * Z.to_pos (2 ^ e))). split.
    + eapply nearest_ext; [|apply round_half_even_nearest].
      rewrite (Qmake_div (Zpos n) d), (Qmake_div (Zpos n) (d * _)).
      rewrite Pos2Z.inj_mul, inject_Z_mult, pow2_to_pos by lia.
      assert (Pn : ~ (2 ^ e == 0)%Q) by lra.
      apply Qmult_inj_r with (2 ^ e)%Q; [exact Pn|].
      rewrite <- (Qmult_assoc _ (2 ^ (- e))), I.
      revert Pn. generalize (2 ^ e)%Q. intros s Pn. field. split; assumption.
    + rewrite inject_Z_mult, pow2_Z by lia. reflexivity.
  - exists (round_half_even (Zpos n * 2 ^ (- e)) d). split.
    + eapply nearest_ext; [|apply round_half_even_nearest].
      rewrite (Qmake_div (Zpos n) d), (Qmake_div (_ * _) d).
      rewrite inject_Z_mult, pow2_Z by lia.
      generalize (2 ^ (- e))%Q. intros s. field. exact Dn.
    + rewrite Qmake_div, pow2_to_pos by lia.
      assert (Pn : ~ (2 ^ (- e) == 0)%Q) by lra.
      apply Qmult_inj_r with (2 ^ (- e))%Q; [exact Pn|].
      rewrite <- (Qmult_assoc _ (2 ^ e)), (Qmult_comm (2 ^ e)), I.
      revert Pn. generalize (2 ^ (- e))%Q. intros s Pn. field. exact Pn.
Qed.

Lemma near53_sign (x y : Q) :
  near53 x y ->
  ((0 < x)%Q -> (0 < y)%Q) /\ ((x < 0)%Q -> (y < 0)%Q) /\ ((x == 0)%Q -> (y == 0)%Q).
Proof.
  intros [[X Y] | [[X (E & B & R)] | [X (E & B & R)]]].
  - repeat split; intros; lra.
  - destruct (rounded_range _ _ _ B R) as [L _]. assert (P := pow2_pos E).
    repeat split; intros; lra.
  - destruct (rounded_range _ _ _ B R) as [L _]. assert (P := pow2_pos E).
    repeat split; intros; lra.
Qed.

Lemma near53_mono (x1 x2 y1 y2 : Q) :
  near53 x1 y1 -> near53 x2 y2 -> (x1 < x2)%Q -> (y1 <= y2)%Q.
Proof.
  intros N1 N2 H.
  destruct (near53_sign _ _ N1) as (P1 & M1 & Z1).
  destruct (near53_sign _ _ N2) as (P2 & M2 & Z2).
  assert (S1 : (0 < x1 -> 0 < y1)%Q /\ (x1 <= 0 -> y1 <= 0)%Q).
  { split; [exact P1|]. intros L. destruct (Qlt_le_dec x1 0) as [A | A].
    - specialize (M1 A). lra.
    - assert (x1 == 0)%Q by lra. specialize (Z1 ltac:(assumption)). lra. }
  assert (S2 : (x2 < 0 -> y2 < 0)%Q /\ (0 <= x2 -> 0 <= y2)%Q).
  { split; [exact M2|]. intros L. destruct (Qlt_le_dec 0 x2) as [A | A].
    - specialize (P2 A). lra.
    - assert (x2 == 0)%Q by lra. specialize (Z2 ltac:(assumption)). lra. }
  destruct S1 as [S1 S1'], S2 as [S2 S2'].
  destruct (Qlt_le_dec 0 x1) as [A1 | A1].
  - (* both positive *)
    destruct N1 as [[X1 Y1] | [[X1 (E1 & B1 & R1)] | [X1 (E1 & B1 & R1)]]]; try lra.
    destruct N2 as [[X2 Y2] | [[X2 (E2 & B2 & R2)] | [X2 (E2 & B2 & R2)]]]; try lra.
    exact (rounded_mono _ _ _ _ _ _ B1 B2 R1 R2 H).
  - destruct (Qlt_le_dec x2 0) as [A2 | A2].
    + (* both negative *)
      destruct N1 as [[X1 Y1] | [[X1 (E1 & B1 & R1)] | [X1 (E1 & B1 & R1)]]]; try lra.
      destruct N2 as [[X2 Y2] | [[X2 (E2 & B2 & R2)] | [X2 (E2 & B2 & R2)]]]; try lra.
      assert (H' : (- x2 < - x1)%Q) by lra.
      pose proof (rounded_mono _ _ _ _ _ _ B2 B1 R2 R1 H'). lra.
    + specialize (S1' A1). specialize (S2' A2). lra.
Qed.

Lemma near53_int (x y : Q) (z : Z) :
  near53 x y -> (x == inject_Z z)%Q -> (Z.abs z <= 2 ^ 53)%Z -> (y == x)%Q.
Proof.
  intros [[X Y] | [[X (E & B & R)] | [X (E & B & R)]]] Hx Hz.
  - lra.
  - apply (rounded_int x E y z Hx); [|exact B|exact R].
    split; [|lia]. rewrite Zlt_Qlt, <- Hx. exact X.
  - assert (Hx' : (- x == inject_Z (- z))%Q) by (rewrite inject_Z_opp, Hx; reflexivity).
    assert (Hz' : (0 < - z <= 2 ^ 53)%Z).
    { split; [|lia]. rewrite Zlt_Qlt, <- Hx'. change (inject_Z 0) with 0%Q. lra. }
    pose proof (rounded_int _ E _ _ Hx' Hz' B R). lra.
Qed.

Lemma near53_error (x y : Q) :
  near53 x y -> (Qabs (y - x) <= u53 * Qabs x)%Q.
Proof.
  intros [[X Y] | [[X (E & B & R)] | [X (E & B & R)]]].
  - rewrite X, Y. vm_compute. discriminate.
  - destruct (rounded_error _ _ _ B R) as [L U].
    rewrite (Qabs_pos x) by lra. apply Qabs_Qle_condition. split; lra.
  - destruct (rounded_error _ _ _ B R) as [L U].
    rewrite (Qabs_neg x) by lra. apply Qabs_Qle_condition. split; lra.
Qed.

Lemma Qc_this_make (q : Qc) : (this q == Qnum q # Qden q)%Q.
Proof. destruct q as [[n d] c]. reflexivity. Qed.

Lemma round53_near (q : Qc) : near53 q (round53 q).
Proof.
  unfold near53, round53. pose proof (Qc_this_make q) as T.
  destruct (Qnum q) as [|n|n] eqn:En.
  - left. split; rewrite T; reflexivity.
  - right. left. split; [unfold Qlt; cbn [Qnum Qden]; rewrite En; reflexivity|].
    exists (log2_floor n (Qden q)).
    assert (B := log2_floor_binade n (Qden q)).
    assert (R := round53_pos_rounded n (Qden q)).
    assert (Y : (this (Q2Qc (round53_pos n (Qden q))) == round53_pos n (Qden q))%Q)
      by apply Qred_correct.
    split.
    + destruct B as [L U]. split; lra.
    + destruct R as (r & Nr & Er). exists r. split.
      * eapply nearest_ext; [|exact Nr].
        apply Qmult_comp; [symmetry; exact T | reflexivity].
      * rewrite Y. exact Er.
  - right. right. split; [unfold Qlt; cbn [Qnum Qden]; rewrite En; reflexivity|].
    assert (T' : (- this q == Zpos n # Qden q)%Q).
    { unfold Qeq, Qopp. cbn [Qnum Qden]. rewrite En. reflexivity. }
    exists (log2_floor n (Qden q)).
    assert (B := log2_floor_binade n (Qden q)).
    assert (R := round53_pos_rounded n (Qden q)).
    assert (Y : (- this (Q2Qc (- round53_pos n (Qden q))) == round53_pos n (Qden q))%Q).
    { unfold Q2Qc, this. rewrite Qred_correct. ring. }
    split.
    + destruct B as [L U]. split; lra.
    + destruct R as (r & Nr & Er). exists r. split.
      * eapply nearest_ext; [|exact Nr].
        apply Qmult_comp; [symmetry; exact T' | reflexivity].
      * rewrite Y. exact Er.
Qed.

(** Binary64 rounding, with an unbounded exponent, is a faithful rounding of
    unit roundoff [2 ^ -53]. *)
Lemma round53_faithful : faithful_rounding round53 (Q2Qc u53).
Proof.
  split; [split; [discriminate | reflexivity]|].
  split; [|split].
  - intros a b H. destruct (Qcle_lt_or_eq _ _ H) as [L | ->]; [|apply Qcle_refl].
    exact (near53_mono _ _ _ _ (round53_near a) (round53_near b) L).
  - intros z Hz. apply Qc_is_canon.
    exact (near53_int _ _ z (round53_near _) (Qc_of_Z_Q z) Hz).
  - intros a. unfold Qcle.
    assert (E := near53_error _ _ (round53_near a)).
    rewrite Qc_mult_Q.
    change (this (Qcabs (round53 a - a))) with (Qabs (this (round53 a - a)%Qc)).
    change (this (Qcabs a)) with (Qabs (this a)).
    rewrite Qc_minus_Q.
    change (this (Q2Qc u53)) with u53. exact E.
Qed.

Lemma round53_monotone (a b : Qc) : (a <= b)%Qc -> (round53 a <= round53 b)%Qc.
Proof. destruct round53_faithful as (_ & H & _). apply H. Qed.

Lemma round53_exact (z : Z) :
  (Z.abs z <= 2 ^ 53)%Z -> round53 (Qc_of_Z z) = Qc_of_Z z.
Proof. destruct round53_faithful as (_ & _ & H & _). apply H. Qed.

Lemma exact_arithmetic_is_faithful : faithful_rounding (fun q => q) 0.
Proof.
  repeat split; try easy.
  intros a. rewrite Qcmult_0_l.
  replace (a - a)%Qc with 0%Qc by ring. easy.
Qed.

(** In exact arithmetic the larger side of a scaled-down logo is exactly
    400. *)
Lemma scaleToFit_exact (w h : N) :
  (400 < w \/ 400 < h)%N ->
  larger (scaleToFit (fun q => q) {| img_width := w; img_height := h |}) w h
  = num_of_Z 400.
Proof.
  intros H.
  destruct (larger_side_bound _ _ exact_arithmetic_is_faithful w h H) as (side & E & B).
  rewrite E. unfold num_of_Z. f_equal.
  replace (Qc_of_Z 400 * (Qc_of_Z 2 * 0 + 0 * 0))%Qc with 0%Qc in B by ring.
  assert (Z : Qcabs (side - Qc_of_Z 400) = 0%Qc).
  { apply Qcle_antisym; [exact B | apply Qcabs_nonneg]. }
  apply Qcabs_null in Z.
  replace side with ((side - Qc_of_Z 400) + Qc_of_Z 400)%Qc by ring.
  rewrite Z. ring.
Qed.

(** In binary64 arithmetic the larger side of a scaled-down logo is within
    [400 * (2u + u^2)] of 400, for [u = 2^-53]. *)
Lemma scaleToFit_binary64 (w h : N) :
  (400 < w \/ 400 < h)%N ->
  exists side : Qc,
    larger (scaleToFit round53 {| img_width := w; img_height := h |}) w h = Fin side
    /\ (Qcabs (side - Qc_of_Z 400)
        <= Qc_of_Z 400 * (Qc_of_Z 2 * Q2Qc u53 + Q2Qc u53 * Q2Qc u53))%Qc.
Proof. exact (larger_side_bound round53 (Q2Qc u53) round53_faithful w h). Qed.

Lemma scaleToFit_spec_witness :
  let rnd := round53 in
  let u := Q2Qc u53 in
  let logoDims := {| img_width := 1000; img_height := 500 |} in
  let ratio := scale_ratio rnd logoDims in
  ratio = Math_min (num_div rnd (num_of_Z 400) (num_of_N 1000))
                   (num_div rnd (num_of_Z 400) (num_of_N 500)) (num_of_Z 1)
  /\ scaleToFit rnd logoDims
     = {| width := num_mul rnd (num_of_N 1000) ratio;
          height := num_mul rnd (num_of_N 500) ratio |}
  /\ ((1000 <= 400)%N -> (500 <= 400)%N ->
      ratio = Fin 1
      /\ scaleToFit rnd logoDims = {| width := num_of_N 1000; height := num_of_N 500 |})
  /\ ((400 < 1000 \/ 400 < 500)%N ->
      exists r side : Qc,
        ratio = Fin r /\ (0 < r)%Qc /\ (r <= 1)%Qc
        /\ larger (scaleToFit rnd logoDims) 1000 500 = Fin side
        /\ (Qcabs (side - Qc_of_Z 400)
            <= Qc_of_Z 400 * (Qc_of_Z 2 * u + u * u))%Qc).
Proof.
  exact (scaleToFit_spec round53 (Q2Qc u53) round53_faithful 1000 500).
Defined.



Lemma num_eqb_eq (a b : number) : num_eqb a b = true -> a = b.
Proof.
  destruct a as [p|s|], b as [q|t|]; simpl; try discriminate; try reflexivity.
  - unfold Qc_eqb. destruct (p ?= q)%Qc eqn:E; try discriminate.
    apply Qceq_alt in E. intros _. f_equal. exact E.
  - intros E. apply Bool.eqb_prop in E. f_equal. exact E.
Qed.

Lemma box_eq (a b : Box) :
  num_eqb (width a) (width b) = true -> num_eqb (height a) (height b) = true -> a = b.
Proof.
  destruct a, b. simpl. intros H1 H2.
  apply num_eqb_eq in H1. apply num_eqb_eq in H2. congruence.
Qed.

Lemma getLogoDimensions_loaded (W : World) (url : jsstring) (dims : LogoDimensions) :
  load_image W url = Some dims -> getLogoDimensions W url = Resolved dims.
Proof. intros H. unfold getLogoDimensions, new_Promise. rewrite H. reflexivity. Qed.

Lemma getLogoDimensions_failed (W : World) (url : jsstring) :
  load_image W url = None ->
  getLogoDimensions W url
  = Rejected (Error (lit "Failed to load logo image to determine dimensions.")).
Proof. intros H. unfold getLogoDimensions, new_Promise. rewrite H. reflexivity. Qed.

Section Resolution.

Variables (rnd : Qc -> Qc) (frac : Qc -> jsstring) (fonts : list Font) (W : World).

(** Once the logo is decoded, nothing in the three composers depends on
    its dimensions to decide between resolving and rejecting. *)
Lemma composers_resolve (d : DesignOptions) (dims : LogoDimensions) :
  logo_given (logo d) = true ->
  load_image W (logo_url (logo d)) = Some dims ->
  (exists doc, generateTextOnlySvg rnd frac fonts W d false = Resolved doc)
  /\ (exists doc, generateCombinedSvg rnd frac fonts W d = Resolved doc)
  /\ (exists doc, generateEngravingSvg rnd frac fonts W d = Resolved doc).
Proof.
  intros Hlogo Hload.
  assert (T : forall d', logo d' = logo d ->
            exists doc, generateTextOnlySvg rnd frac fonts W d' false = Resolved doc).
  { intros d' E. unfold generateTextOnlySvg. rewrite E, Hlogo.
    cbn [negb]. destruct (truthy (trim (text d'))); cbn [negb].
    - rewrite (getLogoDimensions_loaded _ _ _ Hload). cbn [await]. eexists. reflexivity.
    - eexists. reflexivity. }
  split; [apply T; reflexivity|]. split.
  - unfold generateCombinedSvg. rewrite Hlogo. cbn [negb].
    rewrite (getLogoDimensions_loaded _ _ _ Hload). cbn [await]. eexists. reflexivity.
  - unfold generateEngravingSvg. rewrite Hlogo. cbn [negb].
    rewrite (getLogoDimensions_loaded _ _ _ Hload). cbn [await].
    destruct (T (with_text_style d (lit "#000000") ts_none) eq_refl) as [doc E].
    rewrite E. cbn [await]. eexists. reflexivity.
Qed.

End Resolution.

Section ZeroDimension.

Variables (rnd : Qc -> Qc) (u : Qc).
Hypothesis rounding : faithful_rounding rnd u.
Variables (frac : Qc -> jsstring) (fonts : list Font) (W : World).

(** C3, as amended.  A logo decoded with width or height 0 is not
    rejected.  Dividing by the zero side gives Infinity, [Math.min] with 1
    keeps the ratio a finite number in (0, 1], the scaled box is finite
    with 0 for the zero side, and the three composers resolve. *)
Theorem zero_dimension_is_scaled (d : DesignOptions) (w h : N) :
  (w = 0 \/ h = 0)%N ->
  logo_given (logo d) = true ->
  load_image W (logo_url (logo d)) = Some {| img_width := w; img_height := h |} ->
  (exists r : Qc,
     scale_ratio rnd {| img_width := w; img_height := h |} = Fin r
     /\ (0 < r)%Qc /\ (r <= 1)%Qc)
  /\ (exists sw sh : Qc,
        scaleToFit rnd {| img_width := w; img_height := h |}
        = {| width := Fin sw; height := Fin sh |}
        /\ (w = 0%N -> sw = 0%Qc) /\ (h = 0%N -> sh = 0%Qc))
  /\ (exists doc, generateTextOnlySvg rnd frac fonts W d false = Resolved doc)
  /\ (exists doc, generateCombinedSvg rnd frac fonts W d = Resolved doc)
  /\ (exists doc, generateEngravingSvg rnd frac fonts W d = Resolved doc).
Proof.
  intros Hz Hlogo Hload.
  destruct (scale_ratio_finite rnd u rounding w h) as (r & R & R0 & R1).
  split; [exists r; auto|].
  split; [|exact (composers_resolve rnd frac fonts W d _ Hlogo Hload)].
  unfold scaleToFit. rewrite R. cbn [img_width img_height].
  exists (rnd (Qc_of_Z (Z.of_N w) * r))%Qc, (rnd (Qc_of_Z (Z.of_N h) * r))%Qc.
  split; [reflexivity|].
  assert (Z0 : forall r', rnd (Qc_of_Z (Z.of_N 0) * r')%Qc = 0%Qc).
  { intros r'. assert (E := mul_zero rnd u rounding r').
    unfold num_mul, num_of_N, num_of_Z in E. injection E as E. exact E. }
  split; intros ->; apply Z0.
Qed.

End ZeroDimension.


(** C3, as stated, fails: a logo decoded as 0 x 100 is scaled to the box
    0 x 100 and the composers resolve instead of rejecting. *)
Lemma zero_width_logo_is_accepted :
  scaleToFit round53 {| img_width := 0; img_height := 100 |}
    = {| width := num_of_Z 0; height := num_of_Z 100 |}
  /\ is_resolved (generateTextOnlySvg round53 no_frac sample_fonts (offline 0 100)
                    sample_design false) = true
  /\ is_resolved (generateCombinedSvg round53 no_frac sample_fonts (offline 0 100)
                    sample_design) = true
  /\ is_resolved (generateEngravingSvg round53 no_frac sample_fonts (offline 0 100)
                    sample_design) = true.
Proof.
  split; [|repeat split; vm_compute; reflexivity].
  apply box_eq; vm_compute; reflexivity.
Qed.

Lemma zero_dimension_is_scaled_witness :
  (exists r : Qc,
     scale_ratio round53 {| img_width := 0; img_height := 100 |} = Fin r
     /\ (0 < r)%Qc /\ (r <= 1)%Qc)
  /\ (exists sw sh : Qc,
        scaleToFit round53 {| img_width := 0; img_height := 100 |}
        = {| width := Fin sw; height := Fin sh |}
        /\ (0%N = 0%N -> sw = 0%Qc) /\ (100%N = 0%N -> sh = 0%Qc))
  /\ (exists doc, generateTextOnlySvg round53 no_frac sample_fonts (offline 0 100)
                    sample_design false = Resolved doc)
  /\ (exists doc, generateCombinedSvg round53 no_frac sample_fonts (offline 0 100)
                    sample_design = Resolved doc)
  /\ (exists doc, generateEngravingSvg round53 no_frac sample_fonts (offline 0 100)
                    sample_design = Resolved doc).
Proof.
  apply (zero_dimension_is_scaled round53 (Q2Qc u53) round53_faithful
           no_frac sample_fonts (offline 0 100) sample_design 0 100).
  - left. reflexivity.
  - reflexivity.
  - reflexivity.
Defined.


(** C5, as stated, fails in binary64 arithmetic: a 530 x 1 logo is scaled
    to width 400.00000000000006 (400 + 2^-44), not 400.  The quotient
    400 / 530 rounds up, and so does its product with 530.  The kernel's
    binary64 numbers give the same quotient and the same product. *)
Lemma scaled_width_of_530_is_not_400 :
  scale_ratio round53 {| img_width := 530; img_height := 1 |}
    = Fin (Q2Qc (6797886229993202 # 9007199254740992))
  /\ width (scaleToFit round53 {| img_width := 530; img_height := 1 |})
    = Fin (Q2Qc (7036874417766401 # 17592186044416))
  /\ Qc_ltb (Qc_of_Z 400) (Q2Qc (7036874417766401 # 17592186044416)) = true
  /\ Binary64.significand_exponent Binary64.ratio_530
     = Some (6797886229993202%positive, (-53)%Z)
  /\ Binary64.significand_exponent Binary64.width_530
     = Some (7036874417766401%positive, (-44)%Z).
Proof.
  split; [|split]; [| |repeat split; vm_compute; reflexivity].
  - apply num_eqb_eq. vm_compute. reflexivity.
  - apply num_eqb_eq. vm_compute. reflexivity.
Qed.

(* ================================================================== *)
(** * The markup of the composers *)

(** ** Words *)

Lemma split_ws_nonempty (s : jsstring) : split_ws s <> [].
Proof.
  induction s as [|c s IH]; simpl; [discriminate|].
  destruct (is_space c).
  - destruct s as [|c' s']; [discriminate|]. destruct (is_space c'); [exact IH | discriminate].
  - destruct (split_ws s); discriminate.
Qed.

Lemma split_ws_word (w t : jsstring) :
  forallb (fun c => negb (is_space c)) w = true ->
  split_ws (w ++ t) = (w ++ hd [] (split_ws t)) :: tl (split_ws t).
Proof.
  induction w as [|c w IH]; intros H.
  - simpl. destruct (split_ws t) eqn:E; [|reflexivity].
    exfalso. exact (split_ws_nonempty t E).
  - simpl in H. apply andb_prop in H. destruct H as [Hc Hw].
    cbn [app split_ws]. apply negb_true_iff in Hc. rewrite Hc.
    rewrite (IH Hw). reflexivity.
Qed.

Lemma split_ws_space (a : ascii) (u : jsstring) :
  is_space a = true ->
  split_ws (a :: u) =
  match u with
  | c :: _ => if is_space c then split_ws u else [] :: split_ws u
  | [] => [[]; []]
  end.
Proof. intros H. cbn [split_ws]. rewrite H. reflexivity. Qed.

Lemma split_ws_separator (s : jsstring) (c : ascii) (t : jsstring) :
  is_separator s -> is_space c = false ->
  split_ws (s ++ c :: t) = [] :: split_ws (c :: t).
Proof.
  intros [Hne Hs] Hc. induction s as [|a s IH]; [congruence|].
  simpl in Hs. apply andb_prop in Hs. destruct Hs as [Ha Hs].
  rewrite <- app_comm_cons, (split_ws_space a _ Ha).
  destruct s as [|b s'].
  - rewrite app_nil_l, Hc. reflexivity.
  - rewrite <- app_comm_cons. simpl in Hs. apply andb_prop in Hs. destruct Hs as [Hb Hs'].
    rewrite Hb. rewrite app_comm_cons. apply IH; [discriminate|].
    simpl. rewrite Hb, Hs'. reflexivity.
Qed.

(** [split(/\s+/)] gives back the words of a text that has no white space
    around them. *)
Lemma split_ws_words (w0 : jsstring) (rest : list (jsstring * jsstring)) :
  is_word w0 ->
  Forall (fun sw => is_separator (fst sw) /\ is_word (snd sw)) rest ->
  split_ws (words_text w0 rest) = w0 :: map snd rest.
Proof.
  revert w0. induction rest as [|[s w] rest IH]; intros w0 [Hne Hw] Hall.
  - unfold words_text. simpl. rewrite app_nil_r.
    rewrite <- (app_nil_r w0) at 1. rewrite (split_ws_word w0 [] Hw).
    simpl. rewrite app_nil_r. reflexivity.
  - inversion Hall as [|? ? [Hs Hw1] Hall']; subst. simpl in Hs, Hw1.
    unfold words_text. cbn [flat_map fst snd map].
    rewrite (split_ws_word w0 _ Hw).
    destruct Hw1 as [Hne1 Hw1'].
    destruct w as [|c w']; [congruence|].
    rewrite <- !app_assoc. rewrite <- app_comm_cons.
    assert (Hc : is_space c = false).
    { simpl in Hw1'. apply andb_prop in Hw1'. destruct Hw1' as [Hc _].
      apply negb_true_iff in Hc. exact Hc. }
    rewrite (split_ws_separator s c _ Hs Hc).
    cbn [hd tl]. rewrite app_nil_r. f_equal.
    change (c :: w' ++ flat_map (fun sw => fst sw ++ snd sw) rest)
      with (words_text (c :: w') rest).
    apply IH; [split; assumption | assumption].
Qed.

Lemma ceil_half_spec (n : nat) : ceil_half n = ((n + 1) / 2)%nat.
Proof.
  unfold ceil_half, Qceiling, Qfloor. cbn [Qdiv Qinv Qmult Qopp Qnum Qden inject_Z].
  apply Nat2Z.inj. rewrite Nat2Z.inj_div. 
  rewrite Z2Nat.id.
  - change (Z.of_nat 2) with 2%Z. rewrite Nat2Z.inj_add. cbn [Z.of_nat Pos.of_succ_nat Pos.mul].
    change (Z.pos (1 * 2)) with 2%Z.
    rewrite Z.mul_1_r.
    generalize (Z.of_nat n). intros z.
    Z.div_mod_to_equations. lia.
  - cbn [Pos.mul]. change (Z.pos (1 * 2)) with 2%Z. rewrite Z.mul_1_r.
    assert (0 <= Z.of_nat n)%Z by lia. Z.div_mod_to_equations. lia.
Qed.


(** ** Strings that lack a character *)

Lemma lacks_nil c : lacks c [].
Proof. reflexivity. Qed.

Lemma lacks_cons c x s : lacks c (x :: s) <-> Ascii.eqb x c = false /\ lacks c s.
Proof.
  unfold lacks. simpl. rewrite andb_true_iff, negb_true_iff. reflexivity.
Qed.

Lemma lacks_app c a b : lacks c (a ++ b) <-> lacks c a /\ lacks c b.
Proof. unfold lacks. rewrite forallb_app, andb_true_iff. reflexivity. Qed.

Lemma lacks_In c s : lacks c s <-> ~ In c s.
Proof.
  unfold lacks. rewrite forallb_forall. split.
  - intros H Hin. specialize (H c Hin). rewrite Ascii.eqb_refl in H. discriminate.
  - intros H x Hx. apply negb_true_iff. apply Ascii.eqb_neq. intros ->. exact (H Hx).
Qed.

Lemma lacks_flat_map c (f : ascii -> jsstring) s :
  (forall x, lacks c (f x)) -> lacks c (flat_map f s).
Proof.
  intros H. induction s as [|x s IH]; [reflexivity|].
  simpl. apply lacks_app. auto.
Qed.

Lemma lacks_replace_all_char c x r s :
  lacks c r -> lacks c s -> lacks c (replace_all_char x r s).
Proof.
  intros Hr Hs. unfold replace_all_char.
  induction s as [|y s IH]; [reflexivity|].
  apply lacks_cons in Hs. destruct Hs as [Hy Hs].
  simpl. apply lacks_app. split; [|auto].
  destruct (Ascii.eqb y x); [exact Hr|].
  apply lacks_cons. split; [exact Hy | reflexivity].
Qed.

(** [escapeXml] leaves none of the characters it replaces, the ampersand
    apart. *)
Lemma escapeXml_lacks c s :
  c = "<"%char \/ c = ">"%char \/ c = "'"%char \/ c = dq ->
  lacks c (escapeXml s).
Proof.
  intros Hc. unfold escapeXml. apply lacks_flat_map. intros x.
  destruct (Ascii.eqb x "<") eqn:E1;
    [destruct Hc as [Hc|[Hc|[Hc|Hc]]]; subst c; reflexivity|].
  destruct (Ascii.eqb x ">") eqn:E2;
    [destruct Hc as [Hc|[Hc|[Hc|Hc]]]; subst c; reflexivity|].
  destruct (Ascii.eqb x "&") eqn:E3;
    [destruct Hc as [Hc|[Hc|[Hc|Hc]]]; subst c; reflexivity|].
  destruct (Ascii.eqb x "'") eqn:E4;
    [destruct Hc as [Hc|[Hc|[Hc|Hc]]]; subst c; reflexivity|].
  destruct (Ascii.eqb x dq) eqn:E5;
    [destruct Hc as [Hc|[Hc|[Hc|Hc]]]; subst c; reflexivity|].
  apply lacks_cons. split; [|reflexivity].
  destruct Hc as [Hc|[Hc|[Hc|Hc]]]; subst c; assumption.
Qed.

Lemma url_ref_lacks v : lacks "(" v -> url_ref v = None.
Proof.
  intros H. unfold url_ref.
  destruct (starts_with (lit "url(#") v) eqn:E; [|reflexivity].
  exfalso.
  change (lit "url(#") with ["u"; "r"; "l"; "("; "#"]%char in E.
  destruct v as [|a [|b [|c [|e v]]]]; cbn [starts_with] in E;
    rewrite ?andb_false_r in E; try discriminate E.
  repeat (apply andb_prop in E; destruct E as [? E]).
  repeat (apply lacks_cons in H; destruct H as [? H]).
  match goal with
  | P : Ascii.eqb _ e = true, Q : Ascii.eqb e _ = false |- _ =>
      apply Ascii.eqb_eq in P; subst e; discriminate Q
  end.
Qed.

Lemma uint_chars (d : Decimal.uint) :
  forallb num_char (list_ascii_of_string (NilEmpty.string_of_uint d)) = true.
Proof. induction d; simpl; auto. Qed.

Lemma decimal_chars (z : Z) : forallb num_char (decimal z) = true.
Proof.
  unfold decimal, NilZero.string_of_int, NilZero.string_of_uint.
  destruct (Z.to_int z) as [d|d]; destruct d; try reflexivity;
    try (apply (uint_chars (_ d))); simpl; try apply uint_chars.
Qed.

Lemma decimal_lacks c z : num_char c = false -> lacks c (decimal z).
Proof.
  intros Hc. assert (H := decimal_chars z). unfold lacks.
  rewrite forallb_forall in *. intros x Hx. specialize (H x Hx).
  apply negb_true_iff. apply Ascii.eqb_neq. intros ->. congruence.
Qed.

Lemma numberToString_lacks (frac : Qc -> jsstring) c n :
  num_char c = false -> lacks c (lit "-Infinity") -> lacks c (lit "NaN") ->
  (forall q, lacks c (frac q)) -> lacks c (numberToString frac n).
Proof.
  intros Hc Hi Hn Hf. destruct n as [q|[]|]; simpl.
  - destruct (is_small_integer q); [apply decimal_lacks; exact Hc | apply Hf].
  - exact Hi.
  - apply lacks_cons in Hi. apply Hi.
  - exact Hn.
Qed.

Lemma numberToString_attr_text (frac : Qc -> jsstring) n :
  (forall q, lacks dq (frac q) /\ lacks "(" (frac q)) ->
  lacks dq (numberToString frac n) /\ lacks "(" (numberToString frac n).
Proof.
  intros H. split; apply numberToString_lacks; try reflexivity; intros q; apply H.
Qed.


(** ** Reading a document piece by piece *)

Lemma tokens_from_app (m : mode) (a b : jsstring) :
  tokens_from m (a ++ b) = tokens_from m a ++ tokens_from (final m a) b.
Proof.
  revert m. induction a as [|c a IH]; intros m; [reflexivity|].
  cbn [app tokens_from final fold_left]. rewrite IH, app_assoc. reflexivity.
Qed.

Lemma final_app (m : mode) (a b : jsstring) :
  final m (a ++ b) = final (final m a) b.
Proof. apply fold_left_app. Qed.

(** Character data without [<] is read as character data. *)
Lemma content_atom (after acc v : jsstring) :
  lacks "<" v ->
  tokens_from (Content after acc) v = []
  /\ final (Content after acc) v = Content after (acc ++ v).
Proof.
  revert acc. induction v as [|c v IH]; intros acc H.
  - rewrite app_nil_r. split; reflexivity.
  - apply lacks_cons in H. destruct H as [Hc Hv].
    cbn [tokens_from final fold_left step]. rewrite Hc. cbn [fst snd app].
    destruct (IH (acc ++ [c]) Hv) as [T F]. fold (final (Content after (acc ++ [c])) v).
    rewrite T, F, <- app_assoc. split; reflexivity.
Qed.

(** A string without a double quote is read as part of the attribute value
    it stands in. *)
Lemma value_atom (tag attr val v : jsstring) :
  lacks dq v ->
  tokens_from (InValue tag attr val) v = []
  /\ final (InValue tag attr val) v = InValue tag attr (val ++ v).
Proof.
  revert val. induction v as [|c v IH]; intros val H.
  - rewrite app_nil_r. split; reflexivity.
  - apply lacks_cons in H. destruct H as [Hc Hv].
    cbn [tokens_from final fold_left step]. rewrite Hc. cbn [fst snd app].
    destruct (IH (val ++ [c]) Hv) as [T F]. fold (final (InValue tag attr (val ++ [c])) v).
    rewrite T, F, <- app_assoc. split; reflexivity.
Qed.

Lemma before_beyond c s s2 : beyond c s = Some s2 -> s = before c s ++ c :: s2.
Proof.
  induction s as [|x s IH]; [discriminate|]. cbn [beyond before takeWhile].
  destruct (Ascii.eqb x c) eqn:E; cbn [negb].
  - intros [= <-]. apply Ascii.eqb_eq in E. subst. reflexivity.
  - intros H. cbn [app]. f_equal. exact (IH H).
Qed.

Lemma before_lacks c s : lacks c (before c s).
Proof.
  induction s as [|x s IH]; [reflexivity|]. cbn [before takeWhile].
  destruct (Ascii.eqb x c) eqn:E; cbn [negb]; [reflexivity|].
  apply lacks_cons. split; assumption.
Qed.

Lemma beyond_none c s : beyond c s = None -> lacks c s.
Proof.
  induction s as [|x s IH]; [reflexivity|]. cbn [beyond].
  destruct (Ascii.eqb x c) eqn:E; [discriminate|].
  intros H. apply lacks_cons. auto.
Qed.

(** A literal met inside an attribute value: up to its first double quote
    it belongs to the value, and the rest is read from inside the tag. *)
Lemma value_literal (tag attr val s s1 s2 : jsstring) (m : mode) (out : list token) :
  before dq s = s1 -> beyond dq s = Some s2 ->
  final (InTag tag []) s2 = m -> tokens_from (InTag tag []) s2 = out ->
  final (InValue tag attr val) s = m
  /\ tokens_from (InValue tag attr val) s = TAttr tag attr (val ++ s1) :: out.
Proof.
  intros <- H2 <- <-.
  assert (G : forall s', s' = before dq s ++ dq :: s2 ->
            final (InValue tag attr val) s' = final (InTag tag []) s2
            /\ tokens_from (InValue tag attr val) s'
               = TAttr tag attr (val ++ before dq s) :: tokens_from (InTag tag []) s2).
  { intros s' ->. rewrite final_app, tokens_from_app.
    destruct (value_atom tag attr val _ (before_lacks dq s)) as [T F].
    rewrite T, F. cbn [final fold_left tokens_from step].
    rewrite Ascii.eqb_refl. cbn [fst snd app]. split; reflexivity. }
  apply G, before_beyond, H2.
Qed.

(** A literal met in character data: up to its first [<] it belongs to the
    character data, and the rest is read from the start of a tag. *)
Lemma content_literal (after acc s s1 s2 : jsstring) (m : mode) (out : list token) :
  before "<" s = s1 -> beyond "<" s = Some s2 ->
  final (TagName []) s2 = m -> tokens_from (TagName []) s2 = out ->
  final (Content after acc) s = m
  /\ tokens_from (Content after acc) s = TText after (acc ++ s1) :: out.
Proof.
  intros <- H2 <- <-.
  assert (G : forall s', s' = before "<" s ++ "<"%char :: s2 ->
            final (Content after acc) s' = final (TagName []) s2
            /\ tokens_from (Content after acc) s'
               = TText after (acc ++ before "<" s) :: tokens_from (TagName []) s2).
  { intros s' ->. rewrite final_app, tokens_from_app.
    destruct (content_atom after acc _ (before_lacks "<" s)) as [T F].
    rewrite T, F. cbn [final fold_left tokens_from step].
    cbn [fst snd app]. split; reflexivity. }
  apply G, before_beyond, H2.
Qed.

Lemma reads_app m a m1 o1 b m2 o2 :
  reads m a m1 o1 -> reads m1 b m2 o2 -> reads m (a ++ b) m2 (o1 ++ o2).
Proof.
  intros [F1 T1] [F2 T2]. split.
  - rewrite final_app, F1. exact F2.
  - rewrite tokens_from_app, T1, F1, T2. reflexivity.
Qed.

Lemma reads_nil m : reads m [] m [].
Proof. split; reflexivity. Qed.

Lemma reads_computed m s m' out :
  final m s = m' -> tokens_from m s = out -> reads m s m' out.
Proof. intros; split; assumption. Qed.

Lemma reads_value_atom tag attr val v :
  lacks dq v -> reads (InValue tag attr val) v (InValue tag attr (val ++ v)) [].
Proof. intros H. destruct (value_atom tag attr val v H). split; assumption. Qed.

Lemma reads_content_atom after acc v :
  lacks "<" v -> reads (Content after acc) v (Content after (acc ++ v)) [].
Proof. intros H. destruct (content_atom after acc v H). split; assumption. Qed.

Lemma reads_value_literal tag attr val s s1 s2 m out :
  before dq s = s1 -> beyond dq s = Some s2 ->
  final (InTag tag []) s2 = m -> tokens_from (InTag tag []) s2 = out ->
  reads (InValue tag attr val) s m (TAttr tag attr (val ++ s1) :: out).
Proof. intros. apply (value_literal tag attr val s s1 s2 m out); assumption. Qed.

Lemma reads_content_literal after acc s s1 s2 m out :
  before "<" s = s1 -> beyond "<" s = Some s2 ->
  final (TagName []) s2 = m -> tokens_from (TagName []) s2 = out ->
  reads (Content after acc) s m (TText after (acc ++ s1) :: out).
Proof. intros. apply (content_literal after acc s s1 s2 m out); assumption. Qed.

(** Reading a string built with [++] from literals and from strings that
    are known by a hypothesis to lack the character that would end the
    mode they are met in.  Literals are read by computation; an
    accumulated value or text that holds a string known by hypothesis only
    is never computed with. *)
Ltac by_computation := vm_compute; reflexivity.

Ltac read_literal m s :=
  lazymatch m with
  | InValue ?t ?a ?val =>
      let r := eval vm_compute in (beyond dq s) in
      lazymatch r with
      | Some ?s2 =>
          let s1 := eval vm_compute in (before dq s) in
          let m' := eval vm_compute in (final (InTag t []) s2) in
          let out := eval vm_compute in (tokens_from (InTag t []) s2) in
          refine (reads_value_literal t a val s s1 s2 m' out _ _ _ _); by_computation
      | None => refine (reads_value_atom t a val s _); by_computation
      end
  | Content ?t ?acc =>
      let r := eval vm_compute in (beyond "<"%char s) in
      lazymatch r with
      | Some ?s2 =>
          let s1 := eval vm_compute in (before "<"%char s) in
          let m' := eval vm_compute in (final (TagName []) s2) in
          let out := eval vm_compute in (tokens_from (TagName []) s2) in
          refine (reads_content_literal t acc s s1 s2 m' out _ _ _ _); by_computation
      | None => refine (reads_content_atom t acc s _); by_computation
      end
  | _ =>
      let m' := eval vm_compute in (final m s) in
      let out := eval vm_compute in (tokens_from m s) in
      refine (reads_computed m s m' out _ _); by_computation
  end.

Ltac read_known := fail.

Ltac reading :=
  lazymatch goal with
  | |- reads ?m (?a ++ ?b) _ _ => eapply reads_app; [reading | reading]
  | |- reads ?m (lit ?s) _ _ => read_literal m (lit s)
  | |- reads ?m [] _ _ => apply reads_nil
  | |- reads (InValue ?t ?a ?val) ?v _ _ =>
      first [ read_known | apply reads_value_atom; assumption ]
  | |- reads (Content ?t ?acc) ?v _ _ =>
      first [ read_known | apply reads_content_atom; assumption ]
  | |- _ => read_known
  end.

(** ** The style attributes *)

Lemma read_style_attrs (tag : jsstring) (ts : TextStyle) (color : jsstring) :
  lacks dq color ->
  reads (InTag tag []) (getTextStyleSvg ts color (lit "text-element"))
    (InTag tag []) (style_attrs tag ts color).
Proof.
  intros H.
  assert (R : exists out,
             reads (InTag tag []) (getTextStyleSvg ts color (lit "text-element"))
               (InTag tag []) out
             /\ out = style_attrs tag ts color).
  { destruct ts; unfold getTextStyleSvg, style_attrs, attr;
      eexists; (split; [reading|]); rewrite ?app_nil_r; reflexivity. }
  destruct R as (out & R & ->). exact R.
Qed.

Lemma style_attrs_relevant (tag : jsstring) (ts : TextStyle) (color : jsstring) :
  filter relevant (style_attrs tag ts color) = style_attrs tag ts color.
Proof. destruct ts; reflexivity. Qed.



Ltac read_known ::=
  lazymatch goal with
  | |- reads (InTag ?t []) (getTextStyleSvg ?ts ?c (lit "text-element")) _ _ =>
      apply read_style_attrs; assumption
  end.


Lemma join_nil_cons (x : jsstring) (xs : list jsstring) :
  join [] (x :: xs) = x ++ join [] xs.
Proof. destruct xs; [symmetry; apply app_nil_r | reflexivity]. Qed.

(** ** Whole elements *)

Lemma filter_text_skip (t x : jsstring) (l : list token) :
  plain_tag t -> filter relevant (TText t x :: l) = filter relevant l.
Proof. intros H. cbn [filter relevant]. unfold plain_tag in H. rewrite H. reflexivity. Qed.

Lemma writes_app (a b : jsstring) (ska skb : list token) :
  writes a ska -> writes b skb -> writes (a ++ b) (ska ++ skb).
Proof.
  intros Ha Hb t acc Ht.
  destruct (Ha t acc Ht) as (t1 & acc1 & o1 & R1 & Ht1 & F1).
  destruct (Hb t1 acc1 Ht1) as (t2 & acc2 & o2 & R2 & Ht2 & F2).
  exists t2, acc2, (o1 ++ o2). split; [exact (reads_app _ _ _ _ _ _ _ R1 R2)|].
  split; [exact Ht2|]. rewrite filter_app, F1, F2. reflexivity.
Qed.

Lemma writes_nil : writes [] [].
Proof. intros t acc Ht. exists t, acc, []. repeat split. exact Ht. Qed.

Lemma writes_plain (s : jsstring) : lacks "<" s -> writes s [].
Proof.
  intros H t acc Ht. exists t, (acc ++ s), []. split; [|split; [exact Ht | reflexivity]].
  apply reads_content_atom, H.
Qed.

Lemma writes_eq (s : jsstring) (sk sk' : list token) :
  writes s sk' -> sk' = sk -> writes s sk.
Proof. intros H <-. exact H. Qed.

(** What is written at the start of a document is its skeleton. *)
Lemma writes_skeleton (s : jsstring) (sk : list token) : writes s sk -> skeleton s = sk.
Proof.
  intros H. destruct (H [] [] eq_refl) as (t' & acc' & out & [_ R] & _ & F).
  unfold skeleton, tokens. rewrite R. exact F.
Qed.

Lemma number_plain (frac : Qc -> jsstring) (n : number) :
  (forall q, lacks dq (frac q)) -> lacks dq (numberToString frac n).
Proof. intros H. apply numberToString_lacks; try reflexivity. exact H. Qed.

Lemma fontName_plain (fonts : list Font) (font : jsstring) :
  Forall (fun f => lacks dq (font_name f) /\ lacks "<" (font_name f)) fonts ->
  lacks dq (fontName_of fonts font) /\ lacks "<" (fontName_of fonts font).
Proof.
  intros fonts_plain. unfold fontName_of.
  destruct (find (fun f => string_eqb (font_id f) font) fonts) as [f|] eqn:E;
    [|split; reflexivity].
  destruct (truthy (font_name f)); [|split; reflexivity].
  apply find_some in E. destruct E as [Hin _].
  rewrite Forall_forall in fonts_plain. exact (fonts_plain f Hin).
Qed.

(** Printed numbers and escaped texts are given names, each with the one
    fact the reading needs about it. *)
Ltac name_numbers :=
  repeat match goal with
  | Hf : forall q, lacks dq (?frac q) |- context [numberToString ?frac ?n] =>
      let H := fresh "Hnum" in
      pose proof (number_plain frac n Hf) as H;
      generalize dependent (numberToString frac n); intros ? H
  end.

Ltac name_escaped :=
  repeat match goal with
  | |- context [escapeXml ?t] =>
      let H := fresh "Hesc" in
      pose proof (escapeXml_lacks "<" t (or_introl eq_refl)) as H;
      generalize dependent (escapeXml t); intros ? H
  end.

Ltac compare_skeletons :=
  rewrite ?app_nil_r, ?filter_app, ?style_attrs_relevant, <- ?app_assoc;
  repeat match goal with
  | Ht : plain_tag ?t |- context [TText ?t _ :: _] =>
      rewrite !(filter_text_skip t) by exact Ht
  end;
  by_computation.

(** A piece made of literals and named atoms is written by reading it. *)
Ltac written :=
  let t := fresh "t" in
  let acc := fresh "acc" in
  let Ht := fresh "Ht" in
  intros t acc Ht; name_numbers; name_escaped;
  eexists; eexists; eexists;
  split; [reading | split; [first [exact Ht | by_computation] | compare_skeletons]].

Section Layout.

Variables (rnd : Qc -> Qc) (frac : Qc -> jsstring) (fonts : list Font).

Hypothesis frac_plain : forall q, lacks dq (frac q).
Hypothesis fonts_plain :
  Forall (fun f => lacks dq (font_name f) /\ lacks "<" (font_name f)) fonts.

(** One line of the stacked layout. *)
Lemma writes_stacked_line (ts : TextStyle) (color fname x y word : jsstring) :
  lacks dq color -> lacks dq fname -> lacks dq x -> lacks dq y ->
  writes
    (lit "<text x=`" ++ x ++ lit "` y=`" ++ y ++ lit "` text-anchor=`middle` "
       ++ (getTextStyleSvg ts color (lit "text-element") ++ lit " font-family=`'"
             ++ fname ++ lit "', sans-serif` font-size=`50px`")
       ++ lit ">" ++ escapeXml word ++ lit "</text>")
    (text_element ts color (escapeXml word)).
Proof.
  intros Hc Hf Hx Hy. unfold text_element. written.
Qed.

Lemma writes_stacked (ts : TextStyle) (color fname x : jsstring) (ys : nat -> jsstring)
  (words : list jsstring) (i : nat) :
  lacks dq color -> lacks dq fname -> lacks dq x -> (forall k, lacks dq (ys k)) ->
  writes
    (join []
       (mapi_from (fun word k =>
          lit "<text x=`" ++ x ++ lit "` y=`" ++ ys k ++ lit "` text-anchor=`middle` "
            ++ (getTextStyleSvg ts color (lit "text-element") ++ lit " font-family=`'"
                  ++ fname ++ lit "', sans-serif` font-size=`50px`")
            ++ lit ">" ++ escapeXml word ++ lit "</text>") i words))
    (flat_map (fun word => text_element ts color (escapeXml word)) words).
Proof.
  intros Hc Hf Hx Hy. revert i.
  induction words as [|w ws IH]; intros i; [apply writes_nil|].
  cbn [mapi_from flat_map]. rewrite join_nil_cons.
  apply writes_app; [|apply IH].
  apply writes_stacked_line; auto.
Qed.

(** The text elements of a design are whole elements, and their skeleton
    is the layout's. *)
Lemma writes_text_elements (d : DesignOptions) (scaledLogo : Box) (center : Point) :
  lacks dq (textColor d) ->
  writes (getTextElements rnd frac fonts d scaledLogo center)
    (layout (style d) (textStyle d) (textColor d) (text d)).
Proof.
  intros Hcolor.
  destruct (fontName_plain fonts (font d) fonts_plain) as [Hfont _].
  destruct d as [lg txt fnt st ts color g1 g2].
  cbn [textColor style textStyle text font] in *.
  unfold getTextElements, arc_text.
  cbn [textColor style textStyle text font].
  generalize dependent (fontName_of fonts fnt). intros fname Hfont.
  destruct st; cbv zeta; unfold layout, arc, text_on_path, text_element.
  9: written.
  1-7: written.
  unfold mapi.
  apply (writes_stacked ts color fname (numberToString frac (px center))
           (fun k => numberToString frac
              (num_add rnd
                 (num_add rnd (num_add rnd (py center)
                                 (num_div rnd (height scaledLogo) (num_of_Z 2)))
                    (num_of_Z 30))
                 (num_mul rnd (num_of_nat k) (num_of_Z 60))))).
  - exact Hcolor.
  - exact Hfont.
  - apply number_plain, frac_plain.
  - intros k. apply number_plain, frac_plain.
Qed.

(** The same, for the reader: the text elements read from character
    data that follows an end tag or a self-closed tag. *)
Lemma read_text_elements (d : DesignOptions) (scaledLogo : Box) (center : Point)
  (acc : jsstring) :
  lacks dq (textColor d) ->
  exists out,
    (exists t' acc',
       reads (Content [] acc) (getTextElements rnd frac fonts d scaledLogo center)
         (Content t' acc') out)
    /\ filter relevant out = layout (style d) (textStyle d) (textColor d) (text d).
Proof.
  intros Hcolor.
  destruct (writes_text_elements d scaledLogo center Hcolor [] acc eq_refl)
    as (t' & acc' & out & R & _ & F).
  exists out. split; [exists t', acc'; exact R | exact F].
Qed.

End Layout.

(** ** The two halves of a text *)

(** The character data of the [text] and [textPath] elements can be read
    off the skeleton. *)
Lemma text_of_skeleton (tag s : jsstring) (out : list token) :
  tag = lit "text" \/ tag = lit "textPath" ->
  filter relevant (tokens s) = out ->
  text_of tag s
  = flat_map (fun t => match t with
                       | TText after content =>
                           if string_eqb after tag then [content] else []
                       | _ => []
                       end) out.
Proof.
  intros Htag <-. unfold text_of. induction (tokens s) as [|t ts IH]; [reflexivity|].
  cbn [flat_map filter]. destruct t as [tg|tg n v|tg|after content]; cbn [relevant].
  - cbn [flat_map app]. exact IH.
  - destruct (existsb (string_eqb n) relevant_names); cbn [flat_map app]; exact IH.
  - cbn [flat_map app]. exact IH.
  - destruct (string_eqb after (lit "text")) eqn:E1;
      destruct (string_eqb after (lit "textPath")) eqn:E2;
      cbn [orb flat_map]; rewrite IH; try reflexivity.
    destruct Htag as [-> | ->]; [rewrite E1 | rewrite E2]; reflexivity.
Qed.

Lemma style_attrs_no_text (tag0 tag : jsstring) (ts : TextStyle) (color : jsstring) :
  flat_map (fun t => match t with
                     | TText after content =>
                         if string_eqb after tag then [content] else []
                     | _ => []
                     end) (style_attrs tag0 ts color) = [].
Proof. destruct ts; reflexivity. Qed.

Section Halves.

Variables (rnd : Qc -> Qc) (frac : Qc -> jsstring) (fonts : list Font).

(** C8, for texts without white space around their words.  A text made
    of N words separated by runs of white space is split after its first
    ceil(N/2) = (N+1)/2 words: the first half is these words joined by one
    space each, the second half the other words.  The [split] layout
    writes the two halves, escaped, as the character data of its two
    [text] elements, and the [full_circle] layout as that of its two
    [textPath] elements, first half first. *)
Theorem halves_of_words (d : DesignOptions) (scaledLogo : Box) (center : Point)
  (w0 : jsstring) (rest : list (jsstring * jsstring)) :
  (forall q, lacks dq (frac q)) ->
  Forall (fun f => lacks dq (font_name f) /\ lacks "<" (font_name f)) fonts ->
  lacks dq (textColor d) ->
  is_word w0 ->
  Forall (fun sw => is_separator (fst sw) /\ is_word (snd sw)) rest ->
  text d = words_text w0 rest ->
  let words := w0 :: map snd rest in
  let n := ceil_half (List.length words) in
  let first := join (lit " ") (firstn n words) in
  let second := join (lit " ") (skipn n words) in
  n = ((List.length words + 1) / 2)%nat
  /\ split_halves (text d) = (first, second)
  /\ (style d = st_split ->
      text_of (lit "text") (getTextElements rnd frac fonts d scaledLogo center)
      = [escapeXml first; escapeXml second])
  /\ (style d = st_full_circle ->
      text_of (lit "textPath") (getTextElements rnd frac fonts d scaledLogo center)
      = [escapeXml first; escapeXml second]).
Proof.
  intros Hfrac Hfonts Hcolor Hw0 Hrest Htext words n first second.
  assert (Hsplit : split_halves (text d) = (first, second)).
  { unfold split_halves, slice, slice_from. rewrite Htext, (split_ws_words w0 rest Hw0 Hrest).
    fold words. fold n. rewrite Nat.sub_0_r. reflexivity. }
  destruct (read_text_elements rnd frac fonts Hfrac Hfonts d scaledLogo center [] Hcolor)
    as (out & (t' & acc' & [_ R]) & F).
  split; [apply ceil_half_spec|]. split; [exact Hsplit|].
  split; intros Hst.
  - rewrite (text_of_skeleton (lit "text") _ _ (or_introl eq_refl) eq_refl).
    unfold tokens. rewrite R, F, Hst. unfold layout, text_element.
    rewrite Hsplit. cbn [fst snd].
    rewrite !flat_map_app, !style_attrs_no_text. reflexivity.
  - rewrite (text_of_skeleton (lit "textPath") _ _ (or_intror eq_refl) eq_refl).
    unfold tokens. rewrite R, F, Hst. unfold layout, text_on_path.
    rewrite Hsplit. cbn [fst snd].
    rewrite !flat_map_app, !style_attrs_no_text. reflexivity.
Qed.

End Halves.

Lemma halves_of_words_witness :
  ceil_half 3 = 2%nat
  /\ split_halves (lit "A B C") = (lit "A B", lit "C")
  /\ (st_split = st_split ->
      text_of (lit "text")
        (getTextElements round53 no_frac sample_fonts (with_style sample_design st_split)
           {| width := num_of_Z 100; height := num_of_Z 200 |} (canvas_center round53))
      = [lit "A B"; lit "C"])
  /\ (st_split = st_full_circle ->
      text_of (lit "textPath")
        (getTextElements round53 no_frac sample_fonts (with_style sample_design st_split)
           {| width := num_of_Z 100; height := num_of_Z 200 |} (canvas_center round53))
      = [lit "A B"; lit "C"]).
Proof.
  apply (halves_of_words round53 no_frac sample_fonts (with_style sample_design st_split)
           {| width := num_of_Z 100; height := num_of_Z 200 |} (canvas_center round53)
           (lit "A") [(lit " ", lit "B"); (lit " ", lit "C")]).
  - intros q. reflexivity.
  - repeat constructor.
  - reflexivity.
  - split; [discriminate | reflexivity].
  - repeat constructor; discriminate.
  - reflexivity.
Defined.

(** C8, as stated, fails for a text with white space before its first
    word: [split(/\s+/)] then gives an empty first piece, which counts as
    a word.  The three words of [" A B C"] are split into [" A"] and
    ["B C"], in the [split] layout and on the two arcs of the
    [full_circle] layout. *)
Lemma leading_space_shifts_the_halves :
  split_halves (lit " A B C") = (lit " A", lit "B C")
  /\ text_of (lit "text")
       (getTextElements round53 no_frac sample_fonts
          (with_style (with_text sample_design (lit " A B C")) st_split)
          {| width := num_of_Z 100; height := num_of_Z 200 |} (canvas_center round53))
     = [lit " A"; lit "B C"]
  /\ text_of (lit "textPath")
       (getTextElements round53 no_frac sample_fonts
          (with_style (with_text sample_design (lit " A B C")) st_full_circle)
          {| width := num_of_Z 100; height := num_of_Z 200 |} (canvas_center round53))
     = [lit " A"; lit "B C"].
Proof. repeat split; vm_compute; reflexivity. Qed.

(** ** Escaping *)

Lemma unescape_plain (c : ascii) (r : jsstring) :
  Ascii.eqb c "&" = false -> unescape_from 0 (c :: r) = c :: unescape_from 0 r.
Proof.
  intros H. apply Ascii.eqb_neq in H.
  assert (E : Ascii.eqb "&" c = false) by (apply Ascii.eqb_neq; congruence).
  cbn [unescape_from].
  change (lit "&lt;") with ("&"%char :: lit "lt;").
  change (lit "&gt;") with ("&"%char :: lit "gt;").
  change (lit "&amp;") with ("&"%char :: lit "amp;").
  change (lit "&apos;") with ("&"%char :: lit "apos;").
  change (lit "&quot;") with ("&"%char :: lit "quot;").
  cbn [starts_with]. rewrite E. reflexivity.
Qed.

(** Decoding an escaped string gives the string back. *)
Lemma escapeXml_round_trip (s : jsstring) : unescapeXml (escapeXml s) = s.
Proof.
  unfold unescapeXml. induction s as [|c s IH]; [reflexivity|].
  unfold escapeXml. cbn [flat_map]. fold (escapeXml s).
  destruct (Ascii.eqb c "<") eqn:E1;
    [apply Ascii.eqb_eq in E1; subst c;
     change (unescape_from 0 (lit "&lt;" ++ escapeXml s))
       with ("<"%char :: unescape_from 0 (escapeXml s)); f_equal; exact IH|].
  destruct (Ascii.eqb c ">") eqn:E2;
    [apply Ascii.eqb_eq in E2; subst c;
     change (unescape_from 0 (lit "&gt;" ++ escapeXml s))
       with (">"%char :: unescape_from 0 (escapeXml s)); f_equal; exact IH|].
  destruct (Ascii.eqb c "&") eqn:E3;
    [apply Ascii.eqb_eq in E3; subst c;
     change (unescape_from 0 (lit "&amp;" ++ escapeXml s))
       with ("&"%char :: unescape_from 0 (escapeXml s)); f_equal; exact IH|].
  destruct (Ascii.eqb c "'") eqn:E4;
    [apply Ascii.eqb_eq in E4; subst c;
     change (unescape_from 0 (lit "&apos;" ++ escapeXml s))
       with ("'"%char :: unescape_from 0 (escapeXml s)); f_equal; exact IH|].
  destruct (Ascii.eqb c dq) eqn:E5;
    [apply Ascii.eqb_eq in E5; subst c;
     change (unescape_from 0 (lit "&quot;" ++ escapeXml s))
       with (dq :: unescape_from 0 (escapeXml s)); f_equal; exact IH|].
  cbn [app]. rewrite (unescape_plain c _ E3). f_equal. exact IH.
Qed.

Lemma escapeXml_markup_free (s : jsstring) : markup_free (escapeXml s).
Proof.
  repeat split; apply escapeXml_lacks; auto.
Qed.

Lemma texts_of_stacked (ts : TextStyle) (color : jsstring) (words : list jsstring) :
  flat_map (fun t => match t with
                     | TText after content =>
                         if string_eqb after (lit "text") then [content] else []
                     | _ => []
                     end)
    (flat_map (fun word => text_element ts color (escapeXml word)) words)
  = map escapeXml words.
Proof.
  induction words as [|w ws IH]; [reflexivity|].
  cbn [flat_map map]. rewrite flat_map_app, IH. unfold text_element.
  rewrite !flat_map_app, style_attrs_no_text. reflexivity.
Qed.

Section Escaping.

Variables (rnd : Qc -> Qc) (frac : Qc -> jsstring) (fonts : list Font).

(** The text elements of a design, read back: their skeleton is the one
    of the layout. *)
Lemma skeleton_text_elements (d : DesignOptions) (scaledLogo : Box) (center : Point) :
  (forall q, lacks dq (frac q)) ->
  Forall (fun f => lacks dq (font_name f) /\ lacks "<" (font_name f)) fonts ->
  lacks dq (textColor d) ->
  skeleton (getTextElements rnd frac fonts d scaledLogo center)
  = layout (style d) (textStyle d) (textColor d) (text d).
Proof.
  intros Hfrac Hfonts Hcolor.
  destruct (read_text_elements rnd frac fonts Hfrac Hfonts d scaledLogo center [] Hcolor)
    as (out & (t' & acc' & [_ R]) & F).
  unfold skeleton, tokens. rewrite R. exact F.
Qed.

(** The character data of a layout's elements is the escaped pieces of
    the text. *)
Lemma text_of_text_elements (d : DesignOptions) (scaledLogo : Box) (center : Point) :
  (forall q, lacks dq (frac q)) ->
  Forall (fun f => lacks dq (font_name f) /\ lacks "<" (font_name f)) fonts ->
  lacks dq (textColor d) ->
  text_of (text_tag (style d)) (getTextElements rnd frac fonts d scaledLogo center)
  = map escapeXml (pieces (style d) (text d)).
Proof.
  intros Hfrac Hfonts Hcolor.
  assert (Htag : text_tag (style d) = lit "text" \/ text_tag (style d) = lit "textPath")
    by (destruct (style d); auto).
  rewrite (text_of_skeleton _ _ _ Htag
             (skeleton_text_elements d scaledLogo center Hfrac Hfonts Hcolor)).
  destruct (style d); unfold layout, arc, text_on_path, text_element, text_tag, pieces;
    try apply texts_of_stacked;
    rewrite ?flat_map_app, ?style_attrs_no_text; reflexivity.
Qed.


End Escaping.



(** ** The definitions of a visual style and the font style block *)

Lemma writes_style_defs (ts : TextStyle) (color g1 g2 ns : jsstring) :
  lacks dq color -> lacks dq g1 -> lacks dq g2 -> lacks dq ns ->
  writes (getTextStyleDefs ts color g1 g2 ns) (style_defs ts ns).
Proof.
  intros Hc H1 H2 Hns.
  destruct ts; unfold getTextStyleDefs, style_defs, gradient_def;
    try apply writes_nil; written.
Qed.

Lemma fontUrl_plain (fname : jsstring) : lacks "<" fname -> lacks "<" (fontUrl_of fname).
Proof.
  intros H. unfold fontUrl_of. apply lacks_app. split; [reflexivity|].
  apply lacks_app. split; [|reflexivity].
  apply lacks_replace_all_char; [reflexivity | exact H].
Qed.

Lemma writes_import_style (url : jsstring) :
  lacks "<" url -> writes (import_style url) [TOpen (lit "style"); TClose (lit "style")].
Proof.
  intros H. unfold import_style.
  assert (Hu : lacks "<" (replace_all_char "&" (lit "&amp;") url))
    by (apply lacks_replace_all_char; [reflexivity | exact H]).
  generalize dependent (replace_all_char "&" (lit "&amp;") url). intros u Hu.
  written.
Qed.

Lemma writes_font_face_style (fname : jsstring) (fd : FontData) :
  lacks "<" fname -> lacks "<" (dataUri fd) -> lacks "<" (format fd) ->
  writes (font_face_style fname fd) [TOpen (lit "style"); TClose (lit "style")].
Proof.
  intros Hn Hu Hf. unfold font_face_style.
  generalize dependent (dataUri fd). intros uri Hu.
  generalize dependent (format fd). intros fmt Hf.
  written.
Qed.

(** ** The three documents *)

Lemma printed_viewbox (frac : Qc -> jsstring) :
  numberToString frac VIEWBOX_SIZE = lit "1000".
Proof. by_computation. Qed.

Ltac pieces :=
  lazymatch goal with
  | |- writes [] _ => apply writes_nil
  | |- writes ?s _ =>
      first [ eassumption | written | eapply writes_app; [pieces | pieces] ]
  end.

Section Documents.

Variable frac : Qc -> jsstring.
Hypothesis frac_plain : forall q, lacks dq (frac q).

Lemma writes_text_only_document (F D E : jsstring) (skD skE : list token) :
  writes F [TOpen (lit "style"); TClose (lit "style")] ->
  writes D skD -> writes E skE ->
  writes (text_only_document frac F D E)
    ([TOpen (lit "svg"); TOpen (lit "defs"); TOpen (lit "style"); TClose (lit "style")]
       ++ skD ++ [TClose (lit "defs")] ++ skE ++ [TClose (lit "svg")]).
Proof.
  intros HF HD HE. unfold text_only_document. rewrite !printed_viewbox.
  change (writes
            (lit "
<svg width=`1000` height=`1000` viewBox=`0 0 1000 1000` xmlns=`http://www.w3.org/2000/svg`>
  <defs>
    " ++ F ++ lit "
    " ++ D ++ lit "
  </defs>
  " ++ E ++ lit "
</svg>")
            ([TOpen (lit "svg"); TOpen (lit "defs")]
               ++ [TOpen (lit "style"); TClose (lit "style")]
               ++ [] ++ skD ++ [TClose (lit "defs")] ++ skE ++ [TClose (lit "svg")])).
  pieces.
Qed.


Lemma combined_document_pieces (F D logo : jsstring) (x y : number) (box : Box)
  (E : jsstring) :
  combined_document frac F D logo x y box E
  = lit "
<svg width=`1000` height=`1000` viewBox=`0 0 1000 1000` xmlns=`http://www.w3.org/2000/svg` xmlns:xlink=`http://www.w3.org/1999/xlink`>
  <defs>
    " ++ F ++ lit "
    " ++ D
    ++ (lit "
  </defs>
  <image 
    href=`" ++ logo ++ lit "` 
    x=`" ++ numberToString frac x ++ lit "` y=`" ++ numberToString frac y ++ lit "` 
    width=`" ++ numberToString frac (width box) ++ lit "` height=`" ++ numberToString frac (height box) ++ lit "` 
    preserveAspectRatio=`xMidYMid meet`
  />
  ")
    ++ E ++ lit "
</svg>".
Proof.
  unfold combined_document. rewrite !printed_viewbox, <- ?app_assoc. reflexivity.
Qed.

Lemma writes_combined_document (F D logo : jsstring) (x y : number) (box : Box)
  (E : jsstring) (skD skE : list token) :
  lacks dq logo ->
  writes F [TOpen (lit "style"); TClose (lit "style")] ->
  writes D skD -> writes E skE ->
  writes (combined_document frac F D logo x y box E)
    ([TOpen (lit "svg"); TOpen (lit "defs"); TOpen (lit "style"); TClose (lit "style")]
       ++ skD
       ++ [TClose (lit "defs"); TOpen (lit "image"); attr (lit "image") "href" logo]
       ++ skE ++ [TClose (lit "svg")]).
Proof.
  intros Hlogo HF HD HE. rewrite combined_document_pieces.
  change (writes ?doc ?sk) with
    (writes doc
       ([TOpen (lit "svg"); TOpen (lit "defs")]
          ++ [TOpen (lit "style"); TClose (lit "style")]
          ++ [] ++ skD
          ++ [TClose (lit "defs"); TOpen (lit "image"); attr (lit "image") "href" logo]
          ++ skE ++ [TClose (lit "svg")])).
  pieces.
Qed.

Lemma engraving_document_pieces (content logo : jsstring) (x y : number) (box : Box) :
  engraving_document frac content logo x y box
  = lit "
<svg width=`1000` height=`1000` viewBox=`0 0 1000 1000` xmlns=`http://www.w3.org/2000/svg` xmlns:xlink=`http://www.w3.org/1999/xlink`>
  <defs>
    <filter id=`monochrome`>
      <feColorMatrix type=`saturate` values=`0` />
    </filter>
  </defs>
  " ++ content
    ++ (lit "
  <image 
    href=`" ++ logo ++ lit "` 
    x=`" ++ numberToString frac x ++ lit "` y=`" ++ numberToString frac y ++ lit "` 
    width=`" ++ numberToString frac (width box) ++ lit "` height=`" ++ numberToString frac (height box) ++ lit "` 
    preserveAspectRatio=`xMidYMid meet`
    filter=`url(#monochrome)` 
  />
</svg>").
Proof.
  unfold engraving_document. rewrite !printed_viewbox, <- ?app_assoc. reflexivity.
Qed.

Lemma writes_engraving_document (content logo : jsstring) (x y : number) (box : Box)
  (sk : list token) :
  lacks dq logo -> writes content sk ->
  writes (engraving_document frac content logo x y box) (engraving_skeleton sk logo).
Proof.
  intros Hlogo Hc. rewrite engraving_document_pieces. unfold engraving_skeleton.
  pieces.
Qed.

End Documents.

(** ** What the skeleton keeps *)

Lemma flat_map_skeleton {A} (f : token -> list A) (s : jsstring) :
  (forall t, relevant t = false -> f t = []) ->
  flat_map f (tokens s) = flat_map f (skeleton s).
Proof.
  intros H. unfold skeleton. induction (tokens s) as [|t ts IH]; [reflexivity|].
  cbn [flat_map filter]. destruct (relevant t) eqn:E.
  - cbn [flat_map]. rewrite IH. reflexivity.
  - rewrite (H t E), IH. reflexivity.
Qed.

Lemma elements_skeleton (s : jsstring) :
  elements s
  = flat_map (fun t => match t with TOpen tag => [tag] | _ => [] end) (skeleton s).
Proof. apply flat_map_skeleton. intros [tg|tg n v|tg|a c]; try discriminate; reflexivity. Qed.

Lemma end_tags_skeleton (s : jsstring) :
  end_tags s
  = flat_map (fun t => match t with TClose tag => [tag] | _ => [] end) (skeleton s).
Proof. apply flat_map_skeleton. intros [tg|tg n v|tg|a c]; try discriminate; reflexivity. Qed.

Lemma string_eqb_refl (a : jsstring) : string_eqb a a = true.
Proof.
  induction a as [|x a IH]; [reflexivity|]. cbn [string_eqb].
  rewrite Ascii.eqb_refl, IH. reflexivity.
Qed.

Lemma string_eqb_eq (a b : jsstring) : string_eqb a b = true -> a = b.
Proof.
  revert b. induction a as [|x a IH]; intros [|y b]; cbn [string_eqb]; try discriminate.
  - reflexivity.
  - intros H. apply andb_prop in H. destruct H as [Hx Hab].
    apply Ascii.eqb_eq in Hx. subst y. f_equal. apply IH, Hab.
Qed.

Lemma ids_skeleton (s : jsstring) : ids s = flat_map id_of (skeleton s).
Proof.
  apply flat_map_skeleton. intros [tg|tg n v|tg|a c]; try reflexivity.
  cbn [relevant id_of]. destruct (string_eqb n (lit "id")) eqn:E; [|reflexivity].
  apply string_eqb_eq in E. subst n. discriminate.
Qed.

(** ** The engraving of a design without text *)

Section BlankEngraving.

Variables (rnd : Qc -> Qc) (frac : Qc -> jsstring) (fonts : list Font) (W : World).

(** C10.  For a design with a logo that the browser decodes and with an
    empty or white-space-only text, the inner document is the empty
    canvas: it has no [<defs>], [indexOf] gives -1, [substring(-1)] the
    whole canvas, and [replace] takes its [</svg>] away.  What is left,
    the start tag of the canvas, is embedded in the engraving document,
    which so has two [svg] start tags, the second inside the first, and
    one [svg] end tag. *)
Theorem blank_text_engraving_nests_svg (d : DesignOptions) (dims : LogoDimensions) :
  (forall q, lacks dq (frac q)) ->
  logo_given (logo d) = true ->
  lacks dq (logo_url (logo d)) ->
  load_image W (logo_url (logo d)) = Some dims ->
  forallb is_space (text d) = true ->
  indexOf (lit "<defs>") empty_canvas = (-1)%Z
  /\ JsString.substring empty_canvas (-1)%Z = empty_canvas
  /\ strip_envelope empty_canvas
     = lit "<svg xmlns=`http://www.w3.org/2000/svg` width=`1000` height=`1000`>"
  /\ exists doc,
       generateEngravingSvg rnd frac fonts W d = Resolved doc
       /\ skeleton doc = engraving_skeleton [TOpen (lit "svg")] (logo_url (logo d))
       /\ elements doc
          = [lit "svg"; lit "defs"; lit "filter"; lit "feColorMatrix"; lit "svg"; lit "image"]
       /\ end_tags doc = [lit "filter"; lit "defs"; lit "svg"].
Proof.
  intros Hfrac Hlogo Hurl Hload Hblank.
  split; [by_computation|]. split; [by_computation|]. split; [by_computation|].
  unfold generateEngravingSvg. rewrite Hlogo. cbn [negb].
  rewrite (getLogoDimensions_loaded _ _ _ Hload). cbn [await].
  assert (E : generateTextOnlySvg rnd frac fonts W
                (with_text_style d (lit "#000000") ts_none) false
              = Resolved empty_canvas).
  { unfold generateTextOnlySvg. cbn [logo text with_text_style].
    rewrite Hlogo, (trim_blank _ Hblank). reflexivity. }
  rewrite E. cbn [await]. eexists. split; [reflexivity|].
  assert (S : skeleton
                (engraving_document frac (strip_envelope empty_canvas) (logo_url (logo d))
                   (num_sub rnd (px (canvas_center rnd))
                      (num_div rnd (width (scaleToFit rnd dims)) (num_of_Z 2)))
                   (num_sub rnd (py (canvas_center rnd))
                      (num_div rnd (height (scaleToFit rnd dims)) (num_of_Z 2)))
                   (scaleToFit rnd dims))
              = engraving_skeleton [TOpen (lit "svg")] (logo_url (logo d))).
  { apply writes_skeleton, writes_engraving_document; [exact Hfrac | exact Hurl |].
    replace (strip_envelope empty_canvas)
      with (lit "<svg xmlns=`http://www.w3.org/2000/svg` width=`1000` height=`1000`>")
      by by_computation.
    written. }
  split; [exact S|].
  rewrite elements_skeleton, end_tags_skeleton, S. split; reflexivity.
Qed.

End BlankEngraving.

Lemma blank_text_engraving_nests_svg_witness :
  indexOf (lit "<defs>") empty_canvas = (-1)%Z
  /\ JsString.substring empty_canvas (-1)%Z = empty_canvas
  /\ strip_envelope empty_canvas
     = lit "<svg xmlns=`http://www.w3.org/2000/svg` width=`1000` height=`1000`>"
  /\ exists doc,
       generateEngravingSvg round53 no_frac sample_fonts (offline 100 200)
         (with_text sample_design (lit "   ")) = Resolved doc
       /\ skeleton doc
          = engraving_skeleton [TOpen (lit "svg")] (lit "data:image/png;base64,iVBORw0KGgo=")
       /\ elements doc
          = [lit "svg"; lit "defs"; lit "filter"; lit "feColorMatrix"; lit "svg"; lit "image"]
       /\ end_tags doc = [lit "filter"; lit "defs"; lit "svg"].
Proof.
  apply (blank_text_engraving_nests_svg round53 no_frac sample_fonts (offline 100 200)
           (with_text sample_design (lit "   ")) {| img_width := 100; img_height := 200 |}).
  - intros q. reflexivity.
  - reflexivity.
  - reflexivity.
  - reflexivity.
  - reflexivity.
Defined.

(** ** Searching and replacing *)

Lemma starts_with_length (p s : jsstring) :
  starts_with p s = true -> (List.length p <= List.length s)%nat.
Proof.
  revert s. induction p as [|a p IH]; intros s H; [cbn; lia|].
  destruct s as [|b s]; [discriminate|]. cbn [starts_with] in H.
  apply andb_prop in H. destruct H as [_ H]. specialize (IH s H). cbn [List.length]. lia.
Qed.

Lemma starts_with_app_true (p s r : jsstring) :
  starts_with p s = true -> starts_with p (s ++ r) = true.
Proof.
  revert s. induction p as [|a p IH]; intros s H; [reflexivity|].
  destruct s as [|b s]; [discriminate|]. cbn [starts_with app] in *.
  apply andb_prop in H. destruct H as [Hab H]. rewrite Hab, (IH s H). reflexivity.
Qed.

Lemma starts_with_app_cases (p s r : jsstring) :
  starts_with p (s ++ r) = true -> starts_with p s = true \/ starts_with s p = true.
Proof.
  revert s. induction p as [|a p IH]; intros s H; [left; reflexivity|].
  destruct s as [|b s]; [right; reflexivity|]. cbn [starts_with app] in *.
  apply andb_prop in H. destruct H as [Hab H].
  destruct (IH s H) as [L | R].
  - left. rewrite Hab, L. reflexivity.
  - right. apply Ascii.eqb_eq in Hab. subst b. rewrite Ascii.eqb_refl, R. reflexivity.
Qed.

Lemma starts_with_app_false (p s r : jsstring) :
  starts_with p s = false -> (List.length p <= List.length s)%nat ->
  starts_with p (s ++ r) = false.
Proof.
  revert s. induction p as [|a p IH]; intros s H L; [discriminate|].
  destruct s as [|b s]; [cbn in L; lia|]. cbn [starts_with app List.length] in *.
  destruct (Ascii.eqb a b); [|reflexivity]. cbn [andb] in *. apply IH; [exact H | lia].
Qed.

Lemma index_from_found (p s : jsstring) (i j : Z) :
  index_from p s i = j -> j <> (-1)%Z -> (List.length p <= List.length s)%nat.
Proof.
  revert i. induction s as [|c s IH]; intros i H Hj; cbn [index_from] in H.
  - destruct (starts_with p []) eqn:E; [apply starts_with_length, E | congruence].
  - destruct (starts_with p (c :: s)) eqn:E; [apply starts_with_length, E|].
    specialize (IH _ H Hj). cbn [List.length]. lia.
Qed.

(** A match that is found is found at the same place when the string
    goes on. *)
Lemma index_from_app (p s r : jsstring) (i j : Z) :
  index_from p s i = j -> j <> (-1)%Z -> index_from p (s ++ r) i = j.
Proof.
  revert i. induction s as [|c s IH]; intros i H Hj; cbn [index_from] in H.
  - destruct (starts_with p []) eqn:E; [|congruence].
    destruct p; [|discriminate]. destruct r; exact H.
  - cbn [app index_from]. destruct (starts_with p (c :: s)) eqn:E.
    + change (c :: s ++ r) with ((c :: s) ++ r).
      rewrite (starts_with_app_true _ _ r E). exact H.
    + change (c :: s ++ r) with ((c :: s) ++ r).
      rewrite (starts_with_app_false _ _ r E).
      * apply IH; assumption.
      * pose proof (index_from_found _ _ _ _ H Hj). cbn [List.length]. lia.
Qed.

Lemma indexOf_first (p pre rest : jsstring) :
  indexOf p (pre ++ p) = Z.of_nat (List.length pre) ->
  indexOf p (pre ++ p ++ rest) = Z.of_nat (List.length pre).
Proof.
  intros H. rewrite app_assoc. apply index_from_app; [exact H | lia].
Qed.

Lemma substring_skip (pre s : jsstring) :
  JsString.substring (pre ++ s) (Z.of_nat (List.length pre)) = s.
Proof.
  unfold JsString.substring. rewrite Z.max_r by lia. rewrite Nat2Z.id.
  rewrite skipn_app, skipn_all, Nat.sub_diag. reflexivity.
Qed.

Lemma replace_first_cons (p : jsstring) (c : ascii) (s : jsstring) :
  starts_with p (c :: s) = false ->
  replace_first p [] (c :: s) = c :: replace_first p [] s.
Proof. intros H. cbn [replace_first]. rewrite H. reflexivity. Qed.

Lemma free_of_nil (p : jsstring) : free_of p [].
Proof. intros r. reflexivity. Qed.

Lemma free_of_app (p a b : jsstring) : free_of p a -> free_of p b -> free_of p (a ++ b).
Proof. intros Ha Hb r. rewrite <- !app_assoc, Ha, Hb. reflexivity. Qed.

Lemma free_of_checked (p s : jsstring) : no_start p s = true -> free_of p s.
Proof.
  induction s as [|c s IH]; intros H r; [reflexivity|].
  cbn [no_start] in H. apply andb_prop in H. destruct H as [H Hs].
  apply andb_prop in H. destruct H as [H1 H2].
  apply negb_true_iff in H1, H2.
  cbn [app]. rewrite replace_first_cons.
  - rewrite (IH Hs). reflexivity.
  - destruct (starts_with p (c :: s ++ r)) eqn:E; [|reflexivity].
    destruct (starts_with_app_cases p (c :: s) r E); congruence.
Qed.

Lemma free_of_lacks (c : ascii) (p s : jsstring) : lacks c s -> free_of (c :: p) s.
Proof.
  induction s as [|x s IH]; intros H r; [reflexivity|].
  apply lacks_cons in H. destruct H as [Hx Hs].
  cbn [app]. rewrite replace_first_cons.
  - rewrite (IH Hs). reflexivity.
  - cbn [starts_with]. rewrite Ascii.eqb_sym, Hx. reflexivity.
Qed.

Lemma free_of_end_tag (s : jsstring) : lacks "<" s -> free_of (lit "</svg>") s.
Proof. apply (free_of_lacks "<" (lit "/svg>")). Qed.

(** A string built with [++] from literals and from strings without [<]
    holds no [</svg>]. *)
Ltac no_end_tag :=
  lazymatch goal with
  | |- free_of _ (?a ++ ?b) => apply free_of_app; [no_end_tag | no_end_tag]
  | |- free_of _ [] => apply free_of_nil
  | |- free_of _ (lit ?s) => apply free_of_checked; by_computation
  | |- free_of _ _ => first [ assumption | apply free_of_end_tag; assumption ]
  end.

Lemma number_no_markup (frac : Qc -> jsstring) (n : number) :
  (forall q, lacks "<" (frac q)) -> lacks "<" (numberToString frac n).
Proof. intros H. apply numberToString_lacks; try reflexivity. exact H. Qed.

Section Envelope.

Variables (rnd : Qc -> Qc) (frac : Qc -> jsstring) (fonts : list Font).

Hypothesis frac_no_markup : forall q, lacks "<" (frac q).
Hypothesis fonts_plain :
  Forall (fun f => lacks dq (font_name f) /\ lacks "<" (font_name f)) fonts.

Ltac name_all_numbers :=
  repeat match goal with
  | |- context [numberToString frac ?n] =>
      let H := fresh "Hnum" in
      pose proof (number_no_markup frac n frac_no_markup) as H;
      generalize dependent (numberToString frac n); intros ? H
  end.

Lemma free_style_attrs (ts : TextStyle) (color : jsstring) :
  lacks "<" color ->
  free_of (lit "</svg>") (getTextStyleSvg ts color (lit "text-element")).
Proof. intros H. destruct ts; unfold getTextStyleSvg; no_end_tag. Qed.

Lemma free_stacked (ts : TextStyle) (color fname x : jsstring) (ys : nat -> jsstring)
  (words : list jsstring) (i : nat) :
  lacks "<" color -> lacks "<" fname -> lacks "<" x -> (forall k, lacks "<" (ys k)) ->
  free_of (lit "</svg>")
    (join []
       (mapi_from (fun word k =>
          lit "<text x=`" ++ x ++ lit "` y=`" ++ ys k ++ lit "` text-anchor=`middle` "
            ++ (getTextStyleSvg ts color (lit "text-element") ++ lit " font-family=`'"
                  ++ fname ++ lit "', sans-serif` font-size=`50px`")
            ++ lit ">" ++ escapeXml word ++ lit "</text>") i words)).
Proof.
  intros Hc Hf Hx Hy. revert i.
  induction words as [|w ws IH]; intros i; [apply free_of_nil|].
  cbn [mapi_from]. rewrite join_nil_cons.
  apply free_of_app; [|apply IH].
  pose proof (free_style_attrs ts color Hc) as Hs.
  pose proof (escapeXml_lacks "<" w (or_introl eq_refl)) as Hw.
  pose proof (Hy i) as Hyi.
  no_end_tag.
Qed.

(** No [</svg>] starts inside the text elements. *)
Lemma free_text_elements (d : DesignOptions) (scaledLogo : Box) (center : Point) :
  lacks "<" (textColor d) ->
  free_of (lit "</svg>") (getTextElements rnd frac fonts d scaledLogo center).
Proof.
  intros Hcolor.
  destruct (fontName_plain fonts (font d) fonts_plain) as [_ Hfont].
  destruct d as [lg txt fnt st ts color g1 g2].
  cbn [textColor style textStyle text font] in *.
  unfold getTextElements, arc_text.
  cbn [textColor style textStyle text font].
  generalize dependent (fontName_of fonts fnt). intros fname Hfont.
  pose proof (free_style_attrs ts color Hcolor) as Hs.
  destruct st; cbv zeta.
  8: { unfold mapi.
       apply (free_stacked ts color fname (numberToString frac (px center))
                (fun k => numberToString frac
                   (num_add rnd
                      (num_add rnd (num_add rnd (py center)
                                      (num_div rnd (height scaledLogo) (num_of_Z 2)))
                         (num_of_Z 30))
                      (num_mul rnd (num_of_nat k) (num_of_Z 60)))));
         auto using number_no_markup. }
  all: name_all_numbers;
    repeat match goal with
    | |- context [escapeXml ?t] =>
        let H := fresh "Hesc" in
        pose proof (escapeXml_lacks "<" t (or_introl eq_refl)) as H;
        generalize dependent (escapeXml t); intros ? H
    end;
    no_end_tag.
Qed.

(** What the engraving keeps of a text-only document: the part from
    [<defs>] on, without the [</svg>] at its end. *)
Lemma strip_text_only_document (F D E : jsstring) :
  free_of (lit "</svg>") F -> free_of (lit "</svg>") D -> free_of (lit "</svg>") E ->
  strip_envelope (text_only_document frac F D E)
  = lit "<defs>
    " ++ F ++ lit "
    " ++ D ++ lit "
  </defs>
  " ++ E ++ lit "
".
Proof.
  intros HF HD HE. unfold text_only_document. rewrite !printed_viewbox.
  change (strip_envelope ?doc) with
    (strip_envelope
       (lit "
<svg width=`1000` height=`1000` viewBox=`0 0 1000 1000` xmlns=`http://www.w3.org/2000/svg`>
  " ++ lit "<defs>" ++ lit "
    " ++ F ++ lit "
    " ++ D ++ lit "
  </defs>
  " ++ E ++ lit "
</svg>")).
  unfold strip_envelope.
  rewrite indexOf_first by by_computation. rewrite substring_skip.
  rewrite (free_of_checked (lit "</svg>") (lit "<defs>") eq_refl).
  rewrite (free_of_checked (lit "</svg>") (lit "
    ") eq_refl).
  rewrite HF.
  rewrite (free_of_checked (lit "</svg>") (lit "
    ") eq_refl).
  rewrite HD.
  rewrite (free_of_checked (lit "</svg>") (lit "
  </defs>
  ") eq_refl).
  rewrite HE. reflexivity.
Qed.

End Envelope.

(** ** The documents of the composers *)

Section Composers.

Variables (rnd : Qc -> Qc) (frac : Qc -> jsstring) (fonts : list Font) (W : World).

(** The text-only document of a design with a decoded logo and a text,
    for a download (without embedding the font). *)
Lemma generateTextOnlySvg_download (d : DesignOptions) (dims : LogoDimensions) :
  logo_given (logo d) = true ->
  load_image W (logo_url (logo d)) = Some dims ->
  truthy (trim (text d)) = true ->
  generateTextOnlySvg rnd frac fonts W d false
  = Resolved
      (text_only_document frac
         (import_style (fontUrl_of (fontName_of fonts (font d))))
         (getTextStyleDefs (textStyle d) (textColor d) (gradientStartColor d)
            (gradientEndColor d) (lit "text-element"))
         (getTextElements rnd frac fonts d (scaleToFit rnd dims) (canvas_center rnd))).
Proof.
  intros Hlogo Hload Htext. unfold generateTextOnlySvg.
  rewrite Hlogo, Htext. cbn [negb].
  rewrite (getLogoDimensions_loaded _ _ _ Hload). reflexivity.
Qed.

(** With the font embedded, the document differs in its font style block
    only, which holds either the import or the font read by the browser. *)
Lemma generateTextOnlySvg_embedded (d : DesignOptions) (dims : LogoDimensions)
  (doc : jsstring) :
  logo_given (logo d) = true ->
  load_image W (logo_url (logo d)) = Some dims ->
  truthy (trim (text d)) = true ->
  generateTextOnlySvg rnd frac fonts W d true = Resolved doc ->
  exists F,
    doc = text_only_document frac F
            (getTextStyleDefs (textStyle d) (textColor d) (gradientStartColor d)
               (gradientEndColor d) (lit "text-element"))
            (getTextElements rnd frac fonts d (scaleToFit rnd dims) (canvas_center rnd))
    /\ (F = import_style (fontUrl_of (fontName_of fonts (font d)))
        \/ exists blob uri,
             read_as_data_url W blob = ReadOk uri
             /\ F = font_face_style (fontName_of fonts (font d))
                      {| dataUri := uri; format := lit "woff2" |}).
Proof.
  intros Hlogo Hload Htext. unfold generateTextOnlySvg.
  rewrite Hlogo, Htext. cbn [negb].
  rewrite (getLogoDimensions_loaded _ _ _ Hload). cbn [await].
  destruct (fetchAndEncodeFont_outcome W (fontUrl_of (fontName_of fonts (font d))))
    as [E | [blob E]]; rewrite E.
  - cbn [await]. change (truthy (dataUri empty_font)) with false. cbn [await].
    intros [= <-]. eexists. split; [reflexivity|]. left. reflexivity.
  - rewrite read_font_outcome. destruct (read_as_data_url W blob) as [uri|] eqn:R.
    + cbn [await dataUri]. destruct (truthy uri); cbn [await]; intros [= <-];
        eexists; (split; [reflexivity|]); [right; exists blob, uri; split; [exact R | reflexivity] | left; reflexivity].
    + discriminate.
Qed.

Lemma generateCombinedSvg_document (d : DesignOptions) (dims : LogoDimensions) :
  logo_given (logo d) = true ->
  load_image W (logo_url (logo d)) = Some dims ->
  generateCombinedSvg rnd frac fonts W d
  = Resolved
      (combined_document frac
         (lit "<style>@import url('"
            ++ replace_all_char "&" (lit "&amp;") (fontUrl_of (fontName_of fonts (font d)))
            ++ lit "');</style>")
         (getTextStyleDefs (textStyle d) (textColor d) (gradientStartColor d)
            (gradientEndColor d) (lit "design-element"))
         (logo_url (logo d))
         (num_sub rnd (px (canvas_center rnd))
            (num_div rnd (width (scaleToFit rnd dims)) (num_of_Z 2)))
         (num_sub rnd (py (canvas_center rnd))
            (num_div rnd (height (scaleToFit rnd dims)) (num_of_Z 2)))
         (scaleToFit rnd dims)
         (if truthy (trim (text d))
          then getTextElements rnd frac fonts d (scaleToFit rnd dims) (canvas_center rnd)
          else [])).
Proof.
  intros Hlogo Hload. unfold generateCombinedSvg.
  rewrite Hlogo. cbn [negb].
  rewrite (getLogoDimensions_loaded _ _ _ Hload). reflexivity.
Qed.

Lemma generateEngravingSvg_document (d : DesignOptions) (dims : LogoDimensions)
  (textSvg : jsstring) :
  logo_given (logo d) = true ->
  load_image W (logo_url (logo d)) = Some dims ->
  generateTextOnlySvg rnd frac fonts W (with_text_style d (lit "#000000") ts_none) false
  = Resolved textSvg ->
  generateEngravingSvg rnd frac fonts W d
  = Resolved
      (engraving_document frac (strip_envelope textSvg) (logo_url (logo d))
         (num_sub rnd (px (canvas_center rnd))
            (num_div rnd (width (scaleToFit rnd dims)) (num_of_Z 2)))
         (num_sub rnd (py (canvas_center rnd))
            (num_div rnd (height (scaleToFit rnd dims)) (num_of_Z 2)))
         (scaleToFit rnd dims)).
Proof.
  intros Hlogo Hload HT. unfold generateEngravingSvg.
  rewrite Hlogo. cbn [negb].
  rewrite (getLogoDimensions_loaded _ _ _ Hload). cbn [await].
  rewrite HT. reflexivity.
Qed.

End Composers.

(** ** The engraving *)

Lemma paint_of_app (tag : jsstring) (a b : list token) :
  paint_of tag (a ++ b) = paint_of tag a ++ paint_of tag b.
Proof. apply flat_map_app. Qed.

(** Without visual style, the only paint attribute of the text elements
    is the fill. *)
Lemma paint_of_plain_layout (tag : jsstring) (st : DesignStyle) (color text : jsstring) :
  tag = lit "text" \/ tag = lit "textPath" ->
  Forall (fun nv => nv = (lit "fill", color)) (paint_of tag (layout st ts_none color text)).
Proof.
  intros Htag.
  assert (S : forall words,
             Forall (fun nv => nv = (lit "fill", color))
               (paint_of tag
                  (flat_map (fun word => text_element ts_none color (escapeXml word)) words))).
  { induction words as [|w ws IH]; [constructor|].
    cbn [flat_map]. rewrite paint_of_app. apply Forall_app. split; [|exact IH].
    destruct Htag as [-> | ->]; repeat constructor. }
  destruct st; try apply S; destruct Htag as [-> | ->]; repeat constructor.
Qed.

Section Engraving.

Variables (rnd : Qc -> Qc) (frac : Qc -> jsstring) (fonts : list Font) (W : World).

Hypothesis frac_plain : forall q, lacks dq (frac q).
Hypothesis frac_no_markup : forall q, lacks "<" (frac q).
Hypothesis fonts_plain :
  Forall (fun f => lacks dq (font_name f) /\ lacks "<" (font_name f)) fonts.

(** The text part of the engraving of a design with a text. *)
Lemma writes_engraved_text (d : DesignOptions) (box : Box) (center : Point) :
  writes
    (strip_envelope
       (text_only_document frac
          (import_style (fontUrl_of (fontName_of fonts (font d))))
          (getTextStyleDefs ts_none (lit "#000000") (gradientStartColor d)
             (gradientEndColor d) (lit "text-element"))
          (getTextElements rnd frac fonts (with_text_style d (lit "#000000") ts_none)
             box center)))
    (engraved_text (style d) (text d)).
Proof.
  destruct (fontName_plain fonts (font d) fonts_plain) as [_ Hfont].
  pose proof (fontUrl_plain _ Hfont) as Hurl.
  pose proof (writes_import_style _ Hurl) as HF.
  pose proof (writes_text_elements rnd frac fonts frac_plain fonts_plain
                (with_text_style d (lit "#000000") ts_none) box center eq_refl) as HE.
  cbn [style textStyle textColor text with_text_style] in HE.
  rewrite strip_text_only_document.
  - cbn [getTextStyleDefs]. eapply writes_eq; [pieces|].
    unfold engraved_text. rewrite ?app_nil_r. reflexivity.
  - unfold import_style.
    assert (Hu : lacks "<" (replace_all_char "&" (lit "&amp;")
                              (fontUrl_of (fontName_of fonts (font d)))))
      by (apply lacks_replace_all_char; [reflexivity | exact Hurl]).
    no_end_tag.
  - apply free_of_nil.
  - apply (free_text_elements rnd frac fonts frac_no_markup fonts_plain). reflexivity.
Qed.

(** C6.  For a design with a logo that the browser decodes, whatever its
    text colour and text style: the engraving document is the one of the
    same design with any other text colour and text style; its text
    elements are the layout's in black ([fill] is [#000000]) with no
    filter and no stroke; its image is filtered by [monochrome], the
    colour matrix of type [saturate] with value 0.  Without text the
    document has no text element. *)
Theorem engraving_is_black_and_desaturated (d : DesignOptions) (dims : LogoDimensions)
  (c : jsstring) (s : TextStyle) :
  logo_given (logo d) = true ->
  lacks dq (logo_url (logo d)) ->
  load_image W (logo_url (logo d)) = Some dims ->
  exists doc,
    generateEngravingSvg rnd frac fonts W d = Resolved doc
    /\ generateEngravingSvg rnd frac fonts W (with_text_style d c s) = Resolved doc
    /\ skeleton doc
       = engraving_skeleton
           (if truthy (trim (text d)) then engraved_text (style d) (text d)
            else [TOpen (lit "svg")])
           (logo_url (logo d))
    /\ Forall (fun nv => nv = (lit "fill", lit "#000000"))
         (paint_of (lit "text") (skeleton doc) ++ paint_of (lit "textPath") (skeleton doc))
    /\ paint_of (lit "image") (skeleton doc) = [(lit "filter", lit "url(#monochrome)")].
Proof.
  intros Hlogo Hurl Hload.
  assert (T : exists textSvg,
             generateTextOnlySvg rnd frac fonts W (with_text_style d (lit "#000000") ts_none)
               false = Resolved textSvg
             /\ writes (strip_envelope textSvg)
                  (if truthy (trim (text d)) then engraved_text (style d) (text d)
                   else [TOpen (lit "svg")])).
  { destruct (truthy (trim (text d))) eqn:Htext.
    - pose proof (generateTextOnlySvg_download rnd frac fonts W
                    (with_text_style d (lit "#000000") ts_none) dims) as G.
      cbn [logo text font textStyle textColor gradientStartColor gradientEndColor
           with_text_style] in G.
      eexists. split; [exact (G Hlogo Hload Htext)|].
      apply writes_engraved_text.
    - exists empty_canvas. split.
      + unfold generateTextOnlySvg. cbn [logo text with_text_style].
        rewrite Hlogo, Htext. reflexivity.
      + replace (strip_envelope empty_canvas)
          with (lit "<svg xmlns=`http://www.w3.org/2000/svg` width=`1000` height=`1000`>")
          by by_computation.
        written. }
  destruct T as (textSvg & HT & Hw).
  eexists. split; [exact (generateEngravingSvg_document rnd frac fonts W d dims textSvg
                            Hlogo Hload HT)|].
  split; [exact (generateEngravingSvg_document rnd frac fonts W (with_text_style d c s)
                   dims textSvg Hlogo Hload HT)|].
  match goal with
  | |- skeleton ?doc = ?sk /\ _ =>
      assert (S : skeleton doc = sk)
        by (apply writes_skeleton, writes_engraving_document; assumption)
  end.
  split; [exact S|]. rewrite S. unfold engraving_skeleton.
  rewrite !paint_of_app. split.
  - destruct (truthy (trim (text d))).
    + unfold engraved_text. rewrite !paint_of_app.
      repeat (apply Forall_app; split); try (repeat constructor; fail);
        apply paint_of_plain_layout; auto.
    + repeat constructor.
  - destruct (truthy (trim (text d))); [|reflexivity].
    unfold engraved_text. rewrite paint_of_app.
    assert (L : paint_of (lit "image") (layout (style d) ts_none (lit "#000000") (text d)) = []).
    { assert (S' : forall words,
                 paint_of (lit "image")
                   (flat_map (fun word => text_element ts_none (lit "#000000") (escapeXml word))
                      words) = []).
      { induction words as [|w ws IH]; [reflexivity|].
        cbn [flat_map]. rewrite paint_of_app, IH. reflexivity. }
      destruct (style d); try apply S'; reflexivity. }
    rewrite L. reflexivity.
Qed.

End Engraving.

Lemma engraving_is_black_and_desaturated_witness :
  exists doc,
    generateEngravingSvg round53 no_frac sample_fonts (offline 100 200) sample_design
    = Resolved doc
    /\ generateEngravingSvg round53 no_frac sample_fonts (offline 100 200)
         (with_text_style sample_design (lit "#ff0000") ts_neon)
       = Resolved doc
    /\ skeleton doc
       = engraving_skeleton (engraved_text st_classic (lit "A B C"))
           (lit "data:image/png;base64,iVBORw0KGgo=")
    /\ Forall (fun nv => nv = (lit "fill", lit "#000000"))
         (paint_of (lit "text") (skeleton doc) ++ paint_of (lit "textPath") (skeleton doc))
    /\ paint_of (lit "image") (skeleton doc) = [(lit "filter", lit "url(#monochrome)")].
Proof.
  apply (engraving_is_black_and_desaturated round53 no_frac sample_fonts (offline 100 200))
    with (dims := {| img_width := 100; img_height := 200 |}).
  - intros q. reflexivity.
  - intros q. reflexivity.
  - repeat constructor.
  - reflexivity.
  - reflexivity.
  - reflexivity.
Defined.

(** ** The skeletons of the text-only and of the combined document *)

Section Skeletons.

Variables (rnd : Qc -> Qc) (frac : Qc -> jsstring) (fonts : list Font) (W : World).

Hypothesis frac_plain : forall q, lacks dq (frac q).
Hypothesis fonts_plain :
  Forall (fun f => lacks dq (font_name f) /\ lacks "<" (font_name f)) fonts.

(** The text-only document of a design, whatever its font style block. *)
Lemma skeleton_text_only_document (d : DesignOptions) (box : Box) (center : Point)
  (F : jsstring) :
  lacks dq (textColor d) ->
  lacks dq (gradientStartColor d) -> lacks dq (gradientEndColor d) ->
  writes F [TOpen (lit "style"); TClose (lit "style")] ->
  skeleton
    (text_only_document frac F
       (getTextStyleDefs (textStyle d) (textColor d) (gradientStartColor d)
          (gradientEndColor d) (lit "text-element"))
       (getTextElements rnd frac fonts d box center))
  = text_only_skeleton (style d) (textStyle d) (textColor d) (text d).
Proof.
  intros Hc H1 H2 HF. apply writes_skeleton. unfold text_only_skeleton.
  apply writes_text_only_document; [exact HF | |].
  - apply writes_style_defs; auto. reflexivity.
  - apply writes_text_elements; assumption.
Qed.

(** The text-only document of a design with a text, for a download. *)
Lemma skeleton_text_only_download (d : DesignOptions) (dims : LogoDimensions) :
  logo_given (logo d) = true ->
  load_image W (logo_url (logo d)) = Some dims ->
  truthy (trim (text d)) = true ->
  lacks dq (textColor d) ->
  lacks dq (gradientStartColor d) -> lacks dq (gradientEndColor d) ->
  exists doc,
    generateTextOnlySvg rnd frac fonts W d false = Resolved doc
    /\ skeleton doc = text_only_skeleton (style d) (textStyle d) (textColor d) (text d).
Proof.
  intros Hlogo Hload Htext Hc H1 H2.
  destruct (fontName_plain fonts (font d) fonts_plain) as [_ Hfont].
  eexists. split.
  - exact (generateTextOnlySvg_download rnd frac fonts W d dims Hlogo Hload Htext).
  - apply skeleton_text_only_document; auto.
    apply writes_import_style, fontUrl_plain, Hfont.
Qed.

(** The same with the font embedded, when the data URLs the browser makes
    hold no [<]: the skeleton does not depend on the font mode. *)
Lemma skeleton_text_only_embedded (d : DesignOptions) (dims : LogoDimensions)
  (doc : jsstring) :
  (forall blob uri, read_as_data_url W blob = ReadOk uri -> lacks "<" uri) ->
  logo_given (logo d) = true ->
  load_image W (logo_url (logo d)) = Some dims ->
  truthy (trim (text d)) = true ->
  lacks dq (textColor d) ->
  lacks dq (gradientStartColor d) -> lacks dq (gradientEndColor d) ->
  generateTextOnlySvg rnd frac fonts W d true = Resolved doc ->
  skeleton doc = text_only_skeleton (style d) (textStyle d) (textColor d) (text d).
Proof.
  intros data_urls_plain Hlogo Hload Htext Hc H1 H2 Hdoc.
  destruct (fontName_plain fonts (font d) fonts_plain) as [_ Hfont].
  destruct (generateTextOnlySvg_embedded rnd frac fonts W d dims doc Hlogo Hload Htext Hdoc)
    as (F & -> & [-> | (blob & uri & R & ->)]); apply skeleton_text_only_document; auto.
  - apply writes_import_style, fontUrl_plain, Hfont.
  - apply writes_font_face_style; [exact Hfont | exact (data_urls_plain _ _ R) | reflexivity].
Qed.

(** The combined document, with or without a text. *)
Lemma skeleton_combined (d : DesignOptions) (dims : LogoDimensions) :
  logo_given (logo d) = true ->
  lacks dq (logo_url (logo d)) ->
  load_image W (logo_url (logo d)) = Some dims ->
  lacks dq (textColor d) ->
  lacks dq (gradientStartColor d) -> lacks dq (gradientEndColor d) ->
  exists doc,
    generateCombinedSvg rnd frac fonts W d = Resolved doc
    /\ skeleton doc
       = combined_skeleton (style d) (textStyle d) (textColor d) (text d)
           (logo_url (logo d)).
Proof.
  intros Hlogo Hlurl Hload Hc H1 H2.
  destruct (fontName_plain fonts (font d) fonts_plain) as [_ Hfont].
  pose proof (fontUrl_plain _ Hfont) as Hurl.
  eexists. split; [exact (generateCombinedSvg_document rnd frac fonts W d dims Hlogo Hload)|].
  apply writes_skeleton. unfold combined_skeleton.
  apply writes_combined_document; [exact frac_plain | exact Hlurl | | |].
  - exact (writes_import_style _ Hurl).
  - apply writes_style_defs; auto. reflexivity.
  - destruct (truthy (trim (text d))); [|apply writes_nil].
    apply writes_text_elements; assumption.
Qed.

End Skeletons.

(** ** Ids and references *)

Lemma ids_style_attrs (tag : jsstring) (ts : TextStyle) (color : jsstring) :
  flat_map id_of (style_attrs tag ts color) = [].
Proof. destruct ts; reflexivity. Qed.

(** The ids a layout defines are those of its paths. *)
Lemma ids_layout (st : DesignStyle) (ts : TextStyle) (color text : jsstring) :
  flat_map id_of (layout st ts color text) = path_ids st.
Proof.
  assert (S : forall words,
             flat_map id_of
               (flat_map (fun word => text_element ts color (escapeXml word)) words) = []).
  { induction words as [|w ws IH]; [reflexivity|].
    cbn [flat_map]. rewrite flat_map_app, IH. unfold text_element.
    rewrite !flat_map_app, ids_style_attrs. reflexivity. }
  destruct st; try apply S; unfold layout, arc, text_on_path, text_element;
    rewrite !flat_map_app, !ids_style_attrs; reflexivity.
Qed.

(** The paint attributes of a text element refer to the filter or
    gradient of the visual style under the name space [text-element]. *)
Lemma refs_style_attrs (tag : jsstring) (ts : TextStyle) (color : jsstring) :
  tag = lit "text" \/ tag = lit "textPath" ->
  url_ref color = None ->
  flat_map text_ref_of (style_attrs tag ts color) = style_ids ts (lit "text-element").
Proof.
  intros Htag Hc.
  assert (F : text_ref_of (TAttr tag (lit "fill") color) = []).
  { unfold text_ref_of, ref_of. rewrite Hc. destruct Htag as [-> | ->]; reflexivity. }
  destruct ts; unfold style_attrs, attr; cbn [flat_map]; rewrite ?F;
    destruct Htag as [-> | ->]; reflexivity.
Qed.

Lemma refs_text_on_path (pathId : jsstring) (ts : TextStyle) (color content : jsstring) :
  url_ref color = None ->
  flat_map text_ref_of (text_on_path pathId ts color content)
  = pathId :: style_ids ts (lit "text-element").
Proof.
  intros Hc. unfold text_on_path.
  transitivity ([pathId] ++ style_ids ts (lit "text-element") ++ []);
    [|rewrite app_nil_r; reflexivity].
  rewrite !flat_map_app, (refs_style_attrs _ ts color (or_intror eq_refl) Hc).
  reflexivity.
Qed.

Lemma refs_text_element (ts : TextStyle) (color content : jsstring) :
  url_ref color = None ->
  flat_map text_ref_of (text_element ts color content) = style_ids ts (lit "text-element").
Proof.
  intros Hc. unfold text_element.
  transitivity ([] ++ style_ids ts (lit "text-element") ++ []);
    [|rewrite app_nil_r; reflexivity].
  rewrite !flat_map_app, (refs_style_attrs _ ts color (or_introl eq_refl) Hc).
  reflexivity.
Qed.

(** The text elements of a layout refer to its paths and to the filter or
    gradient of the visual style, under the name space [text-element]. *)
Lemma refs_layout (st : DesignStyle) (ts : TextStyle) (color text r : jsstring) :
  url_ref color = None ->
  In r (flat_map text_ref_of (layout st ts color text))
  <-> In r (path_ids st) \/ In r (style_ids ts (lit "text-element")).
Proof.
  intros Hc.
  assert (S : forall words, words <> [] ->
             In r (flat_map text_ref_of
                     (flat_map (fun word => text_element ts color (escapeXml word)) words))
             <-> In r (style_ids ts (lit "text-element"))).
  { induction words as [|w ws IH]; [congruence|]. intros _.
    cbn [flat_map]. rewrite flat_map_app, in_app_iff, (refs_text_element ts color _ Hc).
    destruct ws as [|w' ws']; [cbn [flat_map In]; tauto|].
    rewrite (IH ltac:(discriminate)). tauto. }
  destruct st; unfold layout, arc, path_ids;
    rewrite ?flat_map_app, ?in_app_iff, ?(refs_text_on_path _ ts color _ Hc),
      ?(refs_text_element ts color _ Hc), ?(S _ (split_ws_nonempty text));
    cbn [flat_map text_ref_of app In]; tauto.
Qed.

Lemma style_defs_no_text_refs (ts : TextStyle) (ns : jsstring) :
  flat_map text_ref_of (style_defs ts ns) = [].
Proof. destruct ts; reflexivity. Qed.

(** A visual style with a filter or a gradient defines one id, which
    ends in the name space; the name spaces of the two documents give
    different ids, and none of them is the id of a path. *)
Lemma style_ids_apart (ts : TextStyle) (st : DesignStyle) (r : jsstring) :
  In r (style_ids ts (lit "text-element")) ->
  ~ In r (style_ids ts (lit "design-element") ++ path_ids st).
Proof.
  destruct ts; cbn [style_ids style_defs gradient_def flat_map id_of app In];
    try tauto;
    (intros [<- | []]; destruct st; cbn [path_ids app In];
     intros H; repeat (destruct H as [H | H]; [discriminate H|]); exact H).
Qed.

(** ** The name spaces of the ids *)

Section Namespaces.

Variables (rnd : Qc -> Qc) (frac : Qc -> jsstring) (fonts : list Font) (W : World).

Hypothesis frac_plain : forall q, lacks dq (frac q).
Hypothesis fonts_plain :
  Forall (fun f => lacks dq (font_name f) /\ lacks "<" (font_name f)) fonts.

(** C1 fails on the code.  For a design with a decoded logo and a text,
    [T] the text-only and [C] the combined document: the filter or
    gradient of the visual style is defined under [text-element] in [T]
    and under [design-element] in [C], but the text elements of both
    documents are the same and refer to it under [text-element], so in
    [C] this reference names an id that [C] does not define.  The ids of
    the paths are those of the layout in both documents.  In [T] the
    text elements refer to all the ids it defines and to nothing else. *)
Theorem combined_text_refers_to_text_only_ids (d : DesignOptions) (dims : LogoDimensions) :
  logo_given (logo d) = true ->
  lacks dq (logo_url (logo d)) ->
  load_image W (logo_url (logo d)) = Some dims ->
  truthy (trim (text d)) = true ->
  attr_text (textColor d) ->
  lacks dq (gradientStartColor d) -> lacks dq (gradientEndColor d) ->
  exists T C,
    generateTextOnlySvg rnd frac fonts W d false = Resolved T
    /\ generateCombinedSvg rnd frac fonts W d = Resolved C
    /\ ids T = style_ids (textStyle d) (lit "text-element") ++ path_ids (style d)
    /\ ids C = style_ids (textStyle d) (lit "design-element") ++ path_ids (style d)
    /\ text_refs C = text_refs T
    /\ (forall r, In r (text_refs T) <-> In r (ids T))
    /\ (forall r, In r (path_ids (style d)) -> In r (ids T) /\ In r (ids C))
    /\ (forall r, In r (style_ids (textStyle d) (lit "text-element")) ->
          In r (text_refs C) /\ ~ In r (ids C)).
Proof.
  intros Hlogo Hlurl Hload Htext [Hc Hcref] H1 H2.
  destruct (skeleton_text_only_download rnd frac fonts W frac_plain fonts_plain d dims
              Hlogo Hload Htext Hc H1 H2) as (T & HT & ST).
  destruct (skeleton_combined rnd frac fonts W frac_plain fonts_plain d dims
              Hlogo Hlurl Hload Hc H1 H2) as (C & HC & SC).
  exists T, C. split; [exact HT|]. split; [exact HC|].
  assert (IT : ids T = style_ids (textStyle d) (lit "text-element") ++ path_ids (style d)).
  { rewrite ids_skeleton, ST. unfold text_only_skeleton.
    transitivity ([] ++ style_ids (textStyle d) (lit "text-element") ++ []
                    ++ path_ids (style d) ++ []);
      [rewrite !flat_map_app, ids_layout; reflexivity
      |cbn [app]; rewrite app_nil_r; reflexivity]. }
  assert (IC : ids C = style_ids (textStyle d) (lit "design-element") ++ path_ids (style d)).
  { rewrite ids_skeleton, SC. unfold combined_skeleton. rewrite Htext.
    transitivity ([] ++ style_ids (textStyle d) (lit "design-element") ++ []
                    ++ path_ids (style d) ++ []);
      [rewrite !flat_map_app, ids_layout; reflexivity
      |cbn [app]; rewrite app_nil_r; reflexivity]. }
  assert (RT : text_refs T
               = flat_map text_ref_of
                   (layout (style d) (textStyle d) (textColor d) (text d))).
  { unfold text_refs. rewrite ST. unfold text_only_skeleton.
    transitivity ([] ++ [] ++ []
                    ++ flat_map text_ref_of
                         (layout (style d) (textStyle d) (textColor d) (text d)) ++ []);
      [rewrite !flat_map_app, style_defs_no_text_refs; reflexivity
      |cbn [app]; rewrite app_nil_r; reflexivity]. }
  assert (RC : text_refs C
               = flat_map text_ref_of
                   (layout (style d) (textStyle d) (textColor d) (text d))).
  { unfold text_refs. rewrite SC. unfold combined_skeleton. rewrite Htext.
    transitivity ([] ++ [] ++ []
                    ++ flat_map text_ref_of
                         (layout (style d) (textStyle d) (textColor d) (text d)) ++ []);
      [rewrite !flat_map_app, style_defs_no_text_refs; reflexivity
      |cbn [app]; rewrite app_nil_r; reflexivity]. }
  split; [exact IT|]. split; [exact IC|]. split; [congruence|].
  split; [|split].
  - intros r. rewrite RT, IT, in_app_iff, (refs_layout _ _ _ _ r Hcref). tauto.
  - intros r Hr. rewrite IT, IC, !in_app_iff. tauto.
  - intros r Hr. split.
    + rewrite RC. apply (refs_layout _ _ _ _ r Hcref). right. exact Hr.
    + rewrite IC. apply style_ids_apart, Hr.
Qed.

End Namespaces.

Lemma combined_text_refers_to_text_only_ids_witness :
  exists T C,
    generateTextOnlySvg round53 no_frac sample_fonts (offline 100 200) sample_design false
    = Resolved T
    /\ generateCombinedSvg round53 no_frac sample_fonts (offline 100 200) sample_design
       = Resolved C
    /\ ids T = [lit "shadow-text-element"; lit "text-path-lower"]
    /\ ids C = [lit "shadow-design-element"; lit "text-path-lower"]
    /\ text_refs C = text_refs T
    /\ (forall r, In r (text_refs T) <-> In r (ids T))
    /\ (forall r, In r [lit "text-path-lower"] -> In r (ids T) /\ In r (ids C))
    /\ (forall r, In r [lit "shadow-text-element"] ->
          In r (text_refs C) /\ ~ In r (ids C)).
Proof.
  apply (combined_text_refers_to_text_only_ids round53 no_frac sample_fonts (offline 100 200))
    with (dims := {| img_width := 100; img_height := 200 |}).
  - intros q. reflexivity.
  - repeat constructor.
  - reflexivity.
  - reflexivity.
  - reflexivity.
  - reflexivity.
  - split; reflexivity.
  - reflexivity.
  - reflexivity.
Defined.

(* ================================================================== *)
(** * Further properties of the service *)

(** ** [escapeXml] *)

Lemma escapeXml_app (a b : jsstring) : escapeXml (a ++ b) = escapeXml a ++ escapeXml b.
Proof. apply flat_map_app. Qed.

(** X1.  [escapeXml] can be undone and hides the markup characters: for
    every string, decoding the five character references in the escaped
    string gives the string back, and the escaped string holds none of
    [<], [>], ['] and the double quote. *)
Theorem escapeXml_decodes (s : jsstring) :
  unescapeXml (escapeXml s) = s
  /\ lacks "<" (escapeXml s) /\ lacks ">" (escapeXml s)
  /\ lacks "'" (escapeXml s) /\ lacks dq (escapeXml s).
Proof.
  split; [apply escapeXml_round_trip|]. exact (escapeXml_markup_free s).
Qed.

(** X2.  [escapeXml] works character by character and loses nothing: it
    distributes over concatenation, two strings with the same escaped
    form are equal, and the escaped string is never shorter. *)
Theorem escapeXml_is_faithful (a b : jsstring) :
  escapeXml (a ++ b) = escapeXml a ++ escapeXml b
  /\ (escapeXml a = escapeXml b <-> a = b)
  /\ (List.length a <= List.length (escapeXml a))%nat.
Proof.
  split; [apply escapeXml_app|]. split.
  - split; [|intros ->; reflexivity].
    intros H. rewrite <- (escapeXml_round_trip a), <- (escapeXml_round_trip b), H.
    reflexivity.
  - induction a as [|c a IH]; [apply Nat.le_refl|].
    change (c :: a) with ([c] ++ a). rewrite escapeXml_app, !length_app.
    assert (1 <= List.length (escapeXml [c]))%nat.
    { unfold escapeXml. cbn [flat_map]. rewrite app_nil_r.
      destruct (Ascii.eqb c "<"); [cbn; lia|].
      destruct (Ascii.eqb c ">"); [cbn; lia|].
      destruct (Ascii.eqb c "&"); [cbn; lia|].
      destruct (Ascii.eqb c "'"); [cbn; lia|].
      destruct (Ascii.eqb c dq); cbn; lia. }
    cbn [List.length]. lia.
Qed.

(** ** The font of a design *)

(** X3.  The font family written into the documents is the name of the
    first catalogue entry with the design's font id, and [Impact] when
    that name is empty or when no entry has the id; it is never empty. *)
Theorem fontName_is_the_first_match (fonts : list Font) (font : jsstring) :
  fontName_of fonts font <> []
  /\ (forall (pre : list Font) (f : Font) (post : list Font),
        fonts = pre ++ f :: post ->
        font_id f = font ->
        (forall g : Font, In g pre -> font_id g <> font) ->
        (font_name f <> [] -> fontName_of fonts font = font_name f)
        /\ (font_name f = [] -> fontName_of fonts font = lit "Impact"))
  /\ ((forall g : Font, In g fonts -> font_id g <> font) ->
      fontName_of fonts font = lit "Impact").
Proof.
  split; [|split].
  - unfold fontName_of.
    destruct (find (fun f => string_eqb (font_id f) font) fonts) as [f|];
      [|discriminate].
    destruct (font_name f) eqn:E; [discriminate|].
    cbn [truthy]. discriminate.
  - intros pre f post -> Hid Hpre.
    assert (F : find (fun g => string_eqb (font_id g) font) (pre ++ f :: post) = Some f).
    { induction pre as [|g pre IH]; cbn [app find].
      - rewrite Hid, string_eqb_refl. reflexivity.
      - destruct (string_eqb (font_id g) font) eqn:E.
        + apply string_eqb_eq in E. elim (Hpre g); [left; reflexivity | exact E].
        + apply IH. intros g' Hg'. apply Hpre. right. exact Hg'. }
    unfold fontName_of. rewrite F.
    split; intros H.
    + destruct (font_name f); [elim H; reflexivity | reflexivity].
    + rewrite H. reflexivity.
  - intros Hnone. unfold fontName_of.
    destruct (find (fun f => string_eqb (font_id f) font) fonts) as [f|] eqn:E;
      [|reflexivity].
    apply find_some in E. destruct E as [Hin Hid].
    apply string_eqb_eq in Hid. elim (Hnone f Hin Hid).
Qed.

Lemma fontName_is_the_first_match_witness :
  let fonts := [ {| font_id := lit "creepster"; font_name := lit "Creepster" |};
                 {| font_id := lit "bebas"; font_name := lit "Bebas Neue" |};
                 {| font_id := lit "bebas"; font_name := lit "Bebas Kai" |};
                 {| font_id := lit "plain"; font_name := [] |} ] in
  fontName_of fonts (lit "bebas") = lit "Bebas Neue"
  /\ fontName_of fonts (lit "plain") = lit "Impact"
  /\ fontName_of fonts (lit "anton") = lit "Impact".
Proof.
  intros fonts. split; [|split].
  - apply (proj1 (proj2 (fontName_is_the_first_match fonts (lit "bebas"))))
      with (pre := [ {| font_id := lit "creepster"; font_name := lit "Creepster" |} ])
           (f := {| font_id := lit "bebas"; font_name := lit "Bebas Neue" |})
           (post := [ {| font_id := lit "bebas"; font_name := lit "Bebas Kai" |};
                      {| font_id := lit "plain"; font_name := [] |} ]).
    + reflexivity.
    + reflexivity.
    + intros g [<- | []]. discriminate.
    + discriminate.
  - apply (proj1 (proj2 (fontName_is_the_first_match fonts (lit "plain"))))
      with (pre := [ {| font_id := lit "creepster"; font_name := lit "Creepster" |};
                     {| font_id := lit "bebas"; font_name := lit "Bebas Neue" |};
                     {| font_id := lit "bebas"; font_name := lit "Bebas Kai" |} ])
           (f := {| font_id := lit "plain"; font_name := [] |})
           (post := []).
    + reflexivity.
    + reflexivity.
    + intros g [<- | [<- | [<- | []]]]; discriminate.
    + reflexivity.
  - apply (proj2 (proj2 (fontName_is_the_first_match fonts (lit "anton")))).
    intros g [<- | [<- | [<- | [<- | []]]]]; discriminate.
Defined.

Lemma unescape_amp (r : jsstring) :
  unescape_from 0 (lit "&amp;" ++ r) = "&"%char :: unescape_from 0 r.
Proof. reflexivity. Qed.

(** X4.  The address of the font stylesheet is made safe for the
    document: it has no space (each is replaced by [+]), its escaped
    form, which the import rule holds, has every ampersand as [&amp;] and
    no [<] when the font name has none, and decoding the escaped form
    gives the address back. *)
Theorem font_url_is_escaped (fontName : jsstring) :
  let url := fontUrl_of fontName in
  let escaped := replace_all_char "&" (lit "&amp;") url in
  lacks " " url
  /\ unescapeXml escaped = url
  /\ count_occ_sub (lit "&") escaped = count_occ_sub (lit "&amp;") escaped
  /\ import_style url = lit "<style>@import url('" ++ escaped ++ lit "');</style>".
Proof.
  intros url escaped. split; [|split; [|split; [|reflexivity]]].
  - unfold url, fontUrl_of. apply lacks_app. split; [reflexivity|].
    apply lacks_app. split; [|reflexivity].
    unfold replace_all_char. apply lacks_flat_map. intros x.
    destruct (Ascii.eqb x " ") eqn:E; [reflexivity|].
    apply lacks_cons. split; [exact E | reflexivity].
  - unfold escaped, unescapeXml. generalize url. intros s.
    induction s as [|c s IH]; [reflexivity|].
    unfold replace_all_char. cbn [flat_map]. fold (replace_all_char "&" (lit "&amp;") s).
    destruct (Ascii.eqb c "&") eqn:E.
    + apply Ascii.eqb_eq in E. subst c. rewrite unescape_amp, IH. reflexivity.
    + cbn [app]. rewrite (unescape_plain c _ E), IH. reflexivity.
  - unfold escaped. generalize url. intros s.
    induction s as [|c s IH]; [reflexivity|].
    unfold replace_all_char. cbn [flat_map]. fold (replace_all_char "&" (lit "&amp;") s).
    destruct (Ascii.eqb c "&") eqn:E.
    + change (lit "&amp;" ++ replace_all_char "&" (lit "&amp;") s)
        with ("&"%char :: lit "amp;" ++ replace_all_char "&" (lit "&amp;") s).
      cbn [count_occ_sub].
      change (starts_with (lit "&") ("&"%char :: lit "amp;" ++ replace_all_char "&" (lit "&amp;") s))
        with true.
      change (starts_with (lit "&amp;")
                ("&"%char :: lit "amp;" ++ replace_all_char "&" (lit "&amp;") s))
        with true.
      f_equal.
      change (lit "amp;" ++ replace_all_char "&" (lit "&amp;") s)
        with ("a"%char :: "m"%char :: "p"%char :: ";"%char
                :: replace_all_char "&" (lit "&amp;") s).
      cbn [count_occ_sub].
      change (starts_with (lit "&") ("a"%char :: ?x)) with false.
      exact IH.
    + cbn [app count_occ_sub].
      assert (S1 : starts_with (lit "&") (c :: replace_all_char "&" (lit "&amp;") s) = false).
      { change (lit "&") with ["&"%char]. cbn [starts_with]. rewrite Ascii.eqb_sym, E.
        reflexivity. }
      assert (S2 : starts_with (lit "&amp;") (c :: replace_all_char "&" (lit "&amp;") s)
                   = false).
      { change (lit "&amp;") with ("&"%char :: lit "amp;"). cbn [starts_with].
        rewrite Ascii.eqb_sym, E. reflexivity. }
      rewrite S1, S2. exact IH.
Qed.

(** ** The font resolver *)

Lemma takeWhile_split (p : ascii -> bool) (l : jsstring) :
  (List.length (takeWhile p l) < List.length l)%nat ->
  exists x rest, l = takeWhile p l ++ x :: rest /\ p x = false.
Proof.
  induction l as [|a l IH]; cbn [takeWhile List.length]; [lia|].
  destruct (p a) eqn:E.
  - cbn [List.length]. intros H. destruct IH as (x & rest & Hl & Hx); [lia|].
    exists x, rest. split; [cbn [app]; f_equal; exact Hl | exact Hx].
  - intros _. exists a, l. split; [reflexivity | exact E].
Qed.

Lemma starts_with_split (p s : jsstring) :
  starts_with p s = true -> s = p ++ skipn (List.length p) s.
Proof.
  revert s. induction p as [|a p IH]; intros s H; [reflexivity|].
  destruct s as [|b s]; [discriminate|]. cbn [starts_with] in H.
  apply andb_prop in H. destruct H as [Hab H]. apply Ascii.eqb_eq in Hab. subst b.
  cbn [app List.length skipn]. f_equal. apply IH, H.
Qed.

Lemma takeWhile_lacks (c : ascii) (s : jsstring) :
  lacks c (takeWhile (fun x => negb (Ascii.eqb x c)) s).
Proof. exact (before_lacks c s). Qed.

(** X5.  The address [fetchAndEncodeFont] takes from the stylesheet is
    one the stylesheet holds: when the search gives an address, the
    stylesheet has [url(] followed by the address and [)], the address
    starts with [https://], has no [)], ends in [.woff2] and has
    something between the two. *)
Theorem match_woff2_url_is_in_the_stylesheet (cssText url : jsstring) :
  match_woff2_url cssText = Some url ->
  exists pre body post,
    cssText = pre ++ lit "url(" ++ url ++ lit ")" ++ post
    /\ url = lit "https://" ++ body
    /\ lacks ")" body
    /\ ends_with (lit ".woff2") body = true
    /\ (List.length (lit ".woff2") < List.length body)%nat.
Proof.
  induction cssText as [|c css IH]; cbn [match_woff2_url].
  - discriminate.
  - destruct (woff2_url_here (c :: css)) as [u|] eqn:E.
    + intros [= <-]. unfold woff2_url_here in E.
      destruct (starts_with (lit "url(https://") (c :: css)) eqn:S; [|discriminate].
      cbv zeta in E.
      set (rest := skipn (List.length (lit "url(https://")) (c :: css)) in *.
      set (body := takeWhile (fun x => negb (Ascii.eqb x ")")) rest) in *.
      destruct (List.length body <? List.length rest)%nat eqn:L; [|discriminate].
      destruct (ends_with (lit ".woff2") body) eqn:W; [|discriminate].
      destruct (List.length (lit ".woff2") <? List.length body)%nat eqn:N; [|discriminate].
      cbn [andb] in E. injection E as <-.
      apply Nat.ltb_lt in L, N.
      destruct (takeWhile_split _ rest L) as (x & post & Hrest & Hx).
      fold body in Hrest. apply negb_false_iff, Ascii.eqb_eq in Hx. subst x.
      exists [], body, post. split; [|split; [reflexivity|]].
      * rewrite (starts_with_split _ _ S). fold rest. rewrite Hrest.
        rewrite <- ?app_assoc. reflexivity.
      * split; [apply takeWhile_lacks|]. split; [exact W | exact N].
    + intros H. destruct (IH H) as (pre & body & post & Hc & Hu & Hb & Hw & Hn).
      exists (c :: pre), body, post. split; [cbn [app]; f_equal; exact Hc|].
      repeat split; assumption.
Qed.

Lemma match_woff2_url_is_in_the_stylesheet_witness :
  exists pre body post,
    sample_css
    = pre ++ lit "url(" ++ lit "https://fonts.gstatic.com/s/creepster/v13/a.woff2"
        ++ lit ")" ++ post
    /\ lit "https://fonts.gstatic.com/s/creepster/v13/a.woff2" = lit "https://" ++ body
    /\ lacks ")" body
    /\ ends_with (lit ".woff2") body = true
    /\ (List.length (lit ".woff2") < List.length body)%nat.
Proof.
  apply (match_woff2_url_is_in_the_stylesheet sample_css
           (lit "https://fonts.gstatic.com/s/creepster/v13/a.woff2")).
  reflexivity.
Defined.

Section FontOutcomes.

Variables (rnd : Qc -> Qc) (frac : Qc -> jsstring) (fonts : list Font) (W : World).

(** X6.  What [fetchAndEncodeFont] can end in.  It settles at once, in
    one of three ways: with the empty asset; with the data URL the reader
    made of a font file, as [woff2]; or, when the reader fails on the
    font file, rejected with the reader's error event.  It is rejected
    with nothing else. *)
Theorem fetchAndEncodeFont_settles (fontUrl : jsstring) :
  fetchAndEncodeFont W fontUrl = Resolved empty_font
  \/ (exists fontBlob uri,
        read_as_data_url W fontBlob = ReadOk uri
        /\ fetchAndEncodeFont W fontUrl
           = Resolved {| dataUri := uri; format := lit "woff2" |})
  \/ (exists fontBlob,
        read_as_data_url W fontBlob = ReadError
        /\ fetchAndEncodeFont W fontUrl = Rejected ProgressEvent).
Proof.
  destruct (fetchAndEncodeFont_outcome W fontUrl) as [E | [blob E]]; [left; exact E|].
  right. rewrite E, read_font_outcome.
  destruct (read_as_data_url W blob) as [uri|] eqn:R.
  - left. exists blob, uri. split; [exact R | reflexivity].
  - right. exists blob. split; [exact R | reflexivity].
Qed.

(** X7.  The font file is read only after both requests have succeeded:
    when [fetchAndEncodeFont] ends in anything but the empty asset, the
    stylesheet request was answered with an ok status and a readable
    body, the stylesheet names a [woff2] address, and the request for
    this address was answered with an ok status and a readable body. *)
Theorem font_is_read_after_both_requests (fontUrl : jsstring) :
  fetchAndEncodeFont W fontUrl <> Resolved empty_font ->
  exists st cssText fontFileUrl st' fontBlob,
    fetch W fontUrl = Response true st (BodyOk cssText)
    /\ match_woff2_url cssText = Some fontFileUrl
    /\ fetch W fontFileUrl = Response true st' (BodyOk fontBlob)
    /\ fetchAndEncodeFont W fontUrl = read_font W fontBlob.
Proof.
  unfold fetchAndEncodeFont, fetch_ok.
  destruct (fetch W fontUrl) as [|ok st body] eqn:F1; [intros H; elim H; reflexivity|].
  destruct ok; [|intros H; elim H; reflexivity].
  destruct body as [|cssText]; [intros H; elim H; reflexivity|]. cbn [await read_body].
  destruct (match_woff2_url cssText) as [fontFileUrl|] eqn:M;
    [|intros H; elim H; reflexivity].
  destruct (fetch W fontFileUrl) as [|ok st' body'] eqn:F2;
    [intros H; elim H; reflexivity|].
  destruct ok; [|intros H; elim H; reflexivity].
  destruct body' as [|fontBlob]; [intros H; elim H; reflexivity|].
  intros _. exists st, cssText, fontFileUrl, st', fontBlob.
  split; [reflexivity|]. split; [exact M|]. split; [exact F2|]. reflexivity.
Qed.

(** X8.  When the font cannot be embedded, the document for the canvas
    is the document for the download: if [fetchAndEncodeFont] gives the
    empty asset for the stylesheet of the design's font,
    [generateTextOnlySvg] gives with [embedFont] what it gives without. *)
Theorem embedding_falls_back_to_import (d : DesignOptions) :
  fetchAndEncodeFont W (fontUrl_of (fontName_of fonts (font d))) = Resolved empty_font ->
  generateTextOnlySvg rnd frac fonts W d true = generateTextOnlySvg rnd frac fonts W d false.
Proof.
  intros E. unfold generateTextOnlySvg.
  destruct (negb (logo_given (logo d))); [reflexivity|].
  destruct (negb (truthy (trim (text d)))); [reflexivity|].
  destruct (getLogoDimensions W (logo_url (logo d))); try reflexivity.
  cbn [await]. rewrite E. reflexivity.
Qed.

End FontOutcomes.

Lemma font_is_read_after_both_requests_witness :
  exists st cssText fontFileUrl st' fontBlob,
    fetch reader_fails
      (lit "https://fonts.googleapis.com/css2?family=Creepster:wght@400;700&display=swap")
    = Response true st (BodyOk cssText)
    /\ match_woff2_url cssText = Some fontFileUrl
    /\ fetch reader_fails fontFileUrl = Response true st' (BodyOk fontBlob)
    /\ fetchAndEncodeFont reader_fails
         (lit "https://fonts.googleapis.com/css2?family=Creepster:wght@400;700&display=swap")
       = read_font reader_fails fontBlob.
Proof.
  apply (font_is_read_after_both_requests reader_fails
           (lit "https://fonts.googleapis.com/css2?family=Creepster:wght@400;700&display=swap")).
  discriminate.
Defined.

Lemma embedding_falls_back_to_import_witness :
  generateTextOnlySvg round53 no_frac sample_fonts (offline 100 200) sample_design true
  = generateTextOnlySvg round53 no_frac sample_fonts (offline 100 200) sample_design false.
Proof.
  apply (embedding_falls_back_to_import round53 no_frac sample_fonts (offline 100 200)
           sample_design).
  reflexivity.
Defined.

(** ** A logo the browser cannot decode *)

Section UndecodableLogo.

Variables (rnd : Qc -> Qc) (frac : Qc -> jsstring) (fonts : list Font) (W : World).

(** X9.  When the browser fails to decode the logo of a design, the
    combined and the engraving composer reject with the error of
    [getLogoDimensions], and so does the text-only composer, in both font
    modes, for a design with a text; for a blank text it never looks at
    the logo and resolves with the empty canvas. *)
Theorem logo_decode_failure_rejects (d : DesignOptions) (embedFont : bool) :
  logo_given (logo d) = true ->
  load_image W (logo_url (logo d)) = None ->
  let failure :=
    Rejected (Error (lit "Failed to load logo image to determine dimensions.")) in
  generateCombinedSvg rnd frac fonts W d = failure
  /\ generateEngravingSvg rnd frac fonts W d = failure
  /\ generateTextOnlySvg rnd frac fonts W d embedFont
     = if truthy (trim (text d)) then failure else Resolved empty_canvas.
Proof.
  intros Hlogo Hload failure.
  pose proof (getLogoDimensions_failed W _ Hload) as G.
  unfold generateCombinedSvg, generateEngravingSvg, generateTextOnlySvg.
  rewrite Hlogo, G. cbn [negb await].
  repeat split. destruct (truthy (trim (text d))); reflexivity.
Qed.

End UndecodableLogo.

Lemma logo_decode_failure_rejects_witness :
  let failure :=
    Rejected (Error (lit "Failed to load logo image to determine dimensions.")) in
  generateCombinedSvg round53 no_frac sample_fonts no_decoder sample_design = failure
  /\ generateEngravingSvg round53 no_frac sample_fonts no_decoder sample_design = failure
  /\ generateTextOnlySvg round53 no_frac sample_fonts no_decoder sample_design true = failure.
Proof.
  apply (logo_decode_failure_rejects round53 no_frac sample_fonts no_decoder sample_design
           true); reflexivity.
Defined.

(** ** The size of the scaled logo *)

Section ScaledSize.

Variable rnd : Qc -> Qc.
Hypothesis monotone : forall a b : Qc, (a <= b)%Qc -> (rnd a <= rnd b)%Qc.
Hypothesis exact :
  forall z : Z, (Z.abs z <= 2 ^ 53)%Z -> rnd (Qc_of_Z z) = Qc_of_Z z.

Lemma rnd_zero : rnd 0 = 0%Qc.
Proof. apply (exact 0%Z). simpl. lia. Qed.

Lemma rnd_nonneg (a : Qc) : (0 <= a)%Qc -> (0 <= rnd a)%Qc.
Proof. intros H. rewrite <- rnd_zero. apply monotone, H. Qed.

(** A quotient of 400 by a side is positive infinity or a finite number
    that is not negative. *)
Lemma div_not_negative (w : N) :
  num_div rnd maxLogoDim (num_of_N w) = Inf false
  \/ exists q : Qc, num_div rnd maxLogoDim (num_of_N w) = Fin q /\ (0 <= q)%Qc.
Proof.
  rewrite div_maxLogoDim. destruct (N.eqb_spec w 0) as [-> | Hw]; [left; reflexivity|].
  right. eexists. split; [reflexivity|]. apply rnd_nonneg.
  unfold Qcle. rewrite Qc_div_Q, !Qc_of_Z_Q. change (this 0%Qc) with 0%Q.
  apply Qle_shift_div_l.
  - change 0%Q with (inject_Z 0). rewrite <- Zlt_Qlt. lia.
  - rewrite Qmult_0_l. discriminate.
Qed.

Lemma min2_not_negative (a b : number) :
  (a = Inf false \/ exists q : Qc, a = Fin q /\ (0 <= q)%Qc) ->
  (b = Inf false \/ exists q : Qc, b = Fin q /\ (0 <= q)%Qc) ->
  Math_min2 a b = Inf false
  \/ exists q : Qc, Math_min2 a b = Fin q /\ (0 <= q)%Qc.
Proof.
  intros [-> | (p & -> & Hp)] [-> | (q & -> & Hq)].
  - left. reflexivity.
  - right. exists q. split; [reflexivity | exact Hq].
  - right. exists p. split; [reflexivity | exact Hp].
  - right. rewrite min2_fin. eexists. split; [reflexivity|].
    destruct (Qc_ltb q p); assumption.
Qed.

Lemma min2_unit (a : number) :
  (a = Inf false \/ exists q : Qc, a = Fin q /\ (0 <= q)%Qc) ->
  exists r : Qc, Math_min2 a (Fin 1) = Fin r /\ (0 <= r)%Qc /\ (r <= 1)%Qc.
Proof.
  intros [-> | (p & -> & Hp)].
  - exists 1%Qc. split; [reflexivity|]. split; discriminate.
  - rewrite min2_fin. eexists. split; [reflexivity|].
    destruct (Qc_ltb 1 p) eqn:E.
    + split; discriminate.
    + apply Qc_ltb_ge in E. split; assumption.
Qed.

(** The ratio is a finite number between 0 and 1. *)
Lemma scale_ratio_unit (w h : N) :
  exists r : Qc,
    scale_ratio rnd {| img_width := w; img_height := h |} = Fin r
    /\ (0 <= r)%Qc /\ (r <= 1)%Qc.
Proof.
  unfold scale_ratio, Math_min. cbn [img_width img_height].
  apply min2_unit, min2_not_negative; apply div_not_negative.
Qed.

(** X10.  Scaling never enlarges a logo, whatever the rounding, as long
    as it is monotone and leaves the integers up to 2^53 in magnitude as
    they are: for every logo whose sides are at most 2^53, both sides of
    the scaled box are finite numbers between 0 and the side they come
    from. *)
Theorem scaled_logo_is_not_larger (w h : N) :
  (Z.of_N w <= 2 ^ 53)%Z -> (Z.of_N h <= 2 ^ 53)%Z ->
  exists sw sh : Qc,
    scaleToFit rnd {| img_width := w; img_height := h |}
    = {| width := Fin sw; height := Fin sh |}
    /\ (0 <= sw)%Qc /\ (sw <= Qc_of_Z (Z.of_N w))%Qc
    /\ (0 <= sh)%Qc /\ (sh <= Qc_of_Z (Z.of_N h))%Qc.
Proof.
  intros Hw Hh.
  destruct (scale_ratio_unit w h) as (r & R & H0 & H1).
  assert (B : forall n : N, (Z.of_N n <= 2 ^ 53)%Z ->
            (0 <= rnd (Qc_of_Z (Z.of_N n) * r))%Qc
            /\ (rnd (Qc_of_Z (Z.of_N n) * r) <= Qc_of_Z (Z.of_N n))%Qc).
  { intros n Hn.
    assert (Pn : (0 <= Qc_of_Z (Z.of_N n))%Qc) by (apply (Qc_of_Z_le 0); lia).
    split.
    - apply rnd_nonneg. rewrite <- (Qcmult_0_l r).
      apply Qcmult_le_compat_r; [exact Pn | exact H0].
    - rewrite <- (exact (Z.of_N n)) at 2 by lia. apply monotone.
      rewrite Qcmult_comm. rewrite <- (Qcmult_1_l (Qc_of_Z (Z.of_N n))) at 2.
      apply Qcmult_le_compat_r; [exact H1 | exact Pn]. }
  exists (rnd (Qc_of_Z (Z.of_N w) * r)), (rnd (Qc_of_Z (Z.of_N h) * r)).
  split.
  - unfold scaleToFit. rewrite R. reflexivity.
  - destruct (B w Hw), (B h Hh). repeat split; assumption.
Qed.

End ScaledSize.

Lemma scaled_logo_is_not_larger_witness :
  exists sw sh : Qc,
    scaleToFit round53 {| img_width := 1600; img_height := 800 |}
    = {| width := Fin sw; height := Fin sh |}
    /\ (0 <= sw)%Qc /\ (sw <= Qc_of_Z 1600)%Qc
    /\ (0 <= sh)%Qc /\ (sh <= Qc_of_Z 800)%Qc.
Proof.
  apply (scaled_logo_is_not_larger round53 round53_monotone round53_exact 1600 800).
  - simpl. lia.
  - simpl. lia.
Defined.

(** ** The structure of the documents *)

Lemma opens_app (a b : list token) : opens (a ++ b) = opens a ++ opens b.
Proof. apply flat_map_app. Qed.

Lemma closes_app (a b : list token) : closes (a ++ b) = closes a ++ closes b.
Proof. apply flat_map_app. Qed.

Lemma named_app (tag : jsstring) (a b : list jsstring) :
  named tag (a ++ b) = named tag a ++ named tag b.
Proof. apply filter_app. Qed.

Lemma opens_style_attrs (tag : jsstring) (ts : TextStyle) (color : jsstring) :
  opens (style_attrs tag ts color) = [].
Proof. destruct ts; reflexivity. Qed.

Lemma closes_style_attrs (tag : jsstring) (ts : TextStyle) (color : jsstring) :
  closes (style_attrs tag ts color) = [].
Proof. destruct ts; reflexivity. Qed.

(** The elements of a layout: every layout has a [text] element, and
    none has an [svg] or an [image] element. *)
Lemma opens_layout (st : DesignStyle) (ts : TextStyle) (color text : jsstring) :
  In (lit "text") (opens (layout st ts color text))
  /\ named (lit "svg") (opens (layout st ts color text)) = []
  /\ named (lit "image") (opens (layout st ts color text)) = []
  /\ named (lit "svg") (closes (layout st ts color text)) = [].
Proof.
  assert (E : forall content,
             opens (text_element ts color content) = [lit "text"]
             /\ closes (text_element ts color content) = [lit "text"]).
  { intros content. unfold text_element.
    rewrite !opens_app, !closes_app, opens_style_attrs, closes_style_attrs.
    split; reflexivity. }
  assert (P : forall pathId content,
             opens (text_on_path pathId ts color content) = [lit "text"; lit "textPath"]
             /\ closes (text_on_path pathId ts color content) = [lit "textPath"; lit "text"]).
  { intros pathId content. unfold text_on_path.
    rewrite !opens_app, !closes_app, opens_style_attrs, closes_style_attrs.
    split; reflexivity. }
  assert (S : forall words, words <> [] ->
             let sk := flat_map (fun word => text_element ts color (escapeXml word)) words in
             In (lit "text") (opens sk)
             /\ named (lit "svg") (opens sk) = []
             /\ named (lit "image") (opens sk) = []
             /\ named (lit "svg") (closes sk) = []).
  { intros words Hne sk. subst sk. split.
    - destruct words as [|w ws]; [congruence|].
      cbn [flat_map]. rewrite opens_app, (proj1 (E _)). left. reflexivity.
    - clear Hne. induction words as [|w ws IH]; [repeat split|].
      cbn [flat_map]. rewrite opens_app, closes_app, !named_app.
      destruct (E (escapeXml w)) as [-> ->]. destruct IH as (-> & -> & ->).
      repeat split. }
  destruct st; try (apply S, split_ws_nonempty);
    unfold layout, arc;
    rewrite ?opens_app, ?closes_app, ?named_app, ?(proj1 (E _)), ?(proj2 (E _)),
      ?(proj1 (P _ _)), ?(proj2 (P _ _));
    (split; [cbn; tauto | repeat split]).
Qed.

Lemma opens_style_defs (ts : TextStyle) (ns : jsstring) :
  ~ In (lit "text") (opens (style_defs ts ns))
  /\ named (lit "image") (opens (style_defs ts ns)) = [].
Proof.
  destruct ts; (split; [|reflexivity]); cbn;
    intros H; repeat (destruct H as [H | H]; [discriminate H|]); exact H.
Qed.

Section Structure.

Variables (rnd : Qc -> Qc) (frac : Qc -> jsstring) (fonts : list Font) (W : World).

Hypothesis frac_plain : forall q, lacks dq (frac q).
Hypothesis fonts_plain :
  Forall (fun f => lacks dq (font_name f) /\ lacks "<" (font_name f)) fonts.

(** X11.  The font mode changes nothing but the font style block: for a
    design with a decoded logo and a text, in a browser whose data URLs
    hold no [<], the document made with the font embedded has the
    skeleton of the document made for the download, that of the layout
    between the definitions of the visual style and the end of the
    document. *)
Theorem font_mode_keeps_the_structure (d : DesignOptions) (dims : LogoDimensions)
  (doc : jsstring) :
  (forall blob uri, read_as_data_url W blob = ReadOk uri -> lacks "<" uri) ->
  logo_given (logo d) = true ->
  load_image W (logo_url (logo d)) = Some dims ->
  truthy (trim (text d)) = true ->
  lacks dq (textColor d) ->
  lacks dq (gradientStartColor d) -> lacks dq (gradientEndColor d) ->
  generateTextOnlySvg rnd frac fonts W d true = Resolved doc ->
  exists doc',
    generateTextOnlySvg rnd frac fonts W d false = Resolved doc'
    /\ skeleton doc = skeleton doc'
    /\ skeleton doc' = text_only_skeleton (style d) (textStyle d) (textColor d) (text d).
Proof.
  intros Hdata Hlogo Hload Htext Hc H1 H2 Hdoc.
  destruct (skeleton_text_only_download rnd frac fonts W frac_plain fonts_plain d dims
              Hlogo Hload Htext Hc H1 H2) as (doc' & E' & S').
  exists doc'. split; [exact E'|]. split; [|exact S'].
  rewrite S'.
  exact (skeleton_text_only_embedded rnd frac fonts W frac_plain fonts_plain d dims doc
           Hdata Hlogo Hload Htext Hc H1 H2 Hdoc).
Qed.

(** X12.  The combined document of a design with a decoded logo: it
    resolves, its skeleton is the font style block, the definitions of
    the visual style, the logo as one [image] element whose [href] is the
    logo's address, and then the layout; it has a [text] element exactly
    when the text is not blank. *)
Theorem combined_document_structure (d : DesignOptions) (dims : LogoDimensions) :
  logo_given (logo d) = true ->
  lacks dq (logo_url (logo d)) ->
  load_image W (logo_url (logo d)) = Some dims ->
  lacks dq (textColor d) ->
  lacks dq (gradientStartColor d) -> lacks dq (gradientEndColor d) ->
  exists doc,
    generateCombinedSvg rnd frac fonts W d = Resolved doc
    /\ skeleton doc
       = combined_skeleton (style d) (textStyle d) (textColor d) (text d)
           (logo_url (logo d))
    /\ named (lit "image") (elements doc) = [lit "image"]
    /\ (In (lit "text") (elements doc) <-> truthy (trim (text d)) = true).
Proof.
  intros Hlogo Hlurl Hload Hc H1 H2.
  destruct (skeleton_combined rnd frac fonts W frac_plain fonts_plain d dims
              Hlogo Hlurl Hload Hc H1 H2) as (doc & E & S).
  exists doc. split; [exact E|]. split; [exact S|].
  rewrite elements_skeleton, S. fold (opens (combined_skeleton (style d) (textStyle d)
                                               (textColor d) (text d) (logo_url (logo d)))).
  unfold combined_skeleton. rewrite !opens_app, !named_app, !in_app_iff.
  destruct (opens_style_defs (textStyle d) (lit "design-element")) as [D1 D2].
  rewrite D2.
  destruct (truthy (trim (text d))).
  - destruct (opens_layout (style d) (textStyle d) (textColor d) (text d))
      as (L1 & _ & L2 & _).
    rewrite L2. split; [reflexivity|]. split; [reflexivity | tauto].
  - split; [reflexivity|]. split; [|discriminate].
    cbn. intros H.
    repeat (destruct H as [H | H]; [try discriminate H; try tauto|]); tauto.
Qed.

Hypothesis frac_no_markup : forall q, lacks "<" (frac q).

(** The engraving document of a design with a decoded logo. *)
Lemma skeleton_engraving (d : DesignOptions) (dims : LogoDimensions) :
  logo_given (logo d) = true ->
  lacks dq (logo_url (logo d)) ->
  load_image W (logo_url (logo d)) = Some dims ->
  exists doc,
    generateEngravingSvg rnd frac fonts W d = Resolved doc
    /\ skeleton doc
       = engraving_skeleton
           (if truthy (trim (text d)) then engraved_text (style d) (text d)
            else [TOpen (lit "svg")])
           (logo_url (logo d)).
Proof.
  intros Hlogo Hurl Hload.
  assert (T : exists textSvg,
             generateTextOnlySvg rnd frac fonts W (with_text_style d (lit "#000000") ts_none)
               false = Resolved textSvg
             /\ writes (strip_envelope textSvg)
                  (if truthy (trim (text d)) then engraved_text (style d) (text d)
                   else [TOpen (lit "svg")])).
  { destruct (truthy (trim (text d))) eqn:Htext.
    - pose proof (generateTextOnlySvg_download rnd frac fonts W
                    (with_text_style d (lit "#000000") ts_none) dims) as G.
      cbn [logo text font textStyle textColor gradientStartColor gradientEndColor
           with_text_style] in G.
      eexists. split; [exact (G Hlogo Hload Htext)|].
      apply writes_engraved_text; assumption.
    - exists empty_canvas. split.
      + unfold generateTextOnlySvg. cbn [logo text with_text_style].
        rewrite Hlogo, Htext. reflexivity.
      + replace (strip_envelope empty_canvas)
          with (lit "<svg xmlns=`http://www.w3.org/2000/svg` width=`1000` height=`1000`>")
          by by_computation.
        written. }
  destruct T as (textSvg & HT & Hw).
  eexists. split; [exact (generateEngravingSvg_document rnd frac fonts W d dims textSvg
                            Hlogo Hload HT)|].
  apply writes_skeleton, writes_engraving_document; assumption.
Qed.

(** X13.  The engraving of a design with a text has one root: for a
    design with a decoded logo and a text that is not blank, the
    engraving document has a single [svg] start tag and a single [svg]
    end tag, and the logo is its last element. *)
Theorem engraving_with_text_has_one_root (d : DesignOptions) (dims : LogoDimensions) :
  logo_given (logo d) = true ->
  lacks dq (logo_url (logo d)) ->
  load_image W (logo_url (logo d)) = Some dims ->
  truthy (trim (text d)) = true ->
  exists doc,
    generateEngravingSvg rnd frac fonts W d = Resolved doc
    /\ named (lit "svg") (elements doc) = [lit "svg"]
    /\ named (lit "svg") (end_tags doc) = [lit "svg"]
    /\ elements doc
       = [lit "svg"; lit "defs"; lit "filter"; lit "feColorMatrix"; lit "defs"; lit "style"]
           ++ opens (layout (style d) ts_none (lit "#000000") (text d))
           ++ [lit "image"].
Proof.
  intros Hlogo Hlurl Hload Htext.
  destruct (skeleton_engraving d dims Hlogo Hlurl Hload) as (doc & E & S).
  rewrite Htext in S.
  exists doc. split; [exact E|].
  rewrite elements_skeleton, end_tags_skeleton, S.
  fold (opens (engraving_skeleton (engraved_text (style d) (text d)) (logo_url (logo d)))).
  fold (closes (engraving_skeleton (engraved_text (style d) (text d)) (logo_url (logo d)))).
  unfold engraving_skeleton, engraved_text.
  rewrite !opens_app, !closes_app, !named_app.
  destruct (opens_layout (style d) ts_none (lit "#000000") (text d)) as (_ & L1 & _ & L2).
  rewrite L1, L2. repeat split.
Qed.

End Structure.

Lemma font_mode_keeps_the_structure_witness :
  exists doc',
    generateTextOnlySvg round53 no_frac sample_fonts font_ready sample_design false
    = Resolved doc'
    /\ skeleton
         (text_only_document no_frac
            (font_face_style (lit "Creepster")
               {| dataUri := lit "data:font/woff2;base64,d09GMg=="; format := lit "woff2" |})
            (getTextStyleDefs ts_shadow (lit "#A78BFA") (lit "#2563EB") (lit "#B91C1C")
               (lit "text-element"))
            (getTextElements round53 no_frac sample_fonts sample_design
               (scaleToFit round53 {| img_width := 100; img_height := 200 |})
               (canvas_center round53)))
       = skeleton doc'
    /\ skeleton doc' = text_only_skeleton st_classic ts_shadow (lit "#A78BFA") (lit "A B C").
Proof.
  apply (font_mode_keeps_the_structure round53 no_frac sample_fonts font_ready)
    with (d := sample_design) (dims := {| img_width := 100; img_height := 200 |}).
  - intros q. reflexivity.
  - repeat constructor.
  - intros blob uri [= <-]. reflexivity.
  - reflexivity.
  - reflexivity.
  - reflexivity.
  - reflexivity.
  - reflexivity.
  - reflexivity.
  - reflexivity.
Defined.

Lemma combined_document_structure_witness :
  exists doc,
    generateCombinedSvg round53 no_frac sample_fonts (offline 100 200) sample_design
    = Resolved doc
    /\ skeleton doc
       = combined_skeleton st_classic ts_shadow (lit "#A78BFA") (lit "A B C")
           (lit "data:image/png;base64,iVBORw0KGgo=")
    /\ named (lit "image") (elements doc) = [lit "image"]
    /\ (In (lit "text") (elements doc) <-> true = true).
Proof.
  apply (combined_document_structure round53 no_frac sample_fonts (offline 100 200))
    with (d := sample_design) (dims := {| img_width := 100; img_height := 200 |}).
  - intros q. reflexivity.
  - repeat constructor.
  - reflexivity.
  - reflexivity.
  - reflexivity.
  - reflexivity.
  - reflexivity.
  - reflexivity.
Defined.

Lemma engraving_with_text_has_one_root_witness :
  exists doc,
    generateEngravingSvg round53 no_frac sample_fonts (offline 100 200) sample_design
    = Resolved doc
    /\ named (lit "svg") (elements doc) = [lit "svg"]
    /\ named (lit "svg") (end_tags doc) = [lit "svg"]
    /\ elements doc
       = [lit "svg"; lit "defs"; lit "filter"; lit "feColorMatrix"; lit "defs"; lit "style";
          lit "defs"; lit "path"; lit "text"; lit "textPath"; lit "image"].
Proof.
  apply (engraving_with_text_has_one_root round53 no_frac sample_fonts (offline 100 200))
    with (d := sample_design) (dims := {| img_width := 100; img_height := 200 |}).
  - intros q. reflexivity.
  - repeat constructor.
  - intros q. reflexivity.
  - reflexivity.
  - reflexivity.
  - reflexivity.
  - reflexivity.
Defined.

(** ** The two halves of a visual style *)

Lemma url_ref_of (x : jsstring) : url_ref (lit "url(#" ++ x ++ lit ")") = Some x.
Proof.
  unfold url_ref.
  assert (S : starts_with (lit "url(#") (lit "url(#" ++ x ++ lit ")") = true) by reflexivity.
  assert (E : ends_with (lit ")") (lit "url(#" ++ x ++ lit ")") = true).
  { unfold ends_with. rewrite !rev_app_distr. reflexivity. }
  rewrite S, E. cbn [andb]. f_equal.
  change (skipn 5 (lit "url(#" ++ x ++ lit ")")) with (x ++ [")"%char]).
  apply removelast_last.
Qed.

(** The attributes [getTextStyleSvg] writes, read inside a start tag. *)
Lemma read_style_attrs_in (ns tag : jsstring) (ts : TextStyle) (color : jsstring) :
  lacks dq color -> lacks dq ns ->
  reads (InTag tag []) (getTextStyleSvg ts color ns) (InTag tag [])
    (style_attrs_in ns tag ts color).
Proof.
  intros Hc Hns.
  assert (R : exists out,
             reads (InTag tag []) (getTextStyleSvg ts color ns) (InTag tag []) out
             /\ out = style_attrs_in ns tag ts color).
  { destruct ts; unfold getTextStyleSvg, style_attrs_in, attr;
      eexists; (split; [reading|]);
      rewrite ?app_nil_r, <- ?app_assoc; reflexivity. }
  destruct R as (out & R & ->). exact R.
Qed.

(** X14.  [getTextStyleSvg] and [getTextStyleDefs] agree on the ids:
    for every visual style and every name space without a double quote,
    the ids the paint attributes of [getTextStyleSvg] refer to are the
    ids the definitions of [getTextStyleDefs] define, for a colour that
    is not itself a reference. *)
Theorem style_reference_is_defined (tag : jsstring) (ts : TextStyle)
  (color g1 g2 ns : jsstring) :
  attr_text color -> lacks dq g1 -> lacks dq g2 -> lacks dq ns ->
  flat_map ref_of (tokens_from (InTag tag []) (getTextStyleSvg ts color ns))
  = ids (getTextStyleDefs ts color g1 g2 ns).
Proof.
  intros [Hc Hcref] H1 H2 Hns.
  rewrite ids_skeleton, (writes_skeleton _ _ (writes_style_defs ts color g1 g2 ns Hc H1 H2 Hns)).
  destruct (read_style_attrs_in ns tag ts color Hc Hns) as [_ ->].
  assert (F : forall name, ref_of (attr tag name color)
                           = if string_eqb (lit name) (lit "href") && starts_with (lit "#") color
                             then [skipn 1 color] else []).
  { intros name. unfold attr, ref_of. rewrite Hcref. reflexivity. }
  destruct ts; unfold style_attrs_in, style_defs, gradient_def; cbn [flat_map];
    rewrite ?F; unfold attr, ref_of; rewrite ?url_ref_of; reflexivity.
Qed.

Lemma style_reference_is_defined_witness :
  flat_map ref_of
    (tokens_from (InTag (lit "text") []) (getTextStyleSvg ts_neon (lit "#A78BFA") (lit "x1")))
  = ids (getTextStyleDefs ts_neon (lit "#A78BFA") (lit "#2563EB") (lit "#B91C1C") (lit "x1")).
Proof.
  apply (style_reference_is_defined (lit "text") ts_neon (lit "#A78BFA") (lit "#2563EB")
           (lit "#B91C1C") (lit "x1")).
  - split; reflexivity.
  - reflexivity.
  - reflexivity.
  - reflexivity.
Defined.

(** ** The PNG of the text design *)

Lemma revoke_fresh (url : jsstring) (live : Urls) :
  ~ In url live -> revokeObjectURL url (url :: live) = live.
Proof.
  intros H. unfold revokeObjectURL. cbn [filter]. rewrite string_eqb_refl. cbn [negb].
  induction live as [|u live IH]; [reflexivity|].
  cbn [filter]. destruct (string_eqb u url) eqn:E.
  - apply string_eqb_eq in E. subst u. elim H. left. reflexivity.
  - cbn [negb]. f_equal. apply IH. intros Hin. apply H. right. exact Hin.
Qed.

Section PngProperties.

Variables (rnd : Qc -> Qc) (frac : Qc -> jsstring) (fonts : list Font) (W : World).
Variable C : Canvas.

(** X15.  [generateTextOnlyPng] leaves no object URL behind: when the
    URLs the browser makes are not among the live ones, the live URLs are
    the same after the call as before, whether it resolves or rejects,
    and whatever the design. *)
Theorem png_revokes_its_url (d : DesignOptions) (live : Urls) :
  (forall content, ~ In (createObjectURL C content) live) ->
  snd (generateTextOnlyPng rnd frac fonts W C d live) = live.
Proof.
  intros Hfresh. unfold generateTextOnlyPng.
  destruct (generateTextOnlySvg rnd frac fonts W d true) as [svg|e|]; try reflexivity.
  cbv zeta. unfold image_handler.
  destruct (load_svg C svg); [destruct (has_context C)|];
    cbn [snd]; apply revoke_fresh, Hfresh.
Qed.

(** X16.  What the PNG is: when [generateTextOnlyPng] resolves, the
    text-only composer resolved with the font embedded, the browser
    loaded its document as an image and gave a 2d context, and the value
    is the PNG of this document drawn over a canvas of 2000 x 2000. *)
Theorem png_is_the_drawn_document (d : DesignOptions) (live : Urls) (png : jsstring) :
  fst (generateTextOnlyPng rnd frac fonts W C d live) = Resolved png ->
  exists svgString,
    generateTextOnlySvg rnd frac fonts W d true = Resolved svgString
    /\ load_svg C svgString = true
    /\ has_context C = true
    /\ png = toDataURL C svgString 2000 2000.
Proof.
  unfold generateTextOnlyPng.
  destruct (generateTextOnlySvg rnd frac fonts W d true) as [svg|e|]; try discriminate.
  cbv zeta. unfold image_handler.
  destruct (load_svg C svg) eqn:L; [destruct (has_context C) eqn:X|]; try discriminate.
  cbn [fst]. intros [= <-]. exists svg. repeat split; assumption.
Qed.

(** X17.  The errors of the composer come first: for a design without a
    logo, and for a design with a text whose logo the browser cannot
    decode, [generateTextOnlyPng] rejects with the composer's error and
    makes no object URL; it rejects with nothing but an error of the
    composer or one of the two errors of the canvas. *)
Theorem png_rejections (d : DesignOptions) (live : Urls) :
  (logo_given (logo d) = false ->
   generateTextOnlyPng rnd frac fonts W C d live
   = (Rejected (Error (lit "Logo is required for layout.")), live))
  /\ (logo_given (logo d) = true -> truthy (trim (text d)) = true ->
      load_image W (logo_url (logo d)) = None ->
      generateTextOnlyPng rnd frac fonts W C d live
      = (Rejected (Error (lit "Failed to load logo image to determine dimensions.")), live))
  /\ (forall e, fst (generateTextOnlyPng rnd frac fonts W C d live) = Rejected e ->
      generateTextOnlySvg rnd frac fonts W d true = Rejected e
      \/ e = Error (lit "Could not get canvas context for PNG generation.")
      \/ e = Error (lit "Failed to load SVG image for PNG conversion. It may contain unsupported features.")).
Proof.
  split; [|split].
  - intros H. unfold generateTextOnlyPng, generateTextOnlySvg. rewrite H. reflexivity.
  - intros Hlogo Htext Hload. unfold generateTextOnlyPng, generateTextOnlySvg.
    rewrite Hlogo, Htext, (getLogoDimensions_failed W _ Hload). reflexivity.
  - intros e. unfold generateTextOnlyPng.
    destruct (generateTextOnlySvg rnd frac fonts W d true) as [svg|e'|].
    + cbv zeta. unfold image_handler.
      destruct (load_svg C svg); [destruct (has_context C)|]; cbn [fst];
        try discriminate; intros [= <-]; auto.
    + cbn [fst]. intros [= <-]. left. reflexivity.
    + discriminate.
Qed.

End PngProperties.

Lemma png_revokes_its_url_witness :
  snd (generateTextOnlyPng round53 no_frac sample_fonts font_ready sample_canvas
         sample_design [lit "blob:https://app.example/0000"])
  = [lit "blob:https://app.example/0000"].
Proof.
  apply (png_revokes_its_url round53 no_frac sample_fonts font_ready sample_canvas
           sample_design [lit "blob:https://app.example/0000"]).
  intros content [H | []]. discriminate H.
Defined.

Lemma png_is_the_drawn_document_witness :
  exists svgString,
    generateTextOnlySvg round53 no_frac sample_fonts font_ready sample_design true
    = Resolved svgString
    /\ load_svg sample_canvas svgString = true
    /\ has_context sample_canvas = true
    /\ lit "data:image/png;base64,iVBORw0KGgo="
       = toDataURL sample_canvas svgString 2000 2000.
Proof.
  apply (png_is_the_drawn_document round53 no_frac sample_fonts font_ready sample_canvas
           sample_design []).
  reflexivity.
Defined.

Lemma png_rejections_witness :
  generateTextOnlyPng round53 no_frac sample_fonts no_decoder sample_canvas
    (with_logo sample_design None) []
  = (Rejected (Error (lit "Logo is required for layout.")), [])
  /\ generateTextOnlyPng round53 no_frac sample_fonts no_decoder sample_canvas
       sample_design []
     = (Rejected (Error (lit "Failed to load logo image to determine dimensions.")), []).
Proof.
  split.
  - apply (png_rejections round53 no_frac sample_fonts no_decoder sample_canvas
             (with_logo sample_design None) []). reflexivity.
  - apply (png_rejections round53 no_frac sample_fonts no_decoder sample_canvas
             sample_design []); reflexivity.
Defined.

(** ** The download handlers *)

Section HandlerProperties.

Variables (rnd : Qc -> Qc) (frac : Qc -> jsstring) (fonts : list Font) (W : World).
Variable t : jsstring -> jsstring.
Variable native_message : Thrown -> option jsstring.

(** X18.  The text download is guarded: [onDownloadTextSvg] asks for a
    text first and for a logo second, so it calls the composer only with
    both; it then either downloads [text_design.svg], the text-only
    document of the design for a decoded logo, or reports that the logo
    could not be loaded.  It never downloads the empty canvas, never
    reports the composer's own missing-logo error, and never waits. *)
Theorem text_svg_download_is_guarded (d : DesignOptions) :
  match onDownloadTextSvg rnd frac fonts W t native_message d with
  | SetError message =>
      (truthy (trim (text d)) = false
       /\ message = Some (t (lit "errorNoTextForSvg")))
      \/ (truthy (trim (text d)) = true /\ logo_given (logo d) = false
          /\ message = Some (t (lit "errorNoLogoForLayout")))
      \/ (truthy (trim (text d)) = true /\ logo_given (logo d) = true
          /\ load_image W (logo_url (logo d)) = None
          /\ message = Some (lit "Failed to load logo image to determine dimensions."))
  | Download href filename =>
      truthy (trim (text d)) = true /\ logo_given (logo d) = true
      /\ filename = lit "text_design.svg"
      /\ exists dims,
           load_image W (logo_url (logo d)) = Some dims
           /\ href = BlobUrl
                       (text_only_document frac
                          (import_style (fontUrl_of (fontName_of fonts (font d))))
                          (getTextStyleDefs (textStyle d) (textColor d)
                             (gradientStartColor d) (gradientEndColor d)
                             (lit "text-element"))
                          (getTextElements rnd frac fonts d (scaleToFit rnd dims)
                             (canvas_center rnd)))
  | Waiting => False
  end.
Proof.
  unfold onDownloadTextSvg.
  destruct (truthy (trim (text d))) eqn:Htext; cbn [negb]; [|left; split; reflexivity].
  destruct (logo_given (logo d)) eqn:Hlogo; cbn [negb];
    [|right; left; repeat split; reflexivity].
  destruct (load_image W (logo_url (logo d))) as [dims|] eqn:Hload.
  - rewrite (generateTextOnlySvg_download rnd frac fonts W d dims Hlogo Hload Htext).
    cbn [download_or_report]. repeat split. exists dims. split; reflexivity.
  - unfold generateTextOnlySvg. rewrite Hlogo, Htext, (getLogoDimensions_failed W _ Hload).
    cbn [negb await download_or_report message_of]. right. right. repeat split.
Qed.

Hypothesis frac_plain : forall q, lacks dq (frac q).
Hypothesis frac_no_markup : forall q, lacks "<" (frac q).
Hypothesis fonts_plain :
  Forall (fun f => lacks dq (font_name f) /\ lacks "<" (font_name f)) fonts.

(** X19.  The engraving download is not guarded against a blank text:
    for a design with a decoded logo and a blank text, where
    [onDownloadTextSvg] reports the missing text, [onDownloadEngravingSvg]
    downloads [engraving_design.svg], and the document it downloads has
    an [svg] start tag inside its [svg] element that is never ended. *)
Theorem engraving_download_takes_a_blank_text (d : DesignOptions) (dims : LogoDimensions) :
  logo_given (logo d) = true ->
  lacks dq (logo_url (logo d)) ->
  load_image W (logo_url (logo d)) = Some dims ->
  truthy (trim (text d)) = false ->
  onDownloadTextSvg rnd frac fonts W t native_message d
  = SetError (Some (t (lit "errorNoTextForSvg")))
  /\ exists doc,
       onDownloadEngravingSvg rnd frac fonts W t native_message d
       = Download (BlobUrl doc) (lit "engraving_design.svg")
       /\ named (lit "svg") (elements doc) = [lit "svg"; lit "svg"]
       /\ named (lit "svg") (end_tags doc) = [lit "svg"].
Proof.
  intros Hlogo Hlurl Hload Htext. split.
  - unfold onDownloadTextSvg. rewrite Htext. reflexivity.
  - destruct (skeleton_engraving rnd frac fonts W frac_plain fonts_plain frac_no_markup
                d dims Hlogo Hlurl Hload) as (doc & E & S).
    rewrite Htext in S.
    exists doc. split.
    + unfold onDownloadEngravingSvg. rewrite Hlogo, E. reflexivity.
    + rewrite elements_skeleton, end_tags_skeleton, S. split; reflexivity.
Qed.

End HandlerProperties.

Lemma engraving_download_takes_a_blank_text_witness :
  onDownloadTextSvg round53 no_frac sample_fonts (offline 100 200) (fun key => key)
    (fun _ => None) (with_text sample_design (lit "  "))
  = SetError (Some (lit "errorNoTextForSvg"))
  /\ exists doc,
       onDownloadEngravingSvg round53 no_frac sample_fonts (offline 100 200) (fun key => key)
         (fun _ => None) (with_text sample_design (lit "  "))
       = Download (BlobUrl doc) (lit "engraving_design.svg")
       /\ named (lit "svg") (elements doc) = [lit "svg"; lit "svg"]
       /\ named (lit "svg") (end_tags doc) = [lit "svg"].
Proof.
  apply (engraving_download_takes_a_blank_text round53 no_frac sample_fonts (offline 100 200)
           (fun key => key) (fun _ => None))
    with (dims := {| img_width := 100; img_height := 200 |}).
  - intros q. reflexivity.
  - intros q. reflexivity.
  - repeat constructor.
  - reflexivity.
  - reflexivity.
  - reflexivity.
  - reflexivity.
Defined.

(** ** The stacked layout *)

Lemma opens_stacked (ts : TextStyle) (color : jsstring) (words : list jsstring) :
  opens (flat_map (fun word => text_element ts color (escapeXml word)) words)
  = repeat (lit "text") (List.length words).
Proof.
  induction words as [|w ws IH]; [reflexivity|].
  cbn [flat_map List.length repeat]. rewrite opens_app, IH.
  unfold text_element. rewrite !opens_app, opens_style_attrs. reflexivity.
Qed.

Section Stacked.

Variables (rnd : Qc -> Qc) (frac : Qc -> jsstring) (fonts : list Font).

(** X20.  The stacked layout writes one line per word: for a text made
    of words separated by runs of white space, with none around them,
    the [text] elements of the [stacked_text] layout hold the words,
    escaped, one each and in the order of the text. *)
Theorem stacked_layout_writes_the_words (d : DesignOptions) (scaledLogo : Box)
  (center : Point) (w0 : jsstring) (rest : list (jsstring * jsstring)) :
  (forall q, lacks dq (frac q)) ->
  Forall (fun f => lacks dq (font_name f) /\ lacks "<" (font_name f)) fonts ->
  lacks dq (textColor d) ->
  style d = st_stacked_text ->
  is_word w0 ->
  Forall (fun sw => is_separator (fst sw) /\ is_word (snd sw)) rest ->
  text d = words_text w0 rest ->
  text_of (lit "text") (getTextElements rnd frac fonts d scaledLogo center)
  = map escapeXml (w0 :: map snd rest)
  /\ elements (getTextElements rnd frac fonts d scaledLogo center)
     = repeat (lit "text") (S (List.length rest)).
Proof.
  intros Hfrac Hfonts Hcolor Hst Hw0 Hrest Htext.
  pose proof (text_of_text_elements rnd frac fonts d scaledLogo center Hfrac Hfonts Hcolor)
    as T.
  pose proof (skeleton_text_elements rnd frac fonts d scaledLogo center Hfrac Hfonts Hcolor)
    as K.
  rewrite Hst in T, K. cbn [text_tag pieces layout] in T, K.
  rewrite Htext, (split_ws_words w0 rest Hw0 Hrest) in T, K.
  split; [exact T|].
  rewrite elements_skeleton, K.
  rewrite <- (length_map snd rest).
  exact (opens_stacked (textStyle d) (textColor d) (w0 :: map snd rest)).
Qed.

End Stacked.

Lemma stacked_layout_writes_the_words_witness :
  text_of (lit "text")
    (getTextElements round53 no_frac sample_fonts (with_style sample_design st_stacked_text)
       {| width := num_of_Z 100; height := num_of_Z 200 |} (canvas_center round53))
  = [lit "A"; lit "B"; lit "C"]
  /\ elements
       (getTextElements round53 no_frac sample_fonts (with_style sample_design st_stacked_text)
          {| width := num_of_Z 100; height := num_of_Z 200 |} (canvas_center round53))
     = [lit "text"; lit "text"; lit "text"].
Proof.
  apply (stacked_layout_writes_the_words round53 no_frac sample_fonts
           (with_style sample_design st_stacked_text)
           {| width := num_of_Z 100; height := num_of_Z 200 |} (canvas_center round53)
           (lit "A") [(lit " ", lit "B"); (lit " ", lit "C")]).
  - intros q. reflexivity.
  - repeat constructor.
  - reflexivity.
  - reflexivity.
  - split; [discriminate | reflexivity].
  - repeat constructor; discriminate.
  - reflexivity.
Defined.

(** ** What the engraving does not depend on *)

Section EngravingInputs.

Variables (rnd : Qc -> Qc) (frac : Qc -> jsstring) (fonts : list Font) (W : World).

(** X21.  The engraving does not depend on the gradient colours either:
    without visual style no gradient is defined, so for every design and
    every pair of gradient colours the engraving is the one of the design
    as it is, whatever the browser does. *)
Theorem engraving_ignores_the_gradient (d : DesignOptions) (g1 g2 : jsstring) :
  generateEngravingSvg rnd frac fonts W (with_gradient d g1 g2)
  = generateEngravingSvg rnd frac fonts W d.
Proof.
  unfold generateEngravingSvg, generateTextOnlySvg.
  cbn [logo text font style textStyle textColor gradientStartColor gradientEndColor
       with_gradient with_text_style].
  destruct (logo_given (logo d)); cbn [negb]; [|reflexivity].
  destruct (getLogoDimensions W (logo_url (logo d))) as [dims|e|]; cbn [await];
    try reflexivity; destruct (truthy (trim (text d))); reflexivity.
Qed.

End EngravingInputs.
